(** * A shallow embedding of pygame's software rasteriser (src_c/draw.c)

    The development follows the layout of the C file: machine integers and
    the SDL surface first, then the clip-aware pixel writer [set_at] with the
    bounding-box accumulator [add_pixel_to_drawn_list], the antialiased
    colour sampler, the rasterisers ([draw_line], [draw_line_width], the
    circle family, [draw_ellipse], [draw_fillpoly], [draw_round_rect],
    [draw_aaline], [draw_arc]) and finally the Python-facing primitives
    ([line], [lines], [circle], [polygon], ...).

    Conventions.
    - A C [int] is a [Z].  Signed overflow is undefined in C, so signed
      arithmetic is the arithmetic of [Z]; conversions that C defines by
      wrap-around ([Uint8], [Uint16], [Uint32], [Sint16] casts) are written
      out.  C's [/] and [%] are [Z.quot] and [Z.rem], [>>] is [Z.shiftr].
    - A C [float] is an IEEE binary32 number, a [spec_float] of the Standard
      Library operated at precision 24; a [double] is operated at
      precision 53.
    - The pixel buffer is a byte-addressed memory [Z -> Z]; multi-byte
      stores and loads are little-endian, the byte order the 3-byte branch
      of [set_at] is compiled for on SDL_LIL_ENDIAN targets. *)

From Stdlib Require Import ZArith QArith Qround Qpower Lia Bool String.
From Stdlib Require Import Floats.
From stdpp Require Import base numbers list sorting gmap.

Open Scope Z_scope.

(** ** Machine integers *)

Definition INT_MAX : Z := 2147483647.
Definition INT_MIN : Z := -2147483648.

Definition Uint8 (z : Z) : Z := z mod 2 ^ 8.
Definition Uint16 (z : Z) : Z := z mod 2 ^ 16.
Definition Uint32 (z : Z) : Z := z mod 2 ^ 32.
Definition Sint16 (z : Z) : Z := (z + 2 ^ 15) mod 2 ^ 16 - 2 ^ 15.

(** [MIN] and [MAX] of pygame.h. *)
Definition MIN (a b : Z) : Z := if a <? b then a else b.
Definition MAX (a b : Z) : Z := if a >? b then a else b.

(** ** Floating point

    [float] arithmetic is IEEE binary32 evaluated in single precision
    (FLT_EVAL_METHOD 0), [double] arithmetic is binary64.  The conversion of
    a floating-point value to [int] truncates toward zero; where C leaves the
    conversion undefined (NaN, infinities, values outside [int]) the model
    yields [INT_MIN], the result of the x86 conversion instructions. *)

Module F32.
Definition prec : Z := 24.
Definition emax : Z := 128.
Definition t := spec_float.
Definition of_int (z : Z) : t := binary_normalize prec emax z 0 false.
Definition add : t → t → t := SFadd prec emax.
Definition sub : t → t → t := SFsub prec emax.
Definition mul : t → t → t := SFmul prec emax.
Definition div : t → t → t := SFdiv prec emax.
Definition neg : t → t := SFopp.
Definition ltb : t → t → bool := SFltb.
Definition leb : t → t → bool := SFleb.
Definition eqb : t → t → bool := SFeqb.
(** The literal [0.5f]. *)
Definition half : t := binary_normalize prec emax 1 (-1) false.
End F32.

Module F64.
Definition prec : Z := 53.
Definition emax : Z := 1024.
Definition t := spec_float.
Definition of_int (z : Z) : t := binary_normalize prec emax z 0 false.
Definition add : t → t → t := SFadd prec emax.
Definition sub : t → t → t := SFsub prec emax.
Definition mul : t → t → t := SFmul prec emax.
Definition div : t → t → t := SFdiv prec emax.
Definition ltb : t → t → bool := SFltb.
Definition leb : t → t → bool := SFleb.
(** The literals [1.0e-4], [0.05] and [M_PI]. *)
Definition lit_1e_4 : t := div (of_int 1) (of_int 10000).
Definition lit_0_05 : t := div (of_int 5) (of_int 100).
Definition M_PI : t := S754_finite false 7074237752028440 (-51).
End F64.

(** [(int) f] for a [float] or a [double] [f]. *)
Definition int_of_float (f : spec_float) : Z :=
  match f with
  | S754_zero _ => 0
  | S754_finite s m e =>
      let mag := match e with
                 | Z0 => Zpos m
                 | Zpos p => Zpos m * 2 ^ Zpos p
                 | Zneg p => Zpos m / 2 ^ Zpos p
                 end in
      let v := if s then - mag else mag in
      if (INT_MIN <=? v) && (v <=? INT_MAX) then v else INT_MIN
  | _ => INT_MIN
  end.

(** The trigonometric functions of libm used by [draw_arc]. *)
Class Libm := {
  cos : F64.t → F64.t;
  sin : F64.t → F64.t;
  asin : F64.t → F64.t
}.

(** A C [for (v = lo; v < hi; v++) body] whose body only issues drawing
    commands: the commands of the successive iterations, in order. *)
Definition for_Z {A} (lo hi : Z) (body : Z → list A) : list A :=
  flat_map body (seqZ lo (hi - lo)).

(** ** The SDL surface *)

Record SDL_Rect := mkRect { rect_x : Z; rect_y : Z; rect_w : Z; rect_h : Z }.

Record SDL_PixelFormat := mkFormat {
  BytesPerPixel : Z;
  Rshift : Z; Gshift : Z; Bshift : Z; Ashift : Z;
  Amask : Z
}.

Record SDL_Surface := mkSurface {
  format : SDL_PixelFormat;
  surf_w : Z;
  surf_h : Z;
  pitch : Z;
  pixels : Z → Z;
  clip_rect : SDL_Rect
}.

Definition set_pixels (surf : SDL_Surface) (p : Z → Z) : SDL_Surface :=
  mkSurface (format surf) (surf_w surf) (surf_h surf) (pitch surf) p
            (clip_rect surf).

(** Byte stores and loads on the pixel buffer. *)
Definition store8 (m : Z → Z) (a v : Z) : Z → Z :=
  fun a' => if a' =? a then Uint8 v else m a'.
Definition store16 (m : Z → Z) (a v : Z) : Z → Z :=
  store8 (store8 m a v) (a + 1) (Z.shiftr v 8).
Definition store32 (m : Z → Z) (a v : Z) : Z → Z :=
  store8 (store8 (store8 (store8 m a v) (a + 1) (Z.shiftr v 8))
                 (a + 2) (Z.shiftr v 16)) (a + 3) (Z.shiftr v 24).
Definition load32 (m : Z → Z) (a : Z) : Z :=
  m a + 2 ^ 8 * m (a + 1) + 2 ^ 16 * m (a + 2) + 2 ^ 24 * m (a + 3).

(** The colour conversions of the SDL library, which draw.c calls but does
    not define. *)
Class SDL_API := {
  SDL_GetRGB : Z → SDL_PixelFormat → Z * Z * Z;
  SDL_GetRGBA : Z → SDL_PixelFormat → Z * Z * Z * Z;
  SDL_MapRGBA : SDL_PixelFormat → Z → Z → Z → Z → Z
}.

(** ** The bounding-box accumulator *)

Record drawn_area := mkArea { min_x : Z; min_y : Z; max_x : Z; max_y : Z }.

(** [int drawn_area[4] = {INT_MAX, INT_MAX, INT_MIN, INT_MIN}] *)
Definition empty_area : drawn_area := mkArea INT_MAX INT_MAX INT_MIN INT_MIN.

Definition add_pixel_to_drawn_list (x y : Z) (pts : drawn_area) : drawn_area :=
  let p0 := if x <? min_x pts then x else min_x pts in
  let p1 := if y <? min_y pts then y else min_y pts in
  let p2 := if x >? max_x pts then x else max_x pts in
  let p3 := if y >? max_y pts then y else max_y pts in
  mkArea p0 p1 p2 p3.

(** The rectangle every primitive assembles from its accumulator. *)
Definition return_rect (d : drawn_area) (anchor : Z * Z) : SDL_Rect :=
  if negb (min_x d =? INT_MAX) && negb (min_y d =? INT_MAX) &&
     negb (max_x d =? INT_MIN) && negb (max_y d =? INT_MIN)
  then mkRect (min_x d) (min_y d) (max_x d - min_x d + 1)
              (max_y d - min_y d + 1)
  else mkRect anchor.1 anchor.2 0 0.

(** ** The pixel writer *)

Section PixelWriter.
Context `{SDL_API}.

(** The clip test shared by [set_at] and [get_antialiased_color]. *)
Definition outside_clip (surf : SDL_Surface) (x y : Z) : bool :=
  let c := clip_rect surf in
  (x <? rect_x c) || (x >=? rect_x c + rect_w c) ||
  (y <? rect_y c) || (y >=? rect_y c + rect_h c).

Definition set_at (surf : SDL_Surface) (x y : Z) (color : Z)
    (area : drawn_area) : Z * SDL_Surface * drawn_area :=
  let fmt := format surf in
  let px := pixels surf in
  if outside_clip surf x y then (0, surf, area)
  else
    let px' :=
      match BytesPerPixel fmt with
      | 1 => store8 px (y * pitch surf + x) color
      | 2 => store16 px (y * pitch surf + 2 * x) (Uint16 color)
      | 4 => store32 px (y * pitch surf + 4 * x) color
      | _ =>
          let '(r, g, b) := SDL_GetRGB color fmt in
          let byte_buf := y * pitch surf + x * 3 in
          store8 (store8 (store8 px (byte_buf + Z.shiftr (Rshift fmt) 3) r)
                         (byte_buf + Z.shiftr (Gshift fmt) 3) g)
                 (byte_buf + Z.shiftr (Bshift fmt) 3) b
      end in
    (1, set_pixels surf px', add_pixel_to_drawn_list x y area).

End PixelWriter.

(** ** The antialiased colour sampler *)

Section AAColorSampler.
Context `{SDL_API}.

(** [(Uint8) (brightness * c + (1 - brightness) * bg)] *)
Definition blend_channel (brightness : F32.t) (c bg : Z) : Z :=
  Uint8 (int_of_float
           (F32.add (F32.mul brightness (F32.of_int c))
                    (F32.mul (F32.sub (F32.of_int 1) brightness)
                             (F32.of_int bg)))).

(** [(Uint8) (brightness * c)] *)
Definition scale_channel (brightness : F32.t) (c : Z) : Z :=
  Uint8 (int_of_float (F32.mul brightness (F32.of_int c))).

(** The destination is fetched through [Uint32 *pixels = surf->pixels] as
    [pixels[(y * surf->w) + x]]: a 32-bit load at byte [4 * (y * w + x)]. *)
Definition get_antialiased_color (surf : SDL_Surface) (x y : Z)
    (original_color : Z) (brightness : F32.t) (blend : Z) : Z :=
  let fmt := format surf in
  let '(c0, c1, c2, c3) := SDL_GetRGBA original_color fmt in
  if negb (blend =? 0) then
    if outside_clip surf x y then original_color
    else
      let '(b0, b1, b2, b3) :=
        SDL_GetRGBA (load32 (pixels surf) (4 * (y * surf_w surf + x))) fmt in
      SDL_MapRGBA fmt (blend_channel brightness c0 b0)
                  (blend_channel brightness c1 b1)
                  (blend_channel brightness c2 b2)
                  (blend_channel brightness c3 b3)
  else
    SDL_MapRGBA fmt (scale_channel brightness c0) (scale_channel brightness c1)
                (scale_channel brightness c2) (scale_channel brightness c3).

End AAColorSampler.

(** ** Drawing commands

    Every rasteriser of draw.c acts on the surface through [set_at] only,
    always with the [surf], [color] and [drawn_area] it was given, and none
    of them inspects the value [set_at] returns or the pixel buffer to decide
    what to do next.  A rasteriser is therefore embedded as the sequence of
    pixel commands it issues, in program order; [run] executes such a
    sequence against a surface and an accumulator. *)

Inductive op :=
| Plot (x y : Z)
    (** [set_at(surf, x, y, color, drawn_area)] *)
| PlotAA (x y : Z) (brightness : F32.t).
    (** [pixel_color = get_antialiased_color(surf, x, y, color, brightness,
        blend); set_at(surf, x, y, pixel_color, drawn_area)] *)

Definition Draw := list op.

Definition op_xy (o : op) : Z * Z :=
  match o with Plot x y => (x, y) | PlotAA x y _ => (x, y) end.

Definition set_at_ (x y : Z) : Draw := [Plot x y].

Section Run.
Context `{SDL_API}.

Definition run_op (color blend : Z) (o : op)
    (st : SDL_Surface * drawn_area) : Z * SDL_Surface * drawn_area :=
  match o with
  | Plot x y => set_at st.1 x y color st.2
  | PlotAA x y brightness =>
      let pixel_color :=
        get_antialiased_color st.1 x y color brightness blend in
      set_at st.1 x y pixel_color st.2
  end.

Fixpoint run (color blend : Z) (ops : Draw)
    (st : SDL_Surface * drawn_area) : SDL_Surface * drawn_area :=
  match ops with
  | [] => st
  | o :: ops' =>
      let '(_, surf', area') := run_op color blend o st in
      run color blend ops' (surf', area')
  end.

End Run.

(** The pixels a command sequence stores: the positions at which [set_at]
    returns 1. *)
Definition written (surf : SDL_Surface) (ops : Draw) : list (Z * Z) :=
  filter (λ p, outside_clip surf p.1 p.2 = false) (op_xy <$> ops).

(** ** Loops

    A C [while] loop whose body issues drawing commands.  [fuel] bounds the
    number of iterations; [None] means that the loop was still running when
    the fuel ran out.  Each use below comes with a lemma showing that the
    fuel it passes is enough. *)
Fixpoint while_ {S : Type} (fuel : nat) (cond : S → bool)
    (body : S → S * Draw) (s : S) : option Draw :=
  if cond s then
    match fuel with
    | O => None
    | Datatypes.S fuel' =>
        let '(s', ops) := body s in
        (λ rest, ops ++ rest) <$> while_ fuel' cond body s'
    end
  else Some [].

(** [do body while (cond)] *)
Definition do_while {S : Type} (fuel : nat) (cond : S → bool)
    (body : S → S * Draw) (s : S) : option Draw :=
  let '(s', ops) := body s in
  (λ rest, ops ++ rest) <$> while_ fuel cond body s'.

(** [for (v = lo; v < hi; v += 2) body] *)
Definition for_Z_step2 {A} (lo hi : Z) (body : Z → list A) : list A :=
  flat_map body ((λ k, lo + 2 * k) <$> seqZ 0 ((hi - lo + 1) / 2)).

(** ** LineRaster: [draw_line] *)

(** One iteration of the general loop of [draw_line]; the state is
    [(x1, y1, err)]. *)
Definition draw_line_body (dx dy sx sy : Z) (s : Z * Z * Z) : Z * Z * Z * Draw :=
  let '(x1, y1, err) := s in
  let e2 := err in
  let '(err, x1') := if e2 >? - dx then (err - dy, x1 + sx) else (err, x1) in
  let '(err, y1') := if e2 <? dy then (err + dx, y1 + sy) else (err, y1) in
  (x1', y1', err, set_at_ x1 y1).

Definition draw_line_cond (x2 y2 : Z) (s : Z * Z * Z) : bool :=
  let '(x1, y1, _) := s in negb (x1 =? x2) || negb (y1 =? y2).

Definition draw_line_loop (x1 y1 x2 y2 : Z) : option Draw :=
  let dx := Z.abs (x2 - x1) in
  let sx := if x1 <? x2 then 1 else -1 in
  let dy := Z.abs (y2 - y1) in
  let sy := if y1 <? y2 then 1 else -1 in
  let err := Z.quot (if dx >? dy then dx else - dy) 2 in
  while_ (Z.to_nat (dx + dy)) (draw_line_cond x2 y2)
         (draw_line_body dx dy sx sy) (x1, y1, err).

Definition draw_line (x1 y1 x2 y2 : Z) : Draw :=
  if (x1 =? x2) && (y1 =? y2) then set_at_ x1 y1
  else if y1 =? y2 then
    let dx := if x1 <? x2 then 1 else -1 in
    for_Z 0 (Z.abs (x1 - x2) + 1) (λ sx, set_at_ (x1 + dx * sx) y1)
  else if x1 =? x2 then
    let dy := if y1 <? y2 then 1 else -1 in
    for_Z 0 (Z.abs (y1 - y2) + 1) (λ sy, set_at_ x1 (y1 + dy * sy))
  else
    default [] (draw_line_loop x1 y1 x2 y2) ++ set_at_ x2 y2.

(** ** ThickLineRaster: [draw_line_width]

    [pts] is the array [{x0, y0, x1, y1}]; the function overwrites it, and
    every caller refills it before the next use. *)
Definition draw_line_width (width : Z) (pts : Z * Z * Z * Z) : Draw :=
  let '(p0, p1, p2, p3) := pts in
  let '(xinc, yinc) :=
    if Z.abs (p0 - p2) >? Z.abs (p1 - p3) then (0, 1) else (1, 0) in
  draw_line p0 p1 p2 p3 ++
  if negb (width =? 1) then
    for_Z_step2 1 width (λ loop,
      draw_line (p0 + xinc * (Z.quot loop 2 + 1)) (p1 + yinc * (Z.quot loop 2 + 1))
                (p2 + xinc * (Z.quot loop 2 + 1)) (p3 + yinc * (Z.quot loop 2 + 1)) ++
      if loop + 1 <? width then
        draw_line (p0 - xinc * (Z.quot loop 2 + 1)) (p1 - yinc * (Z.quot loop 2 + 1))
                  (p2 - xinc * (Z.quot loop 2 + 1)) (p3 - yinc * (Z.quot loop 2 + 1))
      else [])
  else [].

(** ** CircleRaster *)

(** The Bresenham driver shared by the three circle rasterisers; the state
    is [(f, ddF_x, ddF_y, x, y)]. *)
Definition circle_state : Type := Z * Z * Z * Z * Z.

Definition circle_cond (s : circle_state) : bool :=
  let '(f, ddF_x, ddF_y, x, y) := s in x <? y.

Definition circle_step (s : circle_state) : circle_state :=
  let '(f, ddF_x, ddF_y, x, y) := s in
  let '(y, ddF_y, f) :=
    if f >=? 0 then (y - 1, ddF_y + 2, f + (ddF_y + 2)) else (y, ddF_y, f) in
  let x := x + 1 in
  let ddF_x := ddF_x + 2 in
  let f := f + (ddF_x + 1) in
  (f, ddF_x, ddF_y, x, y).

Definition circle_init (radius : Z) : circle_state :=
  (1 - radius, 0, -2 * radius, 0, radius).

(** The two loops of vertical spans [draw_circle_filled] runs at a driver
    position. *)
Definition draw_circle_filled_spans (x0 y0 : Z) (s : circle_state) : Draw :=
  let '(f, ddF_x, ddF_y, x, y) := s in
  for_Z (y0 - x) (y0 + x) (λ y1,
    set_at_ (x0 + y - 1) y1 ++       (* 1 to 8 *)
    set_at_ (x0 - y) y1) ++          (* 4 to 5 *)
  for_Z (y0 - y) (y0 + y) (λ y1,
    set_at_ (x0 + x - 1) y1 ++       (* 2 to 7 *)
    set_at_ (x0 - x) y1).            (* 3 to 6 *)

Definition draw_circle_filled_body (x0 y0 : Z) (s : circle_state)
    : circle_state * Draw :=
  let s' := circle_step s in
  (s', draw_circle_filled_spans x0 y0 s').

Definition draw_circle_filled (x0 y0 radius : Z) : Draw :=
  default [] (while_ (Z.to_nat radius) circle_cond
                     (draw_circle_filled_body x0 y0) (circle_init radius)).

(** The inner driver of the outline rasterisers runs in lock step with the
    outer one; its state is [(i_y, i_f, i_ddF_x, i_ddF_y)], followed by the
    current [thickness]. *)
Definition outline_state : Type := circle_state * (Z * Z * Z * Z) * Z.

Definition outline_cond (s : outline_state) : bool := circle_cond s.1.1.

Definition outline_step (s : outline_state) : outline_state :=
  let '(c, (i_y, i_f, i_ddF_x, i_ddF_y), thickness) := s in
  let '(f, ddF_x, ddF_y, x, y) := circle_step c in
  let '(i_y, i_ddF_y, i_f) :=
    if i_f >=? 0 then (i_y - 1, i_ddF_y + 2, i_f + (i_ddF_y + 2))
    else (i_y, i_ddF_y, i_f) in
  let i_ddF_x := i_ddF_x + 2 in
  let i_f := i_f + (i_ddF_x + 1) in
  let thickness := if thickness >? 1 then y - i_y else thickness in
  ((f, ddF_x, ddF_y, x, y), (i_y, i_f, i_ddF_x, i_ddF_y), thickness).

Definition outline_init (radius thickness : Z) : outline_state :=
  let i_y := radius - thickness in
  (circle_init radius, (i_y, 1 - i_y, 0, -2 * i_y), thickness).

(** The [for (i = 0; i < thickness; i++)] loop [draw_circle_bresenham] runs
    at a driver position. *)
Definition draw_circle_bresenham_arcs (x0 y0 : Z) (s : outline_state) : Draw :=
  let '((f, ddF_x, ddF_y, x, y), _, thickness) := s in
  for_Z 0 thickness (λ i,
    let y1 := y - i in
    (if (y0 + y1 - 1) >=? (y0 + x - 1) then
       set_at_ (x0 + x - 1) (y0 + y1 - 1) ++   (* 7 *)
       set_at_ (x0 - x) (y0 + y1 - 1)          (* 6 *)
     else []) ++
    (if (y0 - y1) <=? (y0 - x) then
       set_at_ (x0 + x - 1) (y0 - y1) ++       (* 2 *)
       set_at_ (x0 - x) (y0 - y1)              (* 3 *)
     else []) ++
    (if (x0 + y1 - 1) >=? (x0 + x - 1) then
       set_at_ (x0 + y1 - 1) (y0 + x - 1) ++   (* 8 *)
       set_at_ (x0 + y1 - 1) (y0 - x)          (* 1 *)
     else []) ++
    (if (x0 - y1) <=? (x0 - x) then
       set_at_ (x0 - y1) (y0 + x - 1) ++       (* 5 *)
       set_at_ (x0 - y1) (y0 - x)              (* 4 *)
     else [])).

Definition draw_circle_bresenham_body (x0 y0 : Z) (s : outline_state)
    : outline_state * Draw :=
  let s' := outline_step s in
  (s', draw_circle_bresenham_arcs x0 y0 s').

Definition draw_circle_bresenham (x0 y0 radius thickness : Z) : Draw :=
  default [] (while_ (Z.to_nat radius) outline_cond
                     (draw_circle_bresenham_body x0 y0)
                     (outline_init radius thickness)).

(** [draw_circle_quadrant]; the flags are C [int]s tested with [> 0]. *)
Definition draw_circle_quadrant_body (x0 y0 : Z)
    (top_right top_left bottom_left bottom_right : Z) (s : outline_state)
    : outline_state * Draw :=
  let s' := outline_step s in
  let '((f, ddF_x, ddF_y, x, y), _, thickness) := s' in
  (s',
   (if top_right >? 0 then
      for_Z 0 thickness (λ i,
        let y1 := y - i in
        (if (y0 - y1) <? (y0 - x) then set_at_ (x0 + x - 1) (y0 - y1) else []) ++   (* 2 *)
        (if (x0 + y1 - 1) >=? (x0 + x - 1) then set_at_ (x0 + y1 - 1) (y0 - x) else []))  (* 1 *)
    else []) ++
   (if top_left >? 0 then
      for_Z 0 thickness (λ i,
        let y1 := y - i in
        (if (y0 - y1) <=? (y0 - x) then set_at_ (x0 - x) (y0 - y1) else []) ++      (* 3 *)
        (if (x0 - y1) <? (x0 - x) then set_at_ (x0 - y1) (y0 - x) else []))         (* 4 *)
    else []) ++
   (if bottom_left >? 0 then
      for_Z 0 thickness (λ i,
        let y1 := y - i in
        (if (x0 - y1) <=? (x0 - x) then set_at_ (x0 - y1) (y0 + x - 1) else []) ++  (* 5 *)
        (if (y0 + y1 - 1) >? (y0 + x - 1) then set_at_ (x0 - x) (y0 + y1 - 1) else []))  (* 6 *)
    else []) ++
   (if bottom_right >? 0 then
      for_Z 0 thickness (λ i,
        let y1 := y - i in
        (if (y0 + y1 - 1) >=? (y0 + x - 1) then set_at_ (x0 + x - 1) (y0 + y1 - 1) else []) ++  (* 7 *)
        (if (x0 + y1 - 1) >? (x0 + x - 1) then set_at_ (x0 + y1 - 1) (y0 + x - 1) else []))     (* 8 *)
    else [])).

Definition draw_circle_quadrant_solid_body (x0 y0 : Z)
    (top_right top_left bottom_left bottom_right : Z) (s : circle_state)
    : circle_state * Draw :=
  let '(f, ddF_x, ddF_y, x, y) := circle_step s in
  ((f, ddF_x, ddF_y, x, y),
   (if top_right >? 0 then
      for_Z (y0 - x) (y0 + 1) (λ y1, set_at_ (x0 + y - 1) y1) ++   (* 1 *)
      for_Z (y0 - y) (y0 + 1) (λ y1, set_at_ (x0 + x - 1) y1)      (* 2 *)
    else []) ++
   (if top_left >? 0 then
      for_Z (y0 - x) (y0 + 1) (λ y1, set_at_ (x0 - y) y1) ++       (* 4 *)
      for_Z (y0 - y) (y0 + 1) (λ y1, set_at_ (x0 - x) y1)          (* 3 *)
    else []) ++
   (if bottom_left >? 0 then
      for_Z y0 (y0 + x) (λ y1, set_at_ (x0 - y) y1) ++             (* 4 *)
      for_Z y0 (y0 + y) (λ y1, set_at_ (x0 - x) y1)                (* 3 *)
    else []) ++
   (if bottom_right >? 0 then
      for_Z y0 (y0 + x) (λ y1, set_at_ (x0 + y - 1) y1) ++         (* 1 *)
      for_Z y0 (y0 + y) (λ y1, set_at_ (x0 + x - 1) y1)            (* 2 *)
    else [])).

Definition draw_circle_quadrant (x0 y0 radius thickness : Z)
    (top_right top_left bottom_left bottom_right : Z) : Draw :=
  if radius =? 1 then
    (if top_right >? 0 then set_at_ x0 (y0 - 1) else []) ++
    (if top_left >? 0 then set_at_ (x0 - 1) (y0 - 1) else []) ++
    (if bottom_left >? 0 then set_at_ (x0 - 1) y0 else []) ++
    (if bottom_right >? 0 then set_at_ x0 y0 else [])
  else if negb (thickness =? 0) then
    default [] (while_ (Z.to_nat radius) outline_cond
                  (draw_circle_quadrant_body x0 y0 top_right top_left
                                             bottom_left bottom_right)
                  (outline_init radius thickness))
  else
    default [] (while_ (Z.to_nat radius) circle_cond
                  (draw_circle_quadrant_solid_body x0 y0 top_right top_left
                                                   bottom_left bottom_right)
                  (circle_init radius)).

(** ** EllipseRaster *)

(** The state of the two loops of [draw_ellipse]:
    [(ix, iy, (oh, oi, oj, ok), (h, i))], where [h] and [i] are the values
    the loop test [i > h] reads. *)
Definition ellipse_state : Type := Z * Z * (Z * Z * Z * Z) * (Z * Z).

Definition ellipse_cond (s : ellipse_state) : bool :=
  let '(_, _, _, (h, i)) := s in i >? h.

(** The loop body of the branch [rx >= ry]. *)
Definition draw_ellipse_body_wide (x y rx ry xoff yoff solid : Z)
    (s : ellipse_state) : ellipse_state * Draw :=
  let '(ix, iy, (oh, oi, oj, ok), _) := s in
  let h := Z.shiftr (ix + 8) 6 in
  let i := Z.shiftr (iy + 8) 6 in
  let j := Z.quot (h * ry) rx in
  let k := Z.quot (i * ry) rx in
  let '(ok, ops1) :=
    if (negb (ok =? k) && negb (oj =? k) && (k <? ry)) || (solid =? 0) then
      (k,
       if negb (solid =? 0) then
         draw_line (x - h) (y - k - yoff) (x + h - xoff) (y - k - yoff) ++
         draw_line (x - h) (y + k) (x + h - xoff) (y + k)
       else
         set_at_ (x - h) (y - k - yoff) ++
         set_at_ (x + h - xoff) (y - k - yoff) ++
         set_at_ (x - h) (y + k) ++
         set_at_ (x + h - xoff) (y + k))
    else (ok, []) in
  let '(oj, ops2) :=
    if (negb (oj =? j) && negb (ok =? j) && negb (k =? j)) || (solid =? 0) then
      (j,
       if negb (solid =? 0) then
         draw_line (x - i) (y + j) (x + i - xoff) (y + j) ++
         draw_line (x - i) (y - j - yoff) (x + i - xoff) (y - j - yoff)
       else
         set_at_ (x - i) (y + j) ++
         set_at_ (x + i - xoff) (y + j) ++
         set_at_ (x - i) (y - j - yoff) ++
         set_at_ (x + i - xoff) (y - j - yoff))
    else (oj, []) in
  let ix := ix + Z.quot iy rx in
  let iy := iy - Z.quot ix rx in
  ((ix, iy, (oh, oi, oj, ok), (h, i)), ops1 ++ ops2).

(** The loop body of the branch [rx < ry]. *)
Definition draw_ellipse_body_tall (x y rx ry xoff yoff solid : Z)
    (s : ellipse_state) : ellipse_state * Draw :=
  let '(ix, iy, (oh, oi, oj, ok), _) := s in
  let h := Z.shiftr (ix + 8) 6 in
  let i := Z.shiftr (iy + 8) 6 in
  let j := Z.quot (h * rx) ry in
  let k := Z.quot (i * rx) ry in
  let '(oi, ops1) :=
    if (negb (oi =? i) && negb (oh =? i) && (i <? ry)) || (solid =? 0) then
      (i,
       if negb (solid =? 0) then
         draw_line (x - j) (y + i) (x + j - xoff) (y + i) ++
         draw_line (x - j) (y - i - yoff) (x + j - xoff) (y - i - yoff)
       else
         set_at_ (x - j) (y + i) ++
         set_at_ (x + j - xoff) (y + i) ++
         set_at_ (x - j) (y - i - yoff) ++
         set_at_ (x + j - xoff) (y - i - yoff))
    else (oi, []) in
  let '(oh, ops2) :=
    if (negb (oh =? h) && negb (oi =? h) && negb (i =? h)) || (solid =? 0) then
      (h,
       if negb (solid =? 0) then
         draw_line (x - k) (y + h) (x + k - xoff) (y + h) ++
         draw_line (x - k) (y - h - yoff) (x + k - xoff) (y - h - yoff)
       else
         set_at_ (x - k) (y + h) ++
         set_at_ (x + k - xoff) (y + h) ++
         set_at_ (x - k) (y - h - yoff) ++
         set_at_ (x + k - xoff) (y - h - yoff))
    else (oh, []) in
  let ix := ix + Z.quot iy ry in
  let iy := iy - Z.quot ix ry in
  ((ix, iy, (oh, oi, oj, ok), (h, i)), ops1 ++ ops2).

Definition ellipse_fuel (r : Z) : nat := Z.to_nat (2 * r + 4).

(** The part of [draw_ellipse] below the comment "Init vars": the
    rasterisation proper, for half-extents [rx] and [ry]. *)
Definition draw_ellipse_raster (x y rx ry xoff yoff solid : Z) : Draw :=
  let o := 65535 (* 0xFFFF *) in
  if rx >=? ry then
    default [] (do_while (ellipse_fuel rx) ellipse_cond
                  (draw_ellipse_body_wide x y rx ry xoff yoff solid)
                  (0, rx * 64, (o, o, o, o), (0, 0)))
  else
    default [] (do_while (ellipse_fuel ry) ellipse_cond
                  (draw_ellipse_body_tall x y rx ry xoff yoff solid)
                  (0, ry * 64, (o, o, o, o), (0, 0))).

Definition draw_ellipse (x y width height solid : Z) : Draw :=
  let xoff := Z.lxor (Z.land width 1) 1 in
  let yoff := Z.lxor (Z.land height 1) 1 in
  let rx := Z.shiftr width 1 in
  let ry := Z.shiftr height 1 in
  if (rx =? 0) && (ry =? 0) then
    (* Special case: draw a single pixel *)
    set_at_ x y
  else if rx =? 0 then
    (* Special case: draw a vertical line *)
    draw_line x (Sint16 (y - ry)) x (Sint16 (y + ry + Z.land height 1))
  else if ry =? 0 then
    (* Special case: draw a horizontal line *)
    draw_line (Sint16 (x - rx)) y (Sint16 (x + rx + Z.land width 1)) y
  else
    (* Adjust ry for the rest of the ellipses (non-special cases). *)
    let ry := ry + (Z.land solid 1 - yoff) in
    draw_ellipse_raster x y rx ry xoff yoff solid.

(** ** PolygonFill *)

(** [a[i]] for a C array held in a list (0 outside the list). *)
Definition at_ (a : list Z) (i : Z) : Z := nth (Z.to_nat i) a 0.

(** The x-coordinates [draw_fillpoly] stores into [x_intersect] for the
    scanline [y], in the order of the edge loop. *)
Definition scanline_intersections (point_x point_y : list Z)
    (num_points maxy y : Z) : list Z :=
  for_Z 0 num_points (λ i,
    let i_previous := if negb (i =? 0) then i - 1 else num_points - 1 in
    let y1 := at_ point_y i_previous in
    let y2 := at_ point_y i in
    if (y1 <? y2) || (y1 >? y2) then
      let '(x1, y1, x2, y2) :=
        if y1 <? y2 then (at_ point_x i_previous, y1, at_ point_x i, y2)
        else (at_ point_x i, at_ point_y i,
              at_ point_x i_previous, at_ point_y i_previous) in
      if ((y >=? y1) && (y <? y2)) || ((y =? maxy) && (y2 =? maxy)) then
        [Z.quot ((y - y1) * (x2 - x1)) (y2 - y1) + x1]
      else []
    else []).

(** [draw_fillpoly] once the scratch array [x_intersect] is allocated.
    [qsort] with [compare_int] sorts ascending.  The pairing loop reads
    [x_intersect[i + 1]]; every scanline of a closed polygon has an even
    number of intersections, so the index stays among the values just
    stored. *)
Definition draw_fillpoly_raster (point_x point_y : list Z) (num_points : Z)
    : Draw :=
  let miny := foldl (λ m i, MIN m (at_ point_y i)) (at_ point_y 0)
                    (seqZ 1 (num_points - 1)) in
  let maxy := foldl (λ m i, MAX m (at_ point_y i)) (at_ point_y 0)
                    (seqZ 1 (num_points - 1)) in
  if miny =? maxy then
    (* Special case: polygon only 1 pixel high. *)
    let minx := foldl (λ m i, MIN m (at_ point_x i)) (at_ point_x 0)
                      (seqZ 1 (num_points - 1)) in
    let maxx := foldl (λ m i, MAX m (at_ point_x i)) (at_ point_x 0)
                      (seqZ 1 (num_points - 1)) in
    draw_line minx miny maxx miny
  else
    for_Z miny (maxy + 1) (λ y,
      let x_intersect :=
        merge_sort Z.le
          (scanline_intersections point_x point_y num_points maxy y) in
      let n_intersections := Z.of_nat (length x_intersect) in
      for_Z_step2 0 n_intersections (λ i,
        draw_line (at_ x_intersect i) y (at_ x_intersect (i + 1)) y)) ++
    for_Z 0 num_points (λ i,
      let i_previous := if negb (i =? 0) then i - 1 else num_points - 1 in
      let y := at_ point_y i in
      if (miny <? y) && (at_ point_y i_previous =? y) && (y <? maxy) then
        draw_line (at_ point_x i) y (at_ point_x i_previous) y
      else []).

(** ** AALineRaster *)

Definition draw_aaline_pixel (steep : bool) (x : Z) (intersect_y to_y : F32.t)
    (last : bool) (from_y : F32.t) : Draw :=
  let iy := int_of_float intersect_y in
  let plot (a b : Z) (brightness : F32.t) : Draw :=
    if steep then [PlotAA b a brightness] else [PlotAA a b brightness] in
  plot x iy (F32.add (F32.sub (F32.of_int 1) intersect_y) (F32.of_int iy)) ++
  if F32.ltb (F32.of_int iy) to_y || (last && negb (F32.eqb from_y to_y)) then
    plot x (iy + 1) (F32.sub intersect_y (F32.of_int iy))
  else [].

Fixpoint draw_aaline_loop (steep : bool) (xs : list Z) (x_pixel_end : Z)
    (intersect_y gradient from_y to_y : F32.t) : Draw :=
  match xs with
  | [] => []
  | x :: xs' =>
      draw_aaline_pixel steep x intersect_y to_y (x =? x_pixel_end) from_y ++
      draw_aaline_loop steep xs' x_pixel_end (F32.add intersect_y gradient)
                       gradient from_y to_y
  end.

Definition draw_aaline (from_x from_y to_x to_y : F32.t) : Draw :=
  let zero := F32.of_int 0 in
  let fabs_ (d : F32.t) := if F32.ltb d zero then F32.neg d else d in
  let steep := F32.ltb (fabs_ (F32.sub to_x from_x))
                       (fabs_ (F32.sub to_y from_y)) in
  let '(from_x, from_y, to_x, to_y) :=
    if steep then (from_y, from_x, to_y, to_x)
    else (from_x, from_y, to_x, to_y) in
  let '(from_x, from_y, to_x, to_y) :=
    if F32.ltb to_x from_x then (to_x, to_y, from_x, from_y)
    else (from_x, from_y, to_x, to_y) in
  let dx := F32.sub to_x from_x in
  let dy := F32.sub to_y from_y in
  let x_pixel_start := int_of_float from_x in
  let x_pixel_end := int_of_float to_x in
  let gradient := if F32.eqb dx zero then F32.of_int 1 else F32.div dy dx in
  let intersect_y :=
    F32.add from_y
      (F32.mul gradient
         (F32.sub (F32.add (F32.of_int (int_of_float from_x)) F32.half)
                  from_x)) in
  draw_aaline_loop steep (seqZ x_pixel_start (x_pixel_end + 1 - x_pixel_start))
                   x_pixel_end intersect_y gradient from_y to_y.

(** ** ArcRaster

    The loop variable of [draw_arc] is a [double]; nothing bounds the number
    of its iterations, so the model takes the fuel from its caller. *)
Section Arc.
Context `{Libm}.

Definition draw_arc_body (x y radius1 radius2 : Z) (aStep : F64.t)
    (s : F64.t * Z * Z) : F64.t * Z * Z * Draw :=
  let '(a, x_last, y_last) := s in
  let x_next :=
    int_of_float (F64.add (F64.of_int x) (F64.mul (cos a) (F64.of_int radius1))) in
  let y_next :=
    int_of_float (F64.sub (F64.of_int y) (F64.mul (sin a) (F64.of_int radius2))) in
  (F64.add a aStep, x_next, y_next, draw_line x_last y_last x_next y_next).

Definition draw_arc (fuel : nat) (x y radius1 radius2 : Z)
    (angle_start angle_stop : F64.t) : option Draw :=
  let step_of (r : Z) :=
    if F64.ltb (F64.of_int r) F64.lit_1e_4 then F64.of_int 1
    else asin (F64.div (F64.of_int 2) (F64.of_int r)) in
  let aStep := if radius1 <? radius2 then step_of radius1 else step_of radius2 in
  let aStep := if F64.ltb aStep F64.lit_0_05 then F64.lit_0_05 else aStep in
  let x_last :=
    int_of_float (F64.add (F64.of_int x)
                    (F64.mul (cos angle_start) (F64.of_int radius1))) in
  let y_last :=
    int_of_float (F64.sub (F64.of_int y)
                    (F64.mul (sin angle_start) (F64.of_int radius2))) in
  while_ fuel (λ '(a, _, _), F64.leb a angle_stop)
         (draw_arc_body x y radius1 radius2 aStep)
         (F64.add angle_start aStep, x_last, y_last).

End Arc.

(** ** The Python-facing layer

    What a call can observe and change: the surface behind [surfobj], the
    scratch blocks obtained from [PyMem_New] and not yet released, the
    outcome of the coming allocation requests and of the lock and unlock
    requests, and the interpreter's error indicator.  [stored] is a history
    variable: the pixels stored so far, in order. *)

Inductive exn :=
| TypeError (msg : string)
| ValueError (msg : string)
| MemoryError (msg : string)
| RuntimeError (msg : string).

(** What a primitive hands back: a rectangle, or [NULL] with an exception
    set. *)
Inductive result :=
| Return (r : SDL_Rect)
| Raise (e : exn).

Record world := mkWorld {
  surface : SDL_Surface;
  stored : list (Z * Z);
  live : gset nat;
  next_block : nat;
  alloc_plan : list bool;
  lock_ok : bool;
  unlock_ok : bool;
  error_indicator : option exn
}.

(** A computation of the layer either goes on with a value ([inl]) or makes
    the enclosing C function return ([inr]). *)
Definition API (A : Type) : Type := world → (A + result) * world.

Definition ret {A} (a : A) : API A := λ w, (inl a, w).
Definition return_ {A} (r : result) : API A := λ w, (inr r, w).
Definition bind {A B} (m : API A) (k : A → API B) : API B :=
  λ w, match m w with
       | (inl a, w') => k a w'
       | (inr r, w') => (inr r, w')
       end.

Notation "'let*' x := m 'in' k" := (bind m (λ x, k))
  (at level 10, x name, m at level 100, k at level 200).
Notation "'let*' ' p := m 'in' k" := (bind m (λ p, k))
  (at level 10, p strict pattern, m at level 100, k at level 200).
Notation "'do' m 'then' k" := (bind m (λ _, k))
  (at level 10, m at level 100, k at level 200).

(** The outcome of a whole call. *)
Definition call (m : API result) (w : world) : result * world :=
  match m w with
  | (inl r, w') => (r, w')
  | (inr r, w') => (r, w')
  end.

(** [if (cond) return r;] *)
Definition return_if (cond : bool) (r : result) : API unit :=
  if cond then return_ r else ret tt.

Definition get_surface : API SDL_Surface := λ w, (inl (surface w), w).

Definition PyMem_New : API (option nat) := λ w,
  match alloc_plan w with
  | false :: plan =>
      (inl None,
       mkWorld (surface w) (stored w) (live w) (next_block w) plan
               (lock_ok w) (unlock_ok w) (error_indicator w))
  | plan =>
      (inl (Some (next_block w)),
       mkWorld (surface w) (stored w) ({[next_block w]} ∪ live w)
               (S (next_block w)) (tail plan)
               (lock_ok w) (unlock_ok w) (error_indicator w))
  end.

(** [PyMem_Del] and [PyMem_Free]; releasing [NULL] does nothing. *)
Definition PyMem_Del (p : option nat) : API unit := λ w,
  match p with
  | None => (inl tt, w)
  | Some b =>
      (inl tt,
       mkWorld (surface w) (stored w) (live w ∖ {[b]}) (next_block w)
               (alloc_plan w) (lock_ok w) (unlock_ok w) (error_indicator w))
  end.

Definition PyErr_NoMemory : API unit := λ w,
  (inl tt,
   mkWorld (surface w) (stored w) (live w) (next_block w) (alloc_plan w)
           (lock_ok w) (unlock_ok w) (Some (MemoryError ""))).

Definition pgSurface_Lock : API bool := λ w, (inl (lock_ok w), w).
Definition pgSurface_Unlock : API bool := λ w, (inl (unlock_ok w), w).

Section Primitives.
Context `{SDL_API}.

(** Handing [ops] to the pixel writer with the call's [color] and
    [drawn_area]. *)
Definition paint (color blend : Z) (ops : Draw) (area : drawn_area)
    : API drawn_area := λ w,
  let '(surf', area') := run color blend ops (surface w, area) in
  (inl area',
   mkWorld surf' (stored w ++ written (surface w) ops) (live w) (next_block w)
           (alloc_plan w) (lock_ok w) (unlock_ok w) (error_indicator w)).

(** [draw_fillpoly], with its scratch array. *)
Definition draw_fillpoly (color : Z) (point_x point_y : list Z)
    (num_points : Z) (area : drawn_area) : API drawn_area :=
  let* x_intersect := PyMem_New in
  match x_intersect with
  | None => do PyErr_NoMemory then ret area
  | Some _ =>
      let* area := paint color 0
                     (draw_fillpoly_raster point_x point_y num_points) area in
      do PyMem_Del x_intersect then
      ret area
  end.

(** ** RoundRectRaster *)

Definition fMIN (a b : F32.t) : F32.t := if F32.ltb a b then a else b.

(** The per-corner radii [draw_round_rect] works with, in the order
    [(top_left, top_right, bottom_left, bottom_right)]. *)
Definition round_rect_radii (x1 y1 x2 y2 radius : Z)
    (top_left top_right bottom_left bottom_right : Z) : Z * Z * Z * Z :=
  let top_left := if top_left <? 0 then radius else top_left in
  let top_right := if top_right <? 0 then radius else top_right in
  let bottom_left := if bottom_left <? 0 then radius else bottom_left in
  let bottom_right := if bottom_right <? 0 then radius else bottom_right in
  if (top_left + top_right >? x2 - x1 + 1) ||
     (bottom_left + bottom_right >? x2 - x1 + 1) ||
     (top_left + bottom_left >? y2 - y1 + 1) ||
     (top_right + bottom_right >? y2 - y1 + 1) then
    let q_top := F32.div (F32.of_int (x2 - x1 + 1))
                         (F32.of_int (top_left + top_right)) in
    let q_left := F32.div (F32.of_int (y2 - y1 + 1))
                          (F32.of_int (top_left + bottom_left)) in
    let q_bottom := F32.div (F32.of_int (x2 - x1 + 1))
                            (F32.of_int (bottom_left + bottom_right)) in
    let q_right := F32.div (F32.of_int (y2 - y1 + 1))
                           (F32.of_int (top_right + bottom_right)) in
    let f := fMIN (fMIN (fMIN q_top q_left) q_bottom) q_right in
    (int_of_float (F32.mul (F32.of_int top_left) f),
     int_of_float (F32.mul (F32.of_int top_right) f),
     int_of_float (F32.mul (F32.of_int bottom_left) f),
     int_of_float (F32.mul (F32.of_int bottom_right) f))
  else (top_left, top_right, bottom_left, bottom_right).

(** One side of the stroked rounded rectangle: the gap filler when the side
    has shrunk to a point, the thick line otherwise. *)
Definition round_rect_side (same : bool) (width : Z) (gap : Z → Draw)
    (pts : Z * Z * Z * Z) : Draw :=
  if same then for_Z 0 width gap else draw_line_width width pts.

Definition draw_round_rect (color : Z) (x1 y1 x2 y2 radius width : Z)
    (top_left top_right bottom_left bottom_right : Z) (area : drawn_area)
    : API drawn_area :=
  let '(top_left, top_right, bottom_left, bottom_right) :=
    round_rect_radii x1 y1 x2 y2 radius top_left top_right bottom_left
                     bottom_right in
  if width =? 0 then (* Filled rect *)
    let pts_x := [x1; x1 + top_left; x2 - top_right; x2;
                  x2; x2 - bottom_right; x1 + bottom_left; x1] in
    let pts_y := [y1 + top_left; y1; y1; y1 + top_right;
                  y2 - bottom_right; y2; y2; y2 - bottom_left] in
    let* area := draw_fillpoly color pts_x pts_y 8 area in
    paint color 0
      (draw_circle_quadrant (x2 - top_right + 1) (y1 + top_right) top_right 0
                            1 0 0 0 ++
       draw_circle_quadrant (x1 + top_left) (y1 + top_left) top_left 0
                            0 1 0 0 ++
       draw_circle_quadrant (x1 + bottom_left) (y2 - bottom_left + 1)
                            bottom_left 0 0 0 1 0 ++
       draw_circle_quadrant (x2 - bottom_right + 1) (y2 - bottom_right + 1)
                            bottom_right 0 0 0 0 1)
      area
  else
    let half_up := Z.quot width 2 - 1 + Z.rem width 2 in
    let half := Z.quot width 2 in
    paint color 0
      ((* Top line *)
       round_rect_side (x2 - top_right =? x1 + top_left) width
         (λ i, set_at_ (x1 + top_left) (y1 + i))
         (x1 + top_left, y1 + half_up, x2 - top_right, y1 + half_up) ++
       (* Left line *)
       round_rect_side (y2 - bottom_left =? y1 + top_left) width
         (λ i, set_at_ (x1 + i) (y1 + top_left))
         (x1 + half_up, y1 + top_left, x1 + half_up, y2 - bottom_left) ++
       (* Bottom line *)
       round_rect_side (x2 - bottom_right =? x1 + bottom_left) width
         (λ i, set_at_ (x1 + bottom_left) (y2 - i))
         (x1 + bottom_left, y2 - half, x2 - bottom_right, y2 - half) ++
       (* Right line *)
       round_rect_side (y2 - bottom_right =? y1 + top_right) width
         (λ i, set_at_ (x2 - i) (y1 + top_right))
         (x2 - half, y1 + top_right, x2 - half, y2 - bottom_right) ++
       draw_circle_quadrant (x2 - top_right + 1) (y1 + top_right) top_right
                            width 1 0 0 0 ++
       draw_circle_quadrant (x1 + top_left) (y1 + top_left) top_left
                            width 0 1 0 0 ++
       draw_circle_quadrant (x1 + bottom_left) (y2 - bottom_left + 1)
                            bottom_left width 0 0 1 0 ++
       draw_circle_quadrant (x2 - bottom_right + 1) (y2 - bottom_right + 1)
                            bottom_right width 0 0 0 1)
      area.

End Primitives.

(** ** PrimitiveAPI

    The arguments [PyArg_ParseTupleAndKeywords] converts itself ([int],
    [double]) are taken as parsed.  An argument that draw.c converts by hand
    is given by the outcome of that conversion: a colour object is a Python
    integer, an RGBA colour, or neither; a position is [Some] pair when
    [pg_TwoIntsFromObj] (or [pg_TwoFloatsFromObj]) succeeds; a point list is
    [None] when [PySequence_Check] fails and otherwise the list of its items,
    each converting or not; [closedobj] is [None] when [PyObject_IsTrue]
    returns -1. *)

Inductive PyColor :=
| ColorInt (v : Z)
| ColorRGBA (r g b a : Z)
| ColorInvalid.

Global Instance PyColor_eq_dec : EqDecision PyColor.
Proof. solve_decision. Defined.

Section PrimitiveAPI.
Context `{SDL_API} `{Libm}.

Definition check_depth (surf : SDL_Surface) : API unit :=
  return_if ((BytesPerPixel (format surf) <=? 0) ||
             (BytesPerPixel (format surf) >? 4))
            (Raise (ValueError "unsupported surface bit depth for drawing")).

Definition CHECK_LOAD_COLOR (surf : SDL_Surface) (colorobj : PyColor) : API Z :=
  match colorobj with
  | ColorInt v => ret (Uint32 v)
  | ColorRGBA r g b a => ret (SDL_MapRGBA (format surf) r g b a)
  | ColorInvalid => return_ (Raise (TypeError "invalid color argument"))
  end.

Definition from_obj {A} (o : option A) (e : exn) : API A :=
  match o with
  | Some a => ret a
  | None => return_ (Raise e)
  end.

Definition lock_or_raise : API unit :=
  let* ok := pgSurface_Lock in
  return_if (negb ok) (Raise (RuntimeError "error locking surface")).

Definition unlock_or_raise : API unit :=
  let* ok := pgSurface_Unlock in
  return_if (negb ok) (Raise (RuntimeError "error unlocking surface")).

Definition aaline (colorobj : PyColor) (start end_ : option (F32.t * F32.t))
    (blend : Z) : API result :=
  let* surf := get_surface in
  do check_depth surf then
  let* color := CHECK_LOAD_COLOR surf colorobj in
  let* '(startx, starty) := from_obj start (TypeError "invalid start_pos argument") in
  let* '(endx, endy) := from_obj end_ (TypeError "invalid end_pos argument") in
  do lock_or_raise then
  let* area := paint color blend (draw_aaline startx starty endx endy)
                     empty_area in
  do unlock_or_raise then
  return_ (Return (return_rect area (int_of_float startx, int_of_float starty))).

Definition line (colorobj : PyColor) (start end_ : option (Z * Z))
    (width : Z) : API result :=
  let* surf := get_surface in
  do check_depth surf then
  let* color := CHECK_LOAD_COLOR surf colorobj in
  let* '(startx, starty) := from_obj start (TypeError "invalid start_pos argument") in
  let* '(endx, endy) := from_obj end_ (TypeError "invalid end_pos argument") in
  do return_if (width <? 1) (Return (mkRect startx starty 0 0)) then
  do lock_or_raise then
  let* area := paint color 0 (draw_line_width width (startx, starty, endx, endy))
                     empty_area in
  do unlock_or_raise then
  return_ (Return (return_rect area (startx, starty))).

(** The segments [lines] and [aalines] draw: one per consecutive pair of
    points, then the closing one. *)
Definition segments {A} (seg : A → A → Draw) (closed : bool) (pts : list A)
    (d : A) : Draw :=
  let length := Z.of_nat (length pts) in
  for_Z 1 length (λ loop,
    seg (nth (Z.to_nat (loop - 1)) pts d) (nth (Z.to_nat loop) pts d)) ++
  if closed && (length >? 2) then
    seg (nth (Z.to_nat (length - 1)) pts d) (nth 0 pts d)
  else [].

Definition aalines (colorobj : PyColor) (closedobj : option bool)
    (points : option (list (option (F32.t * F32.t)))) (blend : Z)
    : API result :=
  let* surf := get_surface in
  do check_depth surf then
  let* color := CHECK_LOAD_COLOR surf colorobj in
  let* closed := from_obj closedobj (TypeError "closed argument is invalid") in
  let* items := from_obj points
    (TypeError "points argument must be a sequence of number pairs") in
  do return_if (Z.of_nat (length items) <? 2)
    (Raise (ValueError "points argument must contain 2 or more points")) then
  let* xlist := PyMem_New in
  let* ylist := PyMem_New in
  do return_if (bool_decide (xlist = None) || bool_decide (ylist = None))
    (Raise (MemoryError "cannot allocate memory to draw aalines")) then
  match mapM id items with
  | None =>
      do PyMem_Del xlist then
      do PyMem_Del ylist then
      return_ (Raise (TypeError "points must be number pairs"))
  | Some pts =>
      let zero := (F32.of_int 0, F32.of_int 0) in
      let '(x, y) := nth 0 pts zero in
      let l := int_of_float x in
      let t := int_of_float y in
      let* locked := pgSurface_Lock in
      if negb locked then
        do PyMem_Del xlist then
        do PyMem_Del ylist then
        return_ (Raise (RuntimeError "error locking surface"))
      else
        let* area :=
          paint color blend
            (segments (λ p q, draw_aaline p.1 p.2 q.1 q.2) closed pts zero)
            empty_area in
        do PyMem_Del xlist then
        do PyMem_Del ylist then
        do unlock_or_raise then
        return_ (Return (return_rect area (l, t)))
  end.

Definition lines (colorobj : PyColor) (closedobj : option bool)
    (points : option (list (option (Z * Z)))) (width : Z) : API result :=
  let* surf := get_surface in
  do check_depth surf then
  let* color := CHECK_LOAD_COLOR surf colorobj in
  let* closed := from_obj closedobj (TypeError "closed argument is invalid") in
  let* items := from_obj points
    (TypeError "points argument must be a sequence of number pairs") in
  do return_if (Z.of_nat (length items) <? 2)
    (Raise (ValueError "points argument must contain 2 or more points")) then
  let* xlist := PyMem_New in
  let* ylist := PyMem_New in
  do return_if (bool_decide (xlist = None) || bool_decide (ylist = None))
    (Raise (MemoryError "cannot allocate memory to draw lines")) then
  match mapM id items with
  | None =>
      do PyMem_Del xlist then
      do PyMem_Del ylist then
      return_ (Raise (TypeError "points must be number pairs"))
  | Some pts =>
      let '(x, y) := nth 0 pts (0, 0) in
      if width <? 1 then
        do PyMem_Del xlist then
        do PyMem_Del ylist then
        return_ (Return (mkRect x y 0 0))
      else
        let* locked := pgSurface_Lock in
        if negb locked then
          do PyMem_Del xlist then
          do PyMem_Del ylist then
          return_ (Raise (RuntimeError "error locking surface"))
        else
          let* area :=
            paint color 0
              (segments (λ p q, draw_line_width width (p.1, p.2, q.1, q.2))
                        closed pts (0, 0))
              empty_area in
          do PyMem_Del xlist then
          do PyMem_Del ylist then
          do unlock_or_raise then
          return_ (Return (return_rect area (x, y)))
  end.

(** The clamping of the stroke width shared by [arc], [ellipse] and [rect]. *)
Definition clamp_width (width : Z) (r : SDL_Rect) : Z :=
  if (width >? Z.quot (rect_w r) 2) || (width >? Z.quot (rect_h r) 2)
  then MAX (Z.quot (rect_w r) 2) (Z.quot (rect_h r) 2)
  else width.

(** [arc], up to and including the lock: the colour, the rectangle, the
    stroke width and the stop angle the drawing loop works with. *)
Definition arc_prologue (colorobj : PyColor) (rectobj : option SDL_Rect)
    (angle_start angle_stop : F64.t) (width : Z)
    : API (Z * SDL_Rect * Z * F64.t) :=
  let* r := from_obj rectobj (TypeError "rect argument is invalid") in
  let* surf := get_surface in
  do check_depth surf then
  let* color := CHECK_LOAD_COLOR surf colorobj in
  do return_if (width <? 0) (Return (mkRect (rect_x r) (rect_y r) 0 0)) then
  let width := clamp_width width r in
  let angle_stop :=
    if F64.ltb angle_stop angle_start
    then F64.add angle_stop (F64.mul (F64.of_int 2) F64.M_PI)
    else angle_stop in
  do lock_or_raise then
  let width := MIN width (Z.quot (MIN (rect_w r) (rect_h r)) 2) in
  ret (color, r, width, angle_stop).

(** The nested arcs, one per unit of stroke width. *)
Definition arc_loop (fuel : nat) (r : SDL_Rect) (width : Z)
    (angle_start angle_stop : F64.t) : option Draw :=
  (λ arcs, concat arcs) <$>
    mapM (λ loop,
            draw_arc fuel (rect_x r + Z.quot (rect_w r) 2)
                     (rect_y r + Z.quot (rect_h r) 2)
                     (Z.quot (rect_w r) 2 - loop) (Z.quot (rect_h r) 2 - loop)
                     angle_start angle_stop)
         (seqZ 0 width).

Definition arc_epilogue (color : Z) (r : SDL_Rect) (ops : Draw) : API result :=
  let* area := paint color 0 ops empty_area in
  do unlock_or_raise then
  return_ (Return (return_rect area (rect_x r, rect_y r))).

(** [arc]; [None] when a [draw_arc] loop is still running after [fuel]
    iterations. *)
Definition arc (fuel : nat) (colorobj : PyColor) (rectobj : option SDL_Rect)
    (angle_start angle_stop : F64.t) (width : Z) (w : world)
    : option (result * world) :=
  match arc_prologue colorobj rectobj angle_start angle_stop width w with
  | (inr res, w') => Some (res, w')
  | (inl (color, r, width, angle_stop), w') =>
      ops ← arc_loop fuel r width angle_start angle_stop;
      Some (call (arc_epilogue color r ops) w')
  end.

Definition ellipse (colorobj : PyColor) (rectobj : option SDL_Rect)
    (width : Z) : API result :=
  let* r := from_obj rectobj (TypeError "rect argument is invalid") in
  let* surf := get_surface in
  do check_depth surf then
  let* color := CHECK_LOAD_COLOR surf colorobj in
  do return_if (width <? 0) (Return (mkRect (rect_x r) (rect_y r) 0 0)) then
  let width := clamp_width width r in
  do lock_or_raise then
  let* area :=
    if width =? 0 then
      (* Draw a filled ellipse. *)
      paint color 0
        (draw_ellipse (rect_x r + Z.quot (rect_w r) 2)
                      (rect_y r + Z.quot (rect_h r) 2) (rect_w r) (rect_h r) 1)
        empty_area
    else
      let width := MIN width (Z.quot (MIN (rect_w r) (rect_h r)) 2) in
      paint color 0
        (for_Z 0 width (λ loop,
           draw_ellipse (rect_x r + Z.quot (rect_w r) 2)
                        (rect_y r + Z.quot (rect_h r) 2)
                        (rect_w r - loop) (rect_h r - loop) 0))
        empty_area in
  do unlock_or_raise then
  return_ (Return (return_rect area (rect_x r, rect_y r))).

Definition circle (colorobj : PyColor) (posobj : option (Z * Z))
    (radiusobj : option Z) (width : Z)
    (top_right top_left bottom_left bottom_right : Z) : API result :=
  let* '(posx, posy) := from_obj posobj
    (TypeError "center argument must be a pair of numbers") in
  let* radius := from_obj radiusobj
    (TypeError "radius argument must be a number") in
  let* surf := get_surface in
  do check_depth surf then
  let* color := CHECK_LOAD_COLOR surf colorobj in
  do return_if ((radius <? 1) || (width <? 0))
               (Return (mkRect posx posy 0 0)) then
  let width := if width >? radius then radius else width in
  do lock_or_raise then
  let* area :=
    if (top_right =? 0) && (top_left =? 0) && (bottom_left =? 0) &&
       (bottom_right =? 0) then
      if (width =? 0) || (width =? radius) then
        paint color 0 (draw_circle_filled posx posy radius) empty_area
      else
        paint color 0 (draw_circle_bresenham posx posy radius width) empty_area
    else
      paint color 0
        (draw_circle_quadrant posx posy radius width top_right top_left
                              bottom_left bottom_right)
        empty_area in
  do unlock_or_raise then
  return_ (Return (return_rect area (posx, posy))).

Definition polygon (colorobj : PyColor)
    (points : option (list (option (Z * Z)))) (width : Z) : API result :=
  if negb (width =? 0) then
    (* ret = lines(NULL, (surfobj, colorobj, 1, points, width), NULL) *)
    lines colorobj (Some true) points width
  else
    let* surf := get_surface in
    do check_depth surf then
    let* color := CHECK_LOAD_COLOR surf colorobj in
    let* items := from_obj points
      (TypeError "points argument must be a sequence of number pairs") in
    do return_if (Z.of_nat (length items) <? 3)
      (Raise (ValueError "points argument must contain more than 2 points")) then
    let* xlist := PyMem_New in
    let* ylist := PyMem_New in
    do return_if (bool_decide (xlist = None) || bool_decide (ylist = None))
      (Raise (MemoryError "cannot allocate memory to draw polygon")) then
    match mapM id items with
    | None =>
        do PyMem_Del xlist then
        do PyMem_Del ylist then
        return_ (Raise (TypeError "points must be number pairs"))
    | Some pts =>
        let '(l, t) := nth 0 pts (0, 0) in
        let* locked := pgSurface_Lock in
        if negb locked then
          do PyMem_Del xlist then
          do PyMem_Del ylist then
          return_ (Raise (RuntimeError "error locking surface"))
        else
          let* area := draw_fillpoly color pts.*1 pts.*2
                                     (Z.of_nat (length items)) empty_area in
          do PyMem_Del xlist then
          do PyMem_Del ylist then
          do unlock_or_raise then
          return_ (Return (return_rect area (l, t)))
    end.

Definition rect (colorobj : PyColor) (rectobj : option SDL_Rect)
    (width radius : Z)
    (top_left_radius top_right_radius bottom_left_radius
     bottom_right_radius : Z) : API result :=
  let* r := from_obj rectobj (TypeError "rect argument is invalid") in
  let* surf := get_surface in
  do check_depth surf then
  let* color := CHECK_LOAD_COLOR surf colorobj in
  do return_if (width <? 0) (Return (mkRect (rect_x r) (rect_y r) 0 0)) then
  let width := clamp_width width r in
  if (radius <=? 0) && (top_left_radius <=? 0) && (top_right_radius <=? 0) &&
     (bottom_left_radius <=? 0) && (bottom_right_radius <=? 0) then
    let l := rect_x r in
    let r_ := rect_x r + rect_w r - 1 in
    let t := rect_y r in
    let b := rect_y r + rect_h r - 1 in
    polygon colorobj (Some [Some (l, t); Some (r_, t); Some (r_, b); Some (l, b)])
            width
  else
    do lock_or_raise then
    let* area :=
      draw_round_rect color (rect_x r) (rect_y r) (rect_x r + rect_w r - 1)
                      (rect_y r + rect_h r - 1) radius width
                      top_left_radius top_right_radius bottom_left_radius
                      bottom_right_radius empty_area in
    do unlock_or_raise then
    return_ (Return (return_rect area (rect_x r, rect_y r))).

(** The nine entries of [_draw_methods], with their arguments. *)
Inductive primitive :=
| Aaline (color : PyColor) (start end_ : option (F32.t * F32.t)) (blend : Z)
| Line (color : PyColor) (start end_ : option (Z * Z)) (width : Z)
| Aalines (color : PyColor) (closed : option bool)
    (points : option (list (option (F32.t * F32.t)))) (blend : Z)
| Lines (color : PyColor) (closed : option bool)
    (points : option (list (option (Z * Z)))) (width : Z)
| Ellipse (color : PyColor) (r : option SDL_Rect) (width : Z)
| Arc (color : PyColor) (r : option SDL_Rect) (start_angle stop_angle : F64.t)
    (width : Z)
| Circle (color : PyColor) (center : option (Z * Z)) (radius : option Z)
    (width : Z) (draw_top_right draw_top_left draw_bottom_left
                 draw_bottom_right : Z)
| Polygon (color : PyColor) (points : option (list (option (Z * Z))))
    (width : Z)
| Rect (color : PyColor) (r : option SDL_Rect) (width border_radius : Z)
    (border_top_left_radius border_top_right_radius
     border_bottom_left_radius border_bottom_right_radius : Z).

(** Calling a primitive on a world.  Only [Arc] consumes the fuel. *)
Definition invoke (fuel : nat) (p : primitive) (w : world)
    : option (result * world) :=
  match p with
  | Aaline c s e blend => Some (call (aaline c s e blend) w)
  | Line c s e width => Some (call (line c s e width) w)
  | Aalines c closed pts blend => Some (call (aalines c closed pts blend) w)
  | Lines c closed pts width => Some (call (lines c closed pts width) w)
  | Ellipse c r width => Some (call (ellipse c r width) w)
  | Arc c r a0 a1 width => arc fuel c r a0 a1 width w
  | Circle c pos radius width tr tl bl br =>
      Some (call (circle c pos radius width tr tl bl br) w)
  | Polygon c pts width => Some (call (polygon c pts width) w)
  | Rect c r width radius tl tr bl br =>
      Some (call (rect c r width radius tl tr bl br) w)
  end.

(** The anchor of the zero-size rectangle a primitive returns when it has
    stored nothing. *)
Definition anchor (p : primitive) : Z * Z :=
  match p with
  | Aaline _ (Some (x, y)) _ _ => (int_of_float x, int_of_float y)
  | Line _ (Some p) _ _ => p
  | Aalines _ _ (Some (Some (x, y) :: _)) _ => (int_of_float x, int_of_float y)
  | Lines _ _ (Some (Some p :: _)) _ => p
  | Ellipse _ (Some r) _ => (rect_x r, rect_y r)
  | Arc _ (Some r) _ _ _ => (rect_x r, rect_y r)
  | Circle _ (Some p) _ _ _ _ _ _ => p
  | Polygon _ (Some (Some p :: _)) _ => p
  | Rect _ (Some r) _ _ _ _ _ _ => (rect_x r, rect_y r)
  | _ => (0, 0)
  end.

End PrimitiveAPI.

(** ** SDL's conversions for packed formats with 8 bits per channel

    Used to run the model on concrete surfaces: [SDL_GetRGBA] extracts the
    byte of each channel at its shift (alpha is 255 when the format has no
    alpha mask), [SDL_MapRGBA] puts the bytes back. *)
Definition packed_GetRGB (pixel : Z) (fmt : SDL_PixelFormat) : Z * Z * Z :=
  (Z.land (Z.shiftr pixel (Rshift fmt)) 255,
   Z.land (Z.shiftr pixel (Gshift fmt)) 255,
   Z.land (Z.shiftr pixel (Bshift fmt)) 255).

Definition packed_GetRGBA (pixel : Z) (fmt : SDL_PixelFormat)
    : Z * Z * Z * Z :=
  (Z.land (Z.shiftr pixel (Rshift fmt)) 255,
   Z.land (Z.shiftr pixel (Gshift fmt)) 255,
   Z.land (Z.shiftr pixel (Bshift fmt)) 255,
   if Amask fmt =? 0 then 255 else Z.land (Z.shiftr pixel (Ashift fmt)) 255).

Definition packed_MapRGBA (fmt : SDL_PixelFormat) (r g b a : Z) : Z :=
  Z.lor (Z.lor (Z.lor (Z.shiftl r (Rshift fmt)) (Z.shiftl g (Gshift fmt)))
               (Z.shiftl b (Bshift fmt)))
        (Z.land (Z.shiftl a (Ashift fmt)) (Amask fmt)).

Definition SDL_packed : SDL_API :=
  Build_SDL_API packed_GetRGB packed_GetRGBA packed_MapRGBA.

(** The 32-bit format with R, G, B, A in the bytes 0, 1, 2, 3 of a pixel. *)
Definition RGBA8888 : SDL_PixelFormat :=
  mkFormat 4 0 8 16 24 4278190080.

(** A [w] x [h] surface of that format, clipped to its full extent. *)
Definition surface32 (w h pitch : Z) (px : Z → Z) : SDL_Surface :=
  mkSurface RGBA8888 w h pitch px (mkRect 0 0 w h).

(** A world around a surface: nothing stored yet, no scratch block live,
    every request granted. *)
Definition world_of (surf : SDL_Surface) : world :=
  mkWorld surf [] ∅ 0 [] true true None.

(** ** Closed forms used in the statements below *)

(** The minor-axis offset of the pixel [draw_line] puts at major-axis offset
    [n], for a line of major extent [M] and minor extent [m]. *)
Definition bres (M m n : Z) : Z := (n * m + (M - 1 - M / 2)) / M.

(** The pixels of a line whose major axis is x, in drawing order. *)
Definition xmajor_pixels (x1 y1 x2 y2 : Z) : list (Z * Z) :=
  let dx := Z.abs (x2 - x1) in
  let sx := if x1 <? x2 then 1 else -1 in
  let dy := Z.abs (y2 - y1) in
  let sy := if y1 <? y2 then 1 else -1 in
  (λ n, (x1 + sx * n, y1 + sy * bres dx dy n)) <$> seqZ 0 (dx + 1).

(** The pixels of the line from [(x1, y1)] to [(x2, y2)], in drawing order:
    one per step along the major axis, x when [|dx| > |dy|] and y
    otherwise. *)
Definition line_pixels (x1 y1 x2 y2 : Z) : list (Z * Z) :=
  if Z.abs (x2 - x1) >? Z.abs (y2 - y1)
  then xmajor_pixels x1 y1 x2 y2
  else prod_swap <$> xmajor_pixels y1 x1 y2 x2.

(** The error term [draw_line] holds (up to sign) when it reaches
    major-axis offset [n]. *)
Definition bres_err (M m n : Z) : Z :=
  M - 1 - (n * m + (M - 1 - M / 2)) mod M.



(** ** Vocabulary of the contracts *)

(** SDL keeps the clip rectangle of a surface inside the surface, whose
    width and height are C [int]s. *)
Definition clip_within_surface (surf : SDL_Surface) : Prop :=
  let c := clip_rect surf in
  0 ≤ rect_x c ∧ 0 ≤ rect_y c ∧
  rect_x c + rect_w c ≤ surf_w surf ∧ rect_y c + rect_h c ≤ surf_h surf ∧
  surf_w surf ≤ INT_MAX ∧ surf_h surf ≤ INT_MAX.

(** The pixels stored between the worlds [w] and [w']. *)
Definition stored_during (w w' : world) : list (Z * Z) :=
  drop (length (stored w)) (stored w').

(** The accumulator after the pixels [W] have been stored. *)
Definition accumulate (area : drawn_area) (W : list (Z * Z)) : drawn_area :=
  foldl (λ a p, add_pixel_to_drawn_list p.1 p.2 a) area W.

(** [r] is the tight bounding rectangle of the pixels [W]: it is
    [(min_x, min_y, max_x - min_x + 1, max_y - min_y + 1)], every pixel of
    [W] lies inside it, and each of its four border lines holds a pixel of
    [W]. *)
Definition tight_bounding_rect (r : SDL_Rect) (W : list (Z * Z)) : Prop :=
  ∃ x0 y0 x1 y1,
    r = mkRect x0 y0 (x1 - x0 + 1) (y1 - y0 + 1) ∧
    (∀ p, p ∈ W → x0 ≤ p.1 ≤ x1 ∧ y0 ≤ p.2 ≤ y1) ∧
    (∃ p, p ∈ W ∧ p.1 = x0) ∧ (∃ p, p ∈ W ∧ p.1 = x1) ∧
    (∃ p, p ∈ W ∧ p.2 = y0) ∧ (∃ p, p ∈ W ∧ p.2 = y1).

(** The bytes of the pixel [(x, y)] in the buffer of [surf]. *)
Definition pixel_bytes (surf : SDL_Surface) (x y : Z) (a : Z) : Prop :=
  y * pitch surf + x * BytesPerPixel (format surf) ≤ a
  < y * pitch surf + (x + 1) * BytesPerPixel (format surf).

(** The bytes of the pixels inside the clip rectangle. *)
Definition clip_bytes (surf : SDL_Surface) (a : Z) : Prop :=
  ∃ x y, outside_clip surf x y = false ∧ pixel_bytes surf x y a.

(** The formats [set_at] is written for: 1, 2 or 4 bytes per pixel, or 3
    bytes with the three colour channels in the three bytes of a pixel. *)
Definition format_ok (fmt : SDL_PixelFormat) : Prop :=
  BytesPerPixel fmt = 1 ∨ BytesPerPixel fmt = 2 ∨ BytesPerPixel fmt = 4 ∨
  (BytesPerPixel fmt = 3 ∧
   0 ≤ Z.shiftr (Rshift fmt) 3 < 3 ∧ 0 ≤ Z.shiftr (Gshift fmt) 3 < 3 ∧
   0 ≤ Z.shiftr (Bshift fmt) 3 < 3).

(** What the accumulator [a] knows after the pixels [W]: nothing, or their
    extreme coordinates. *)
Definition summarises (a : drawn_area) (W : list (Z * Z)) : Prop :=
  (W = [] ∧ a = empty_area) ∨
  ((∀ p, p ∈ W → min_x a ≤ p.1 ≤ max_x a ∧ min_y a ≤ p.2 ≤ max_y a) ∧
   (∃ p, p ∈ W ∧ p.1 = min_x a) ∧ (∃ p, p ∈ W ∧ p.1 = max_x a) ∧
   (∃ p, p ∈ W ∧ p.2 = min_y a) ∧ (∃ p, p ∈ W ∧ p.2 = max_y a)).

Definition in_int_range (p : Z * Z) : Prop :=
  INT_MIN < p.1 < INT_MAX ∧ INT_MIN < p.2 < INT_MAX.

(** ** A Hoare logic for the Python-facing layer

    [drawn w area w' area'] relates a world and an accumulator before and
    after some drawing: the geometry of the surface is the same, bytes
    outside the clip rectangle are untouched, [stored] has grown by pixels
    inside the clip rectangle, and the accumulator has taken exactly those
    pixels in. *)
Definition drawn (w : world) (area : drawn_area) (w' : world)
    (area' : drawn_area) : Prop :=
  format (surface w') = format (surface w) ∧
  pitch (surface w') = pitch (surface w) ∧
  clip_rect (surface w') = clip_rect (surface w) ∧
  (∀ a, format_ok (format (surface w)) → ¬ clip_bytes (surface w) a →
        pixels (surface w') a = pixels (surface w) a) ∧
  ∃ W, stored w' = stored w ++ W ∧ area' = accumulate area W ∧
       ∀ q, q ∈ W → outside_clip (surface w) q.1 q.2 = false.

(** [triple area m Q R]: run from an accumulator [area], the computation
    [m] draws; if it goes on with a value [a], [Q a] holds of the resulting
    accumulator, and if it makes the primitive return [r], [R r] does. *)
Definition triple {A} (area : drawn_area) (m : API A)
    (Q : A → drawn_area → Prop) (R : result → drawn_area → Prop) : Prop :=
  ∀ w, ∃ area', drawn w area (m w).2 area' ∧
       match (m w).1 with
       | inl a => Q a area'
       | inr r => R r area'
       end.

(** The postcondition of a primitive: a returned rectangle is the one
    assembled from the accumulator and the anchor. *)
Definition returns_rect_of (anchor : Z * Z) (r : result) (area : drawn_area)
    : Prop :=
  ∀ rc, r = Return rc → rc = return_rect area anchor.

(** The operations that leave the surface alone. *)
Definition quiet {A} (m : API A) : Prop :=
  ∀ w, surface (m w).2 = surface w ∧ stored (m w).2 = stored w ∧
       ∃ a, (m w).1 = inl a.


(** An interpretation of the libm calls, for running primitives that make
    none. *)
Definition libm_unused : Libm := Build_Libm id id id.

(** ** The colour sampler as the specification words it *)




(** The destination pixel [(x, y)] of a 4-byte surface. *)
Definition pixel32 (surf : SDL_Surface) (x y : Z) : Z :=
  load32 (pixels surf) (y * pitch surf + 4 * x).







(** ** The circle drivers *)

(** The states a [while] loop enters, one per iteration. *)
Fixpoint while_states {St : Type} (fuel : nat) (cond : St → bool)
    (step : St → St) (s : St) : list St :=
  match fuel with
  | O => []
  | S fuel' =>
      if cond s then step s :: while_states fuel' cond step (step s) else []
  end.

(** The positions [(x, y)] the Bresenham driver of radius [radius] yields:
    [x] grows from 1 while [y] descends from [radius]. *)
Definition circle_driver (radius : Z) : list circle_state :=
  while_states (Z.to_nat radius) circle_cond circle_step (circle_init radius).

(** The eight octant pixels of a driver position, numbered as in
    [draw_circle_bresenham]. *)
Definition octants (x0 y0 : Z) (s : circle_state) : list (Z * Z) :=
  let '(_, _, _, x, y) := s in
  [ (x0 + x - 1, y0 + y - 1);   (* 7 *)
    (x0 - x, y0 + y - 1);       (* 6 *)
    (x0 + x - 1, y0 - y);       (* 2 *)
    (x0 - x, y0 - y);           (* 3 *)
    (x0 + y - 1, y0 + x - 1);   (* 8 *)
    (x0 + y - 1, y0 - x);       (* 1 *)
    (x0 - y, y0 + x - 1);       (* 5 *)
    (x0 - y, y0 - x) ].         (* 4 *)


(** The states of the outline rasteriser. *)
Definition outline_driver (radius thickness : Z) : list outline_state :=
  while_states (Z.to_nat radius) outline_cond outline_step
               (outline_init radius thickness).


(** ** The accumulators of the ellipse loops *)





(** The arguments every primitive validates first: a surface of 1 to 4
    bytes per pixel and a colour that converts. *)
Definition valid_target (w : world) (c : PyColor) : Prop :=
  1 ≤ BytesPerPixel (format (surface w)) ≤ 4 ∧ c ≠ ColorInvalid.

(** The next [n] allocation requests succeed and the surface locks and
    unlocks. *)
Definition cooperative (n : nat) (w : world) : Prop :=
  (∀ b, b ∈ take n (alloc_plan w) → b = true) ∧
  lock_ok w = true ∧ unlock_ok w = true.

(** ** Outcomes of the Python-facing layer *)






(** [m] always goes on: it never ends the primitive. *)
Definition goes_on {A} (m : API A) : Prop := ∀ w, ∃ a, (m w).1 = inl a.

(** Unless [m] ends the primitive with a memory error, the blocks of [B]
    are no longer allocated when [m] is over, and no block is that was not
    before. *)
Definition frees {A} (B : gset nat) (m : API A) : Prop :=
  ∀ w, match (m w).1 with
       | inr (Raise (MemoryError _)) => True
       | _ => live (m w).2 ⊆ live w ∖ B
       end.

(** ** Validation *)

(** The error of the argument a primitive converts before it looks at the
    surface: the rectangle of [ellipse], [arc] and [rect], the centre and
    the radius of [circle]. *)
Definition argument_error (p : primitive) : option exn :=
  match p with
  | Ellipse _ None _ | Arc _ None _ _ _ | Rect _ None _ _ _ _ _ _ =>
      Some (TypeError "rect argument is invalid")
  | Circle _ None _ _ _ _ _ _ =>
      Some (TypeError "center argument must be a pair of numbers")
  | Circle _ (Some _) None _ _ _ _ _ =>
      Some (TypeError "radius argument must be a number")
  | _ => None
  end.

Definition color_of (p : primitive) : PyColor :=
  match p with
  | Aaline c _ _ _ | Line c _ _ _ | Aalines c _ _ _ | Lines c _ _ _
  | Ellipse c _ _ | Arc c _ _ _ _ | Circle c _ _ _ _ _ _ _ | Polygon c _ _
  | Rect c _ _ _ _ _ _ _ => c
  end.

(** The first of the checks every primitive starts with that fails, if
    any: the argument above, the depth of the surface, the colour. *)
Definition validation_error (w : world) (p : primitive) : option exn :=
  match argument_error p with
  | Some e => Some e
  | None =>
      if (BytesPerPixel (format (surface w)) <=? 0) ||
         (BytesPerPixel (format (surface w)) >? 4)
      then Some (ValueError "unsupported surface bit depth for drawing")
      else if bool_decide (color_of p = ColorInvalid)
      then Some (TypeError "invalid color argument")
      else None
  end.

(** ** Symmetries of the circles

    A circle of centre [(x0, y0)] covers the pixels [x0 - r .. x0 + r - 1]:
    its geometric centre is the corner shared by the pixels [(x0 - 1, y0 - 1)]
    and [(x0, y0)]. *)
Definition mirror_x (x0 : Z) (p : Z * Z) : Z * Z := (2 * x0 - 1 - p.1, p.2).
Definition mirror_y (y0 : Z) (p : Z * Z) : Z * Z := (p.1, 2 * y0 - 1 - p.2).
Definition transpose_at (x0 y0 : Z) (p : Z * Z) : Z * Z :=
  (x0 + (p.2 - y0), y0 + (p.1 - x0)).

(** The square of side [2 * r] around the centre. *)
Definition in_circle_box (x0 y0 r : Z) (p : Z * Z) : Prop :=
  x0 - r ≤ p.1 ≤ x0 + r - 1 ∧ y0 - r ≤ p.2 ≤ y0 + r - 1.

(** ** Requests that are granted *)

(** [w1] is [w] after a granted allocation request, with the next [n]
    requests granted too. *)
Definition granted (n : nat) (w w1 : world) : Prop :=
  surface w1 = surface w ∧ stored w1 = stored w ∧
  live w1 = {[next_block w]} ∪ live w ∧
  lock_ok w1 = lock_ok w ∧ unlock_ok w1 = unlock_ok w ∧
  ∀ b, b ∈ take n (alloc_plan w1) → b = true.


(** ** The major axis of an antialiased line *)

(** The test [fabs(to_x - from_x) < fabs(to_y - from_y)] of [draw_aaline]:
    whether the line advances along y. *)
Definition aaline_steep (from_x from_y to_x to_y : F32.t) : bool :=
  let zero := F32.of_int 0 in
  let fabs_ (d : F32.t) := if F32.ltb d zero then F32.neg d else d in
  F32.ltb (fabs_ (F32.sub to_x from_x)) (fabs_ (F32.sub to_y from_y)).

(** The coordinate of a pixel along the major axis, and the other one. *)
Definition major_of (steep : bool) (p : Z * Z) : Z :=
  if steep then p.2 else p.1.
Definition minor_of (steep : bool) (p : Z * Z) : Z :=
  if steep then p.1 else p.2.

(** ** The quadrants of a circle *)



(** * Properties *)

(** ** Loops *)

Lemma for_Z_elem {A} (lo hi : Z) (body : Z → list A) (a : A) :
  a ∈ for_Z lo hi body ↔ ∃ v, lo ≤ v < hi ∧ a ∈ body v.
Proof.
  unfold for_Z. rewrite list_elem_of_In, in_flat_map. split.
  - intros (v & Hv & Ha). exists v. apply list_elem_of_In, elem_of_seqZ in Hv.
    split; [lia | by apply list_elem_of_In].
  - intros (v & Hv & Ha). exists v. split; apply list_elem_of_In; [|done].
    apply elem_of_seqZ. lia.
Qed.

Lemma flat_map_singleton {A B} (f : A → B) (l : list A) :
  flat_map (λ a, [f a]) l = f <$> l.
Proof. induction l as [|a l IH]; simpl; [done | by rewrite IH]. Qed.

(** A loop whose successive states are [st n], [st (n + 1)], ... and whose
    condition first fails at [st N] runs [N - n] iterations, provided the
    fuel allows as many. *)
Lemma while_iter {St : Type} (cond : St → bool) (body : St → St * Draw)
    (st : Z → St) (out : Z → Draw) (N : Z) (fuel : nat) (n : Z) :
  n ≤ N →
  (∀ i, n ≤ i < N → cond (st i) = true ∧ body (st i) = (st (i + 1), out i)) →
  cond (st N) = false →
  (Z.to_nat (N - n) ≤ fuel)%nat →
  while_ fuel cond body (st n) = Some (flat_map out (seqZ n (N - n))).
Proof.
  revert n. induction fuel as [|fuel IH]; intros n Hn Hstep Hend Hfuel.
  - assert (n = N) as -> by lia. simpl. rewrite Hend.
    by replace (N - N) with 0 by lia.
  - destruct (decide (n = N)) as [->|Hne].
    + simpl. rewrite Hend. by replace (N - N) with 0 by lia.
    + destruct (Hstep n) as [Hc Hb]; [lia|].
      simpl. rewrite Hc, Hb.
      rewrite (IH (n + 1)); [|lia| |done|lia].
      * simpl. f_equal.
        replace (N - n) with (Z.succ (N - (n + 1))) by lia.
        rewrite (seqZ_cons n) by lia. simpl.
        by replace (Z.pred (Z.succ (N - (n + 1)))) with (N - (n + 1)) by lia;
          replace (Z.succ n) with (n + 1) by lia.
      * intros i Hi. apply Hstep. lia.
Qed.

(** ** LineRaster *)

Section BresenhamArithmetic.
Variables M m : Z.
Hypothesis HM : 0 < M.
Hypothesis Hm : 0 ≤ m ≤ M.

Local Abbreviation E := (bres_err M m).

Lemma bres_E_bounds n : 0 ≤ E n < M.
Proof. unfold bres_err. pose proof (Z.mod_pos_bound (n * m + (M - 1 - M / 2)) M HM). lia. Qed.

Lemma bres_E_0 : E 0 = M / 2.
Proof.
  unfold bres_err. rewrite Z.mul_0_l, Z.add_0_l.
  assert (0 ≤ M / 2 < M) by (split; [apply Z.div_pos; lia | apply Z.div_lt; lia]).
  rewrite Z.mod_small by lia. lia.
Qed.

Lemma bres_0 : bres M m 0 = 0.
Proof.
  unfold bres. rewrite Z.mul_0_l, Z.add_0_l.
  assert (0 ≤ M / 2 < M) by (split; [apply Z.div_pos; lia | apply Z.div_lt; lia]).
  apply Z.div_small. lia.
Qed.

Lemma bres_M : bres M m M = m.
Proof.
  unfold bres.
  assert (0 ≤ M / 2 < M) by (split; [apply Z.div_pos; lia | apply Z.div_lt; lia]).
  symmetry. apply (Z.div_unique _ _ _ (M - 1 - M / 2)); lia.
Qed.

Lemma bres_step_up n :
  E n < m → bres M m (n + 1) = bres M m n + 1 ∧ E (n + 1) = E n - m + M.
Proof.
  intros Hlt. unfold bres_err, bres in *.
  set (a := n * m + (M - 1 - M / 2)) in *.
  replace ((n + 1) * m + (M - 1 - M / 2)) with (a + m) by lia.
  pose proof (Z.div_mod a M ltac:(lia)) as Hdm.
  pose proof (Z.mod_pos_bound a M HM) as Hr.
  assert (a + m = M * (a / M + 1) + (a mod M + m - M)) as Heq by lia.
  split.
  - symmetry. apply (Z.div_unique _ _ _ (a mod M + m - M)); lia.
  - assert ((a + m) mod M = a mod M + m - M) as ->; [|lia].
    symmetry. apply (Z.mod_unique _ _ (a / M + 1)); lia.
Qed.

Lemma bres_step_stay n :
  m ≤ E n → bres M m (n + 1) = bres M m n ∧ E (n + 1) = E n - m.
Proof.
  intros Hge. unfold bres_err, bres in *.
  set (a := n * m + (M - 1 - M / 2)) in *.
  replace ((n + 1) * m + (M - 1 - M / 2)) with (a + m) by lia.
  pose proof (Z.div_mod a M ltac:(lia)) as Hdm.
  pose proof (Z.mod_pos_bound a M HM) as Hr.
  assert (a + m = M * (a / M) + (a mod M + m)) as Heq by lia.
  split.
  - symmetry. apply (Z.div_unique _ _ _ (a mod M + m)); lia.
  - assert ((a + m) mod M = a mod M + m) as ->; [|lia].
    symmetry. apply (Z.mod_unique _ _ (a / M)); lia.
Qed.


End BresenhamArithmetic.

Lemma seqZ_snoc (m n : Z) : 0 ≤ n → seqZ m (n + 1) = seqZ m n ++ [m + n].
Proof. intros Hn. rewrite seqZ_app by lia. f_equal. Qed.

(** Equality of nested pairs, component by component. *)
Ltac tuple_eq :=
  repeat (apply pair_equal_spec; split); first [reflexivity | lia].

(** The general loop of [draw_line] when x is the major axis. *)
Lemma draw_line_loop_xmajor (x1 y1 x2 y2 : Z) :
  y1 ≠ y2 → Z.abs (y2 - y1) < Z.abs (x2 - x1) →
  let dx := Z.abs (x2 - x1) in
  let sx := if x1 <? x2 then 1 else -1 in
  let dy := Z.abs (y2 - y1) in
  let sy := if y1 <? y2 then 1 else -1 in
  draw_line_loop x1 y1 x2 y2 =
  Some ((λ n, Plot (x1 + sx * n) (y1 + sy * bres dx dy n)) <$> seqZ 0 dx).
Proof.
  intros Hy Hmaj dx sx dy sy. unfold draw_line_loop.
  fold dx dy sx sy.
  assert (0 < dx) as Hdx by lia.
  assert (0 ≤ dy ≤ dx) as Hdy by lia.
  assert (x2 = x1 + sx * dx) as Hx2 by (unfold sx, dx; case_match; lia).
  assert (y2 = y1 + sy * dy) as Hy2 by (unfold sy, dy; case_match; lia).
  assert (sx = 1 ∨ sx = -1) as Hsx by (unfold sx; case_match; lia).
  replace (dx >? dy) with true by lia.
  rewrite Z.quot_div_nonneg by lia.
  rewrite <- (bres_E_0 dx dy Hdx).
  pose (st := λ i, (x1 + sx * i, y1 + sy * bres dx dy i, bres_err dx dy i)).
  pose (out := λ i, [Plot (x1 + sx * i) (y1 + sy * bres dx dy i)]).
  replace (x1, y1, bres_err dx dy 0) with (st 0).
  2:{ unfold st. by rewrite (bres_0 dx dy Hdx), !Z.mul_0_r, !Z.add_0_r. }
  rewrite (while_iter _ _ st out dx); [| lia | | | lia].
  - rewrite Z.sub_0_r. unfold out. by rewrite flat_map_singleton.
  - intros i Hi. pose proof (bres_E_bounds dx dy Hdx i) as HE. split.
    + unfold st, draw_line_cond. apply orb_true_iff. left.
      apply negb_true_iff, Z.eqb_neq. nia.
    + unfold st, draw_line_body, out, set_at_.
      replace (bres_err dx dy i >? - dx) with true by lia.
      destruct (Z.ltb_spec (bres_err dx dy i) dy) as [Hlt|Hge].
      * destruct (bres_step_up dx dy Hdx Hdy i Hlt) as [-> ->].
        tuple_eq.
      * destruct (bres_step_stay dx dy Hdx Hdy i Hge) as [-> ->].
        tuple_eq.
  - unfold st, draw_line_cond. rewrite (bres_M dx dy Hdx), <- Hx2, <- Hy2.
    by rewrite !Z.eqb_refl.
Qed.

(** The general loop of [draw_line] when y is the major axis (ties
    included). *)
Lemma draw_line_loop_ymajor (x1 y1 x2 y2 : Z) :
  x1 ≠ x2 → Z.abs (x2 - x1) ≤ Z.abs (y2 - y1) →
  let dx := Z.abs (x2 - x1) in
  let sx := if x1 <? x2 then 1 else -1 in
  let dy := Z.abs (y2 - y1) in
  let sy := if y1 <? y2 then 1 else -1 in
  draw_line_loop x1 y1 x2 y2 =
  Some ((λ n, Plot (x1 + sx * bres dy dx n) (y1 + sy * n)) <$> seqZ 0 dy).
Proof.
  intros Hx Hmaj dx sx dy sy. unfold draw_line_loop.
  fold dx dy sx sy.
  assert (0 < dy) as Hdy by lia.
  assert (0 ≤ dx ≤ dy) as Hdx by lia.
  assert (x2 = x1 + sx * dx) as Hx2 by (unfold sx, dx; case_match; lia).
  assert (y2 = y1 + sy * dy) as Hy2 by (unfold sy, dy; case_match; lia).
  assert (sy = 1 ∨ sy = -1) as Hsy by (unfold sy; case_match; lia).
  replace (dx >? dy) with false by lia.
  rewrite Z.quot_opp_l, Z.quot_div_nonneg by lia.
  rewrite <- (bres_E_0 dy dx Hdy).
  pose (st := λ i, (x1 + sx * bres dy dx i, y1 + sy * i, - bres_err dy dx i)).
  pose (out := λ i, [Plot (x1 + sx * bres dy dx i) (y1 + sy * i)]).
  replace (x1, y1, - bres_err dy dx 0) with (st 0).
  2:{ unfold st. by rewrite (bres_0 dy dx Hdy), !Z.mul_0_r, !Z.add_0_r. }
  rewrite (while_iter _ _ st out dy); [| lia | | | lia].
  - rewrite Z.sub_0_r. unfold out. by rewrite flat_map_singleton.
  - intros i Hi. pose proof (bres_E_bounds dy dx Hdy i) as HE. split.
    + unfold st, draw_line_cond. apply orb_true_iff. right.
      apply negb_true_iff, Z.eqb_neq. nia.
    + unfold st, draw_line_body, out, set_at_.
      replace (- bres_err dy dx i <? dy) with true by lia.
      destruct (Z.ltb_spec (bres_err dy dx i) dx) as [Hlt|Hge].
      * replace (- bres_err dy dx i >? - dx) with true by lia.
        destruct (bres_step_up dy dx Hdy Hdx i Hlt) as [-> ->].
        tuple_eq.
      * replace (- bres_err dy dx i >? - dx) with false by lia.
        destruct (bres_step_stay dy dx Hdy Hdx i Hge) as [-> ->].
        tuple_eq.
  - unfold st, draw_line_cond. rewrite (bres_M dy dx Hdy), <- Hx2, <- Hy2.
    by rewrite !Z.eqb_refl.
Qed.

Lemma bres_minor_0 (M n : Z) : 0 < M → bres M 0 n = 0.
Proof.
  intros HM. unfold bres. rewrite Z.mul_0_r, Z.add_0_l.
  assert (0 ≤ M / 2 < M) by (split; [apply Z.div_pos; lia | apply Z.div_lt; lia]).
  apply Z.div_small. lia.
Qed.

Lemma bres_diag (M n : Z) : 0 < M → bres M M n = n.
Proof.
  intros HM. unfold bres.
  assert (0 ≤ M / 2 < M) by (split; [apply Z.div_pos; lia | apply Z.div_lt; lia]).
  rewrite Z.div_add_l by lia. rewrite Z.div_small; lia.
Qed.

(** [draw_line] issues exactly the pixels of the closed form, in order,
    each by a plain [set_at]. *)
Lemma draw_line_plots (x1 y1 x2 y2 : Z) :
  draw_line x1 y1 x2 y2 = (λ p, Plot p.1 p.2) <$> line_pixels x1 y1 x2 y2.
Proof.
  unfold draw_line, line_pixels, xmajor_pixels.
  destruct (Z.eqb_spec x1 x2) as [->|Hx]; destruct (Z.eqb_spec y1 y2) as [->|Hy];
    simpl.
  - rewrite !Z.sub_diag. simpl. rewrite Z.ltb_irrefl. simpl.
    unfold bres. simpl. change (Z.abs 0) with 0. rewrite Z.div_0_r.
    unfold set_at_. do 2 f_equal; lia.
  - rewrite Z.sub_diag. replace (Z.abs 0 >? Z.abs (y2 - y1)) with false by lia.
    unfold for_Z, set_at_. rewrite flat_map_singleton, <- !list_fmap_compose.
    replace (Z.abs (y1 - y2) + 1 - 0) with (Z.abs (y2 - y1) + 1) by lia.
    apply list_fmap_ext. intros _ n _. simpl.
    change (Z.abs 0) with 0. rewrite bres_minor_0 by lia. f_equal. lia.
  - rewrite Z.sub_diag. replace (Z.abs (x2 - x1) >? Z.abs 0) with true by lia.
    unfold for_Z, set_at_. rewrite flat_map_singleton, <- !list_fmap_compose.
    replace (Z.abs (x1 - x2) + 1 - 0) with (Z.abs (x2 - x1) + 1) by lia.
    apply list_fmap_ext. intros _ n _. simpl.
    change (Z.abs 0) with 0. rewrite bres_minor_0 by lia. f_equal. lia.
  - destruct (Z.gtb_spec (Z.abs (x2 - x1)) (Z.abs (y2 - y1))) as [Hgt|Hle].
    + rewrite (draw_line_loop_xmajor x1 y1 x2 y2 Hy) by lia. simpl.
      rewrite seqZ_snoc by lia. rewrite !fmap_app, <- !list_fmap_compose.
      f_equal. simpl. rewrite Z.add_0_l. unfold set_at_.
      rewrite bres_M by lia. f_equal. f_equal; case_match; lia.
    + rewrite (draw_line_loop_ymajor x1 y1 x2 y2 Hx) by lia. simpl.
      rewrite seqZ_snoc by lia. rewrite !fmap_app, <- !list_fmap_compose.
      f_equal. simpl. rewrite Z.add_0_l. unfold set_at_.
      rewrite bres_M by lia. f_equal. f_equal; case_match; lia.
Qed.

Lemma draw_line_closed_form (x1 y1 x2 y2 : Z) :
  op_xy <$> draw_line x1 y1 x2 y2 = line_pixels x1 y1 x2 y2.
Proof.
  rewrite draw_line_plots, <- list_fmap_compose.
  rewrite <- (list_fmap_id (line_pixels x1 y1 x2 y2)) at 2.
  apply list_fmap_ext. by intros _ [x y] _.
Qed.

Lemma draw_line_loop_terminates (x1 y1 x2 y2 : Z) :
  x1 ≠ x2 → y1 ≠ y2 → is_Some (draw_line_loop x1 y1 x2 y2).
Proof.
  intros Hx Hy.
  destruct (Z.lt_ge_cases (Z.abs (y2 - y1)) (Z.abs (x2 - x1))).
  - by rewrite draw_line_loop_xmajor.
  - by rewrite draw_line_loop_ymajor.
Qed.

Section XMajor.
Variables x1 y1 x2 y2 : Z.
Hypothesis Hmaj : Z.abs (y2 - y1) ≤ Z.abs (x2 - x1).

Local Abbreviation dx := (Z.abs (x2 - x1)).
Local Abbreviation dy := (Z.abs (y2 - y1)).
Local Abbreviation sx := (if x1 <? x2 then 1 else -1).
Local Abbreviation sy := (if y1 <? y2 then 1 else -1).

Lemma xmajor_elem (p : Z * Z) :
  p ∈ xmajor_pixels x1 y1 x2 y2 ↔
  ∃ n, 0 ≤ n ≤ dx ∧ p = (x1 + sx * n, y1 + sy * bres dx dy n).
Proof.
  unfold xmajor_pixels. rewrite list_elem_of_fmap. split.
  - intros (n & -> & Hn). apply elem_of_seqZ in Hn. exists n. split; [lia|done].
  - intros (n & Hn & ->). exists n. split; [done|]. apply elem_of_seqZ. lia.
Qed.








(** No pixel outside those columns. *)
Lemma xmajor_within (x y : Z) :
  (x, y) ∈ xmajor_pixels x1 y1 x2 y2 → Z.min x1 x2 ≤ x ≤ Z.max x1 x2.
Proof. intros (n & Hn & Heq)%xmajor_elem. injection Heq as -> _. case_match; lia. Qed.

End XMajor.

Lemma elem_of_swap (x y : Z) (l : list (Z * Z)) :
  (x, y) ∈ prod_swap <$> l ↔ (y, x) ∈ l.
Proof.
  rewrite list_elem_of_fmap. split.
  - intros ([a b] & Heq & Hin). injection Heq as -> ->. done.
  - intros Hin. by exists (y, x).
Qed.

(** On a tie both axes are major. *)
Lemma xmajor_tie (x1 y1 x2 y2 : Z) :
  Z.abs (x2 - x1) = Z.abs (y2 - y1) →
  prod_swap <$> xmajor_pixels y1 x1 y2 x2 = xmajor_pixels x1 y1 x2 y2.
Proof.
  intros Htie. unfold xmajor_pixels. rewrite <- list_fmap_compose, Htie.
  apply list_fmap_ext. intros i n Hn%list_elem_of_lookup_2%elem_of_seqZ.
  simpl. unfold prod_swap. simpl.
  destruct (decide (Z.abs (y2 - y1) = 0)) as [H0|Hne].
  - rewrite H0 in *. unfold bres. rewrite !Z.div_0_r.
    assert (x1 = x2) as -> by lia. assert (y1 = y2) as -> by lia.
    assert (n = 0) as -> by lia. done.
  - rewrite !bres_diag by lia. done.
Qed.

Lemma line_pixels_xmajor (x1 y1 x2 y2 : Z) :
  Z.abs (y2 - y1) ≤ Z.abs (x2 - x1) →
  line_pixels x1 y1 x2 y2 = xmajor_pixels x1 y1 x2 y2.
Proof.
  intros Hmaj. unfold line_pixels.
  destruct (Z.gtb_spec (Z.abs (x2 - x1)) (Z.abs (y2 - y1))); [done|].
  apply xmajor_tie. lia.
Qed.

Lemma line_pixels_ymajor (x1 y1 x2 y2 : Z) :
  Z.abs (x2 - x1) ≤ Z.abs (y2 - y1) →
  line_pixels x1 y1 x2 y2 = prod_swap <$> xmajor_pixels y1 x1 y2 x2.
Proof.
  intros Hmaj. unfold line_pixels.
  destruct (Z.gtb_spec (Z.abs (x2 - x1)) (Z.abs (y2 - y1))); [|done].
  lia.
Qed.


(** *** Reversing the endpoints *)





(** ** PixelWriter and BoundingBoxAccumulator *)

Section PixelWriterFacts.
Context `{SDL_API}.

(** Outside the clip rectangle [set_at] returns 0 and changes nothing. *)
Lemma set_at_outside (surf : SDL_Surface) (x y color : Z) (area : drawn_area) :
  outside_clip surf x y = true →
  set_at surf x y color area = (0, surf, area).
Proof. intros Hout. unfold set_at. by rewrite Hout. Qed.

Lemma outside_clip_spec (surf : SDL_Surface) (x y : Z) :
  outside_clip surf x y = true ↔
  ¬ (rect_x (clip_rect surf) ≤ x < rect_x (clip_rect surf) + rect_w (clip_rect surf) ∧
     rect_y (clip_rect surf) ≤ y < rect_y (clip_rect surf) + rect_h (clip_rect surf)).
Proof. unfold outside_clip. rewrite !orb_true_iff. lia. Qed.

(** Inside, it returns 1, leaves the geometry of the surface alone and
    feeds the accumulator. *)
Lemma set_at_inside (surf : SDL_Surface) (x y color : Z) (area : drawn_area) :
  outside_clip surf x y = false →
  ∃ px, set_at surf x y color area =
        (1, set_pixels surf px, add_pixel_to_drawn_list x y area).
Proof. intros Hin. unfold set_at. rewrite Hin. eauto. Qed.

Lemma store8_other (m : Z → Z) (a v a' : Z) : a' ≠ a → store8 m a v a' = m a'.
Proof. intros Hne. unfold store8. by rewrite (proj2 (Z.eqb_neq a' a) Hne). Qed.

(** The bytes [set_at] changes belong to the pixel it is asked to store. *)
Lemma set_at_bytes (surf : SDL_Surface) (x y color : Z) (area : drawn_area)
    (a : Z) :
  format_ok (format surf) →
  ¬ (outside_clip surf x y = false ∧ pixel_bytes surf x y a) →
  pixels (set_at surf x y color area).1.2 a = pixels surf a.
Proof.
  intros Hfmt Hna. unfold set_at.
  destruct (outside_clip surf x y) eqn:Hout; [done|]. simpl.
  assert (¬ pixel_bytes surf x y a) as Hnb by tauto. unfold pixel_bytes in Hnb.
  destruct Hfmt as [Hb|[Hb|[Hb|(Hb & HR & HG & HB)]]]; rewrite Hb in *; simpl.
  - rewrite store8_other; [done|lia].
  - unfold store16. rewrite !store8_other; [done|lia..].
  - unfold store32. rewrite !store8_other; [done|lia..].
  - destruct (SDL_GetRGB color (format surf)) as [[r g] b].
    rewrite !store8_other; [done|lia..].
Qed.

Lemma run_op_geometry (color blend : Z) (o : op) (surf : SDL_Surface)
    (area : drawn_area) :
  ∃ px, (run_op color blend o (surf, area)).1.2 = set_pixels surf px.
Proof.
  destruct o as [x y|x y b]; simpl; unfold set_at;
    destruct (outside_clip surf x y); simpl; try (by eexists);
    exists (pixels surf); by destruct surf.
Qed.

Lemma run_op_area (color blend : Z) (o : op) (surf : SDL_Surface)
    (area : drawn_area) :
  (run_op color blend o (surf, area)).2 =
  if outside_clip surf (op_xy o).1 (op_xy o).2 then area
  else add_pixel_to_drawn_list (op_xy o).1 (op_xy o).2 area.
Proof.
  destruct o as [x y|x y b]; simpl; unfold set_at;
    by destruct (outside_clip surf x y).
Qed.

Lemma written_cons (surf : SDL_Surface) (o : op) (ops : Draw) :
  written surf (o :: ops) =
  (if outside_clip surf (op_xy o).1 (op_xy o).2 then [] else [op_xy o]) ++
  written surf ops.
Proof.
  unfold written. rewrite fmap_cons, filter_cons.
  destruct (outside_clip surf (op_xy o).1 (op_xy o).2) eqn:Hout;
    case_decide; simplify_eq; done.
Qed.

Lemma written_clip (surf surf' : SDL_Surface) (ops : Draw) :
  clip_rect surf' = clip_rect surf → written surf' ops = written surf ops.
Proof.
  intros Hclip. unfold written. apply list_filter_iff.
  intros p. unfold outside_clip. by rewrite Hclip.
Qed.

Lemma written_app (surf : SDL_Surface) (ops1 ops2 : Draw) :
  written surf (ops1 ++ ops2) = written surf ops1 ++ written surf ops2.
Proof. unfold written. by rewrite fmap_app, filter_app. Qed.

Lemma written_elem (surf : SDL_Surface) (ops : Draw) (p : Z * Z) :
  p ∈ written surf ops ↔
  outside_clip surf p.1 p.2 = false ∧ p ∈ op_xy <$> ops.
Proof. unfold written. by rewrite list_elem_of_filter. Qed.

(** Running a command sequence: the geometry of the surface is unchanged
    and the accumulator has taken the stored pixels in, in order. *)
Lemma run_spec (color blend : Z) (ops : Draw) (surf : SDL_Surface)
    (area : drawn_area) :
  (∃ px, (run color blend ops (surf, area)).1 = set_pixels surf px) ∧
  (run color blend ops (surf, area)).2 = accumulate area (written surf ops).
Proof.
  revert surf area. induction ops as [|o ops IH]; intros surf area.
  - simpl. split; [|done]. exists (pixels surf). by destruct surf.
  - simpl. pose proof (run_op_geometry color blend o surf area) as [px Hg].
    pose proof (run_op_area color blend o surf area) as Ha.
    destruct (run_op color blend o (surf, area)) as [[n surf'] area'].
    simpl in *. subst surf'.
    destruct (IH (set_pixels surf px) area') as [[px' Hg'] Ha'].
    split.
    + exists px'. rewrite Hg'. done.
    + rewrite Ha', written_cons, (written_clip surf) by done.
      unfold accumulate. rewrite foldl_app. f_equal.
      rewrite Ha. by destruct (outside_clip surf _ _).
Qed.

(** Bytes outside the clip rectangle survive any command sequence. *)
Lemma run_bytes (color blend : Z) (ops : Draw) (surf : SDL_Surface)
    (area : drawn_area) (a : Z) :
  format_ok (format surf) → ¬ clip_bytes surf a →
  pixels (run color blend ops (surf, area)).1 a = pixels surf a.
Proof.
  intros Hfmt Hna. revert surf area Hfmt Hna.
  induction ops as [|o ops IH]; intros surf area Hfmt Hna; [done|].
  simpl.
  pose proof (run_op_geometry color blend o surf area) as [px Hg].
  assert (pixels (run_op color blend o (surf, area)).1.2 a = pixels surf a)
    as Hpx.
  { destruct o as [x y|x y b]; simpl; apply set_at_bytes; try done;
      intros [? ?]; apply Hna; by exists x, y. }
  destruct (run_op color blend o (surf, area)) as [[n surf'] area'].
  simpl in *. subst surf'. rewrite IH; [done|done|].
  intros (x & y & Hc & Hb). apply Hna. by exists x, y.
Qed.

End PixelWriterFacts.

Section BoundingBox.

Lemma summarises_snoc (a : drawn_area) (W : list (Z * Z)) (p : Z * Z) :
  summarises a W → in_int_range p →
  summarises (add_pixel_to_drawn_list p.1 p.2 a) (W ++ [p]).
Proof.
  intros [[-> ->]|(Hall & (p0 & Hp0 & E0) & (p1 & Hp1 & E1) &
                   (p2 & Hp2 & E2) & (p3 & Hp3 & E3))] [Hx Hy]; right.
  - unfold add_pixel_to_drawn_list, empty_area. simpl.
    replace (p.1 <? INT_MAX) with true by lia.
    replace (p.2 <? INT_MAX) with true by lia.
    replace (p.1 >? INT_MIN) with true by lia.
    replace (p.2 >? INT_MIN) with true by lia.
    split; [|repeat split; exists p; split; try done; apply list_elem_of_singleton; done].
    intros q ->%list_elem_of_singleton. lia.
  - unfold add_pixel_to_drawn_list. simpl.
    split; [|repeat split].
    + intros q [Hq| ->%list_elem_of_singleton]%elem_of_app.
      * specialize (Hall q Hq). repeat case_match; lia.
      * repeat case_match; lia.
    + destruct (Z.ltb_spec p.1 (min_x a));
        [exists p | exists p0]; (split; [|done]); apply elem_of_app;
        [right; by apply list_elem_of_singleton | by left].
    + destruct (Z.gtb_spec p.1 (max_x a));
        [exists p | exists p1]; (split; [|done]); apply elem_of_app;
        [right; by apply list_elem_of_singleton | by left].
    + destruct (Z.ltb_spec p.2 (min_y a));
        [exists p | exists p2]; (split; [|done]); apply elem_of_app;
        [right; by apply list_elem_of_singleton | by left].
    + destruct (Z.gtb_spec p.2 (max_y a));
        [exists p | exists p3]; (split; [|done]); apply elem_of_app;
        [right; by apply list_elem_of_singleton | by left].
Qed.

Lemma summarises_accumulate (a : drawn_area) (W W' : list (Z * Z)) :
  summarises a W → (∀ p, p ∈ W' → in_int_range p) →
  summarises (accumulate a W') (W ++ W').
Proof.
  revert a W. induction W' as [|p W' IH]; intros a W Ha Hr.
  - by rewrite app_nil_r.
  - unfold accumulate. simpl. rewrite cons_middle, (assoc_L (++) W [p] W').
    apply IH; [|intros q Hq; apply Hr; by right].
    apply summarises_snoc; [done|]. apply Hr. by left.
Qed.

(** The rectangle assembled from the accumulator of a call: the anchor with
    zero size when nothing was stored, the tight bounding rectangle of the
    stored pixels otherwise. *)
Lemma return_rect_accumulate (W : list (Z * Z)) (anchor : Z * Z) :
  (∀ p, p ∈ W → INT_MIN < p.1 < INT_MAX ∧ INT_MIN < p.2 < INT_MAX) →
  (W = [] → return_rect (accumulate empty_area W) anchor =
            mkRect anchor.1 anchor.2 0 0) ∧
  (W ≠ [] → tight_bounding_rect (return_rect (accumulate empty_area W) anchor) W).
Proof.
  intros Hr.
  assert (summarises (accumulate empty_area W) W) as Hsum.
  { apply (summarises_accumulate empty_area [] W); [by left|done]. }
  destruct Hsum as [[-> Ha]|(Hall & (p0 & Hp0 & E0) & (p1 & Hp1 & E1) &
                             (p2 & Hp2 & E2) & (p3 & Hp3 & E3))].
  - split; [done|]. intros Hne. by destruct Hne.
  - simpl in *. set (a := accumulate empty_area W) in *.
    split; [intros ->; by apply elem_of_nil in Hp0|]. intros _.
    pose proof (Hr p0 Hp0). pose proof (Hr p1 Hp1).
    pose proof (Hr p2 Hp2). pose proof (Hr p3 Hp3).
    unfold return_rect.
    replace (min_x a =? INT_MAX) with false by lia.
    replace (min_y a =? INT_MAX) with false by lia.
    replace (max_x a =? INT_MIN) with false by lia.
    replace (max_y a =? INT_MIN) with false by lia.
    simpl. exists (min_x a), (min_y a), (max_x a), (max_y a).
    split; [done|]. split; [done|]. repeat split; eauto.
Qed.

End BoundingBox.

(** Pixels inside the clip rectangle of a well-formed surface are far from
    the sentinels of the accumulator. *)
Lemma written_in_int_range (surf : SDL_Surface) (ops : Draw) (p : Z * Z) :
  clip_within_surface surf → p ∈ written surf ops →
  INT_MIN < p.1 < INT_MAX ∧ INT_MIN < p.2 < INT_MAX.
Proof.
  intros (Hx & Hy & Hw & Hh & Hwm & Hhm) [Hin _]%written_elem.
  assert (¬ outside_clip surf p.1 p.2 = true) as Hc by (rewrite Hin; done).
  rewrite outside_clip_spec in Hc. unfold INT_MIN. lia.
Qed.

(** ** The Hoare logic of the Python-facing layer *)

Lemma accumulate_app (area : drawn_area) (W1 W2 : list (Z * Z)) :
  accumulate area (W1 ++ W2) = accumulate (accumulate area W1) W2.
Proof. unfold accumulate. by rewrite foldl_app. Qed.

Lemma outside_clip_clip (surf surf' : SDL_Surface) (x y : Z) :
  clip_rect surf' = clip_rect surf → outside_clip surf' x y = outside_clip surf x y.
Proof. intros Hc. unfold outside_clip. by rewrite Hc. Qed.

Lemma clip_bytes_geometry (surf surf' : SDL_Surface) (a : Z) :
  format surf' = format surf → pitch surf' = pitch surf →
  clip_rect surf' = clip_rect surf → clip_bytes surf' a → clip_bytes surf a.
Proof.
  intros Hf Hp Hc (x & y & Hin & Hb). exists x, y.
  rewrite <- (outside_clip_clip surf surf') by done. split; [done|].
  unfold pixel_bytes in *. by rewrite <- Hf, <- Hp.
Qed.

Lemma drawn_refl (w : world) (area : drawn_area) : drawn w area w area.
Proof.
  repeat split; try done. exists []. rewrite app_nil_r.
  repeat split; try done. intros q Hq. by apply elem_of_nil in Hq.
Qed.

Lemma drawn_trans (w1 w2 w3 : world) (a1 a2 a3 : drawn_area) :
  drawn w1 a1 w2 a2 → drawn w2 a2 w3 a3 → drawn w1 a1 w3 a3.
Proof.
  intros (Hf1 & Hp1 & Hc1 & Hb1 & W1 & Hs1 & Ha1 & Hw1)
         (Hf2 & Hp2 & Hc2 & Hb2 & W2 & Hs2 & Ha2 & Hw2).
  repeat split; try congruence.
  - intros a Hfmt Hna. rewrite Hb2, Hb1; try done; [congruence|].
    intros Hcb. apply Hna. by apply (clip_bytes_geometry _ (surface w2)).
  - exists (W1 ++ W2). rewrite Hs2, Hs1, (assoc_L (++)), accumulate_app.
    repeat split; [congruence|].
    intros q [Hq|Hq]%elem_of_app; [by apply Hw1|].
    rewrite <- (outside_clip_clip _ (surface w2)) by done. by apply Hw2.
Qed.

(** Worlds that differ in the bookkeeping only. *)
Lemma drawn_same_surface (w w' : world) (area : drawn_area) :
  surface w' = surface w → stored w' = stored w → drawn w area w' area.
Proof.
  intros Hs Hst. unfold drawn. rewrite Hs. repeat split; try done.
  exists []. rewrite app_nil_r. repeat split; try done.
  intros q Hq. by apply elem_of_nil in Hq.
Qed.

Section Triples.
Context `{SDL_API}.
Context {A B : Type}.
Implicit Types (area : drawn_area) (R : result → drawn_area → Prop).

Lemma triple_bind area (m : API A) (k : A → API B)
    (Q : A → drawn_area → Prop) (Q' : B → drawn_area → Prop) R :
  triple area m Q R →
  (∀ a area1, Q a area1 → triple area1 (k a) Q' R) →
  triple area (bind m k) Q' R.
Proof.
  intros Hm Hk w. unfold bind.
  destruct (Hm w) as (area1 & Hd1 & Hq1).
  destruct (m w) as [[a|r] w1]; simpl in *.
  - destruct (Hk a area1 Hq1 w1) as (area2 & Hd2 & Hq2).
    exists area2. split; [|done]. by eapply drawn_trans.
  - by exists area1.
Qed.

Lemma triple_conseq area (m : API A) (Q Q' : A → drawn_area → Prop) R :
  triple area m Q R → (∀ a area', Q a area' → Q' a area') →
  triple area m Q' R.
Proof.
  intros Hm HQ w. destruct (Hm w) as (area' & Hd & Hq).
  exists area'. split; [done|]. destruct (m w).1; auto.
Qed.

Lemma triple_ret area (a : A) R :
  triple area (ret a) (λ a' area', a' = a ∧ area' = area) R.
Proof. intros w. exists area. split; [apply drawn_refl|done]. Qed.

Lemma triple_return area (r : result) (Q : A → drawn_area → Prop) R :
  R r area → triple area (return_ r) Q R.
Proof. intros HR w. exists area. split; [apply drawn_refl|done]. Qed.

End Triples.

Section TripleRules.
Context `{SDL_API}.
Implicit Types (area : drawn_area) (R : result → drawn_area → Prop).

Lemma triple_quiet {A} area (m : API A) R :
  quiet m → triple area m (λ _ area', area' = area) R.
Proof.
  intros Hq w. destruct (Hq w) as (Hs & Hst & a & Ha).
  exists area. split; [by apply drawn_same_surface|]. by rewrite Ha.
Qed.

Lemma quiet_get_surface : quiet get_surface.
Proof. intros w. simpl. eauto. Qed.
Lemma quiet_PyMem_New : quiet PyMem_New.
Proof. intros w. unfold PyMem_New. repeat case_match; simpl; eauto. Qed.
Lemma quiet_PyMem_Del (p : option nat) : quiet (PyMem_Del p).
Proof. intros w. destruct p; simpl; eauto. Qed.
Lemma quiet_PyErr_NoMemory : quiet PyErr_NoMemory.
Proof. intros w. simpl. eauto. Qed.
Lemma quiet_pgSurface_Lock : quiet pgSurface_Lock.
Proof. intros w. simpl. eauto. Qed.
Lemma quiet_pgSurface_Unlock : quiet pgSurface_Unlock.
Proof. intros w. simpl. eauto. Qed.

Lemma triple_return_if area (c : bool) (r : result) R :
  (c = true → R r area) →
  triple area (return_if c r) (λ _ area', area' = area) R.
Proof.
  intros HR. unfold return_if. destruct c.
  - apply triple_return. auto.
  - eapply triple_conseq; [apply triple_ret|]. by intros _ ? [_ ->].
Qed.

Lemma triple_from_obj {A} area (o : option A) (e : exn) R :
  R (Raise e) area →
  triple area (from_obj o e) (λ a area', o = Some a ∧ area' = area) R.
Proof.
  intros HR. unfold from_obj. destruct o.
  - eapply triple_conseq; [apply triple_ret|]. by intros _ ? [-> ->].
  - by apply triple_return.
Qed.

Lemma triple_paint area (color blend : Z) (ops : Draw) R :
  triple area (paint color blend ops area) (λ a area', a = area') R.
Proof.
  intros w. unfold paint.
  pose proof (run_spec color blend ops (surface w) area) as [[px Hg] Ha].
  destruct (run color blend ops (surface w, area)) as [surf' area'] eqn:Hrun.
  simpl in *. exists area'. split; [|done]. subst surf'.
  repeat split; try done.
  - intros a Hfmt Hna. simpl.
    pose proof (run_bytes color blend ops (surface w) area a Hfmt Hna) as Hb.
    by rewrite Hrun in Hb.
  - exists (written (surface w) ops). repeat split; [done|].
    intros q Hq. by apply written_elem in Hq as [? _].
Qed.

End TripleRules.

Section PrimitiveTriples.
Context `{SDL_API} `{Libm}.
Implicit Types (area : drawn_area) (R : result → drawn_area → Prop).

Lemma returns_rect_of_raise (anchor : Z * Z) (e : exn) area :
  returns_rect_of anchor (Raise e) area.
Proof. by intros rc Hrc. Qed.

Lemma returns_rect_of_empty (x y : Z) :
  returns_rect_of (x, y) (Return (mkRect x y 0 0)) empty_area.
Proof. intros rc [= <-]. done. Qed.

Lemma returns_rect_of_area (anchor : Z * Z) area :
  returns_rect_of anchor (Return (return_rect area anchor)) area.
Proof. by intros rc [= <-]. Qed.

Lemma triple_check_depth area (surf : SDL_Surface) (anchor : Z * Z) :
  triple area (check_depth surf) (λ _ area', area' = area)
         (returns_rect_of anchor).
Proof. apply triple_return_if. intros _. apply returns_rect_of_raise. Qed.

Lemma triple_CHECK_LOAD_COLOR area (surf : SDL_Surface) (c : PyColor)
    (anchor : Z * Z) :
  triple area (CHECK_LOAD_COLOR surf c) (λ _ area', area' = area)
         (returns_rect_of anchor).
Proof.
  destruct c; simpl.
  - eapply triple_conseq; [apply triple_ret|]. by intros _ ? [_ ->].
  - eapply triple_conseq; [apply triple_ret|]. by intros _ ? [_ ->].
  - apply triple_return, returns_rect_of_raise.
Qed.

Lemma triple_lock_or_raise area (anchor : Z * Z) :
  triple area lock_or_raise (λ _ area', area' = area) (returns_rect_of anchor).
Proof.
  eapply triple_bind; [apply triple_quiet, quiet_pgSurface_Lock|].
  intros ok ? ->. apply triple_return_if. intros _. apply returns_rect_of_raise.
Qed.

Lemma triple_unlock_or_raise area (anchor : Z * Z) :
  triple area unlock_or_raise (λ _ area', area' = area) (returns_rect_of anchor).
Proof.
  eapply triple_bind; [apply triple_quiet, quiet_pgSurface_Unlock|].
  intros ok ? ->. apply triple_return_if. intros _. apply returns_rect_of_raise.
Qed.

End PrimitiveTriples.

(** One step of symbolic execution of a primitive. *)
Ltac triple_basic :=
  first
    [ apply triple_paint
    | apply triple_quiet;
      first [ apply quiet_get_surface | apply quiet_PyMem_New
            | apply quiet_PyMem_Del | apply quiet_PyErr_NoMemory
            | apply quiet_pgSurface_Lock | apply quiet_pgSurface_Unlock ]
    | apply triple_check_depth
    | apply triple_CHECK_LOAD_COLOR
    | apply triple_lock_or_raise
    | apply triple_unlock_or_raise
    | apply triple_return_if; intros _;
      first [ apply returns_rect_of_raise | apply returns_rect_of_empty ] ].

Ltac triple_step :=
  lazymatch goal with
  | |- triple _ (bind (paint _ _ _ _) _) _ _ =>
      eapply triple_bind; [apply triple_paint | intros ? ? <-]
  | |- triple _ (bind (from_obj _ _) _) _ _ =>
      eapply triple_bind;
      [apply triple_from_obj; apply returns_rect_of_raise | intros ? ? [-> ->]]
  | |- triple _ (bind (if ?c then _ else _) _) _ _ => destruct c eqn:?
  | |- triple _ (bind _ _) _ _ =>
      eapply triple_bind; [triple_basic | intros ? ? ->]
  | |- triple _ (return_ _) _ _ =>
      apply triple_return;
      first [ apply returns_rect_of_raise | apply returns_rect_of_empty
            | apply returns_rect_of_area ]
  | |- triple _ (if ?c then _ else _) _ _ => destruct c eqn:?
  | |- triple _ (match ?x with _ => _ end) _ _ => destruct x eqn:?
  end.

Section PrimitiveContracts.
Context `{SDL_API} `{Libm}.

Lemma mapM_id_head {A} (items : list (option A)) (pts : list A) (p d : A)
    (rest : list (option A)) :
  mapM id items = Some pts → items = Some p :: rest → nth 0 pts d = p.
Proof.
  intros Hm ->. simpl in Hm. by simplify_option_eq.
Qed.

Lemma triple_line (c : PyColor) (start end_ : option (Z * Z)) (width : Z) :
  triple empty_area (line c start end_ width) (λ _ _, False)
         (returns_rect_of (anchor (Line c start end_ width))).
Proof.
  unfold line. repeat triple_step.
Qed.

Lemma triple_aaline (c : PyColor) (start end_ : option (F32.t * F32.t))
    (blend : Z) :
  triple empty_area (aaline c start end_ blend) (λ _ _, False)
         (returns_rect_of (anchor (Aaline c start end_ blend))).
Proof.
  unfold aaline. repeat triple_step.
Qed.

Lemma anchor_lines (c : PyColor) (closed : option bool)
    (items : list (option (Z * Z))) (width : Z) (pts : list (Z * Z)) :
  mapM id items = Some pts →
  anchor (Lines c closed (Some items) width) = nth 0 pts (0, 0).
Proof.
  intros Hm. destruct items as [|[p|] rest]; simpl in *.
  - by simplify_option_eq.
  - by simplify_option_eq.
  - by simplify_option_eq.
Qed.

Lemma triple_lines (c : PyColor) (closed : option bool)
    (points : option (list (option (Z * Z)))) (width : Z) :
  triple empty_area (lines c closed points width) (λ _ _, False)
         (returns_rect_of (anchor (Lines c closed points width))).
Proof.
  unfold lines. repeat triple_step;
    apply triple_return; erewrite anchor_lines by done;
    match goal with H : nth 0 _ _ = _ |- _ => rewrite H end;
    first [apply returns_rect_of_empty | apply returns_rect_of_area].
Qed.

Lemma anchor_aalines (c : PyColor) (closed : option bool)
    (items : list (option (F32.t * F32.t))) (blend : Z)
    (pts : list (F32.t * F32.t)) :
  mapM id items = Some pts →
  anchor (Aalines c closed (Some items) blend) =
  (int_of_float (nth 0 pts (F32.of_int 0, F32.of_int 0)).1,
   int_of_float (nth 0 pts (F32.of_int 0, F32.of_int 0)).2).
Proof.
  intros Hm. destruct items as [|[[x y]|] rest]; simpl in *;
    by simplify_option_eq.
Qed.

Lemma triple_aalines (c : PyColor) (closed : option bool)
    (points : option (list (option (F32.t * F32.t)))) (blend : Z) :
  triple empty_area (aalines c closed points blend) (λ _ _, False)
         (returns_rect_of (anchor (Aalines c closed points blend))).
Proof.
  unfold aalines. repeat triple_step;
    apply triple_return; erewrite anchor_aalines by done;
    match goal with H : nth 0 _ _ = _ |- _ => rewrite H end;
    apply returns_rect_of_area.
Qed.

Lemma triple_ellipse (c : PyColor) (r : option SDL_Rect) (width : Z) :
  triple empty_area (ellipse c r width) (λ _ _, False)
         (returns_rect_of (anchor (Ellipse c r width))).
Proof. unfold ellipse. repeat triple_step. Qed.

Lemma triple_circle (c : PyColor) (pos : option (Z * Z)) (radius : option Z)
    (width tr tl bl br : Z) :
  triple empty_area (circle c pos radius width tr tl bl br) (λ _ _, False)
         (returns_rect_of (anchor (Circle c pos radius width tr tl bl br))).
Proof. unfold circle. repeat triple_step. Qed.

Lemma triple_draw_fillpoly (color : Z) (px py : list Z) (n : Z)
    (area : drawn_area) (anchor : Z * Z) :
  triple area (draw_fillpoly color px py n area) (λ a area', a = area')
         (returns_rect_of anchor).
Proof.
  unfold draw_fillpoly. repeat triple_step;
    (eapply triple_conseq; [apply triple_ret|]; by intros ? ? [-> ->]).
Qed.

Lemma triple_draw_round_rect (color x1 y1 x2 y2 radius width : Z)
    (tl tr bl br : Z) (area : drawn_area) (anchor : Z * Z) :
  triple area (draw_round_rect color x1 y1 x2 y2 radius width tl tr bl br area)
         (λ a area', a = area') (returns_rect_of anchor).
Proof.
  unfold draw_round_rect.
  destruct (round_rect_radii x1 y1 x2 y2 radius tl tr bl br) as [[[? ?] ?] ?].
  destruct (width =? 0).
  - eapply triple_bind; [apply triple_draw_fillpoly|].
    intros ? ? <-. apply triple_paint.
  - apply triple_paint.
Qed.

Lemma anchor_polygon (c : PyColor) (items : list (option (Z * Z)))
    (width : Z) (pts : list (Z * Z)) :
  mapM id items = Some pts →
  anchor (Polygon c (Some items) width) = nth 0 pts (0, 0).
Proof.
  intros Hm. destruct items as [|[p|] rest]; simpl in *;
    by simplify_option_eq.
Qed.

Lemma triple_polygon (c : PyColor) (points : option (list (option (Z * Z))))
    (width : Z) :
  triple empty_area (polygon c points width) (λ _ _, False)
         (returns_rect_of (anchor (Polygon c points width))).
Proof.
  unfold polygon. destruct (negb (width =? 0)).
  { apply (triple_lines c (Some true) points width). }
  repeat triple_step.
  - eapply triple_bind; [apply triple_draw_fillpoly|]. intros ? ? <-.
    repeat triple_step.
    apply triple_return; erewrite anchor_polygon by done;
    match goal with H : nth 0 _ _ = _ |- _ => rewrite H end;
    apply returns_rect_of_area.
Qed.

Lemma triple_rect (c : PyColor) (r : option SDL_Rect) (width radius : Z)
    (tl tr bl br : Z) :
  triple empty_area (rect c r width radius tl tr bl br) (λ _ _, False)
         (returns_rect_of (anchor (Rect c r width radius tl tr bl br))).
Proof.
  unfold rect. repeat triple_step.
  - apply (triple_polygon c (Some [Some (rect_x a, rect_y a); _; _; _])).
  - eapply triple_bind; [apply triple_draw_round_rect|]. intros ? ? <-.
    repeat triple_step.
Qed.

Lemma triple_arc_prologue (c : PyColor) (r : option SDL_Rect)
    (a0 a1 : F64.t) (width : Z) :
  triple empty_area (arc_prologue c r a0 a1 width)
         (λ v area', r = Some v.1.1.2 ∧ area' = empty_area)
         (returns_rect_of (anchor (Arc c r a0 a1 width))).
Proof.
  unfold arc_prologue. repeat triple_step.
  eapply triple_conseq; [apply triple_ret|]. by intros ? ? [-> ->].
Qed.

Lemma triple_arc_epilogue (color : Z) (r : SDL_Rect) (ops : Draw) :
  triple empty_area (arc_epilogue color r ops) (λ _ _, False)
         (returns_rect_of (rect_x r, rect_y r)).
Proof. unfold arc_epilogue. repeat triple_step. Qed.

(** What a triple says of a whole call. *)
Lemma triple_call (area : drawn_area) (m : API result)
    (R : result → drawn_area → Prop) (w : world) :
  triple area m (λ _ _, False) R →
  ∃ area', drawn w area (call m w).2 area' ∧ R (call m w).1 area'.
Proof.
  intros Hm. destruct (Hm w) as (area' & Hd & Hr). unfold call.
  destruct (m w) as [[?|r] w']; simpl in *; [done|]. by exists area'.
Qed.

Lemma triple_call_Some (area : drawn_area) (m : API result)
    (R : result → drawn_area → Prop) (w w' : world) (res : result) :
  triple area m (λ _ _, False) R → Some (call m w) = Some (res, w') →
  ∃ area', drawn w area w' area' ∧ R res area'.
Proof.
  intros Hm [= Hc]. destruct (triple_call area m R w Hm) as (area' & Hd & Hr).
  rewrite Hc in *. by exists area'.
Qed.

(** The contract of every primitive: whatever it stored lies inside the
    clip rectangle, nothing else of the buffer changed, and a returned
    rectangle is the one assembled from the accumulator of the stored
    pixels and the anchor of the primitive. *)
Lemma invoke_contract (fuel : nat) (p : primitive) (w w' : world)
    (res : result) :
  invoke fuel p w = Some (res, w') →
  ∃ area', drawn w empty_area w' area' ∧ returns_rect_of (anchor p) res area'.
Proof.
  destruct p; simpl; intros Hinv.
  9: { eapply triple_call_Some; [apply triple_rect|done]. }
  8: { eapply triple_call_Some; [apply triple_polygon|done]. }
  7: { eapply triple_call_Some; [apply triple_circle|done]. }
  5: { eapply triple_call_Some; [apply triple_ellipse|done]. }
  4: { eapply triple_call_Some; [apply triple_lines|done]. }
  3: { eapply triple_call_Some; [apply triple_aalines|done]. }
  2: { eapply triple_call_Some; [apply triple_line|done]. }
  1: { eapply triple_call_Some; [apply triple_aaline|done]. }
  unfold arc in Hinv.
  destruct (triple_arc_prologue color r start_angle stop_angle width w)
    as (area1 & Hd1 & Hq1).
  destruct (arc_prologue color r start_angle stop_angle width w)
    as [[[[[col rc] wd] a1]|res1] w1]; simpl in *.
  - destruct Hq1 as [-> ->].
    destruct (arc_loop fuel rc wd start_angle a1) as [ops|]; [|done].
    simpl in Hinv.
    destruct (triple_call_Some empty_area (arc_epilogue col rc ops) _ w1 w' res
                (triple_arc_epilogue col rc ops) Hinv) as (area2 & Hd2 & Hr2).
    exists area2. split; [by eapply drawn_trans|done].
  - injection Hinv as <- <-. by exists area1.
Qed.

End PrimitiveContracts.

(** ** Contracts of the primitives *)

Section Contracts.
Context `{SDL_API} `{Libm}.

Lemma stored_during_app (w w' : world) (W : list (Z * Z)) :
  stored w' = stored w ++ W → stored_during w w' = W.
Proof. intros Hs. unfold stored_during. by rewrite Hs, drop_app_length. Qed.

(** X1: no primitive changes a byte outside the clip rectangle, and every
    pixel it stores lies inside the clip rectangle. *)
Theorem primitives_write_inside_clip (fuel : nat) (p : primitive)
    (w w' : world) (res : result) :
  invoke fuel p w = Some (res, w') →
  (∀ q, q ∈ stored_during w w' → outside_clip (surface w) q.1 q.2 = false) ∧
  (format_ok (format (surface w)) →
   ∀ a, ¬ clip_bytes (surface w) a →
        pixels (surface w') a = pixels (surface w) a).
Proof.
  intros Hinv.
  destruct (invoke_contract fuel p w w' res Hinv)
    as (area' & (_ & _ & _ & Hb & W & Hs & _ & HW) & _).
  rewrite (stored_during_app w w' W Hs). split; [done|]. intros Hfmt a Ha.
  by apply Hb.
Qed.

(** C2: when a primitive returns a rectangle and has stored at least one
    pixel, the rectangle is [(min_x, min_y, max_x - min_x + 1,
    max_y - min_y + 1)] over exactly the pixels stored during the call:
    every stored pixel lies inside it and each of its border rows and
    columns holds a stored pixel; when it has stored none, the rectangle has
    zero width and height at the anchor of the primitive. *)
Theorem returned_rect_is_tight (fuel : nat) (p : primitive) (w w' : world)
    (r : SDL_Rect) :
  clip_within_surface (surface w) →
  invoke fuel p w = Some (Return r, w') →
  (stored_during w w' = [] → r = mkRect (anchor p).1 (anchor p).2 0 0) ∧
  (stored_during w w' ≠ [] → tight_bounding_rect r (stored_during w w')).
Proof.
  intros Hclip Hinv.
  destruct (invoke_contract fuel p w w' (Return r) Hinv)
    as (area' & (_ & _ & _ & _ & W & Hs & -> & HW) & Hr).
  rewrite (stored_during_app w w' W Hs), (Hr r eq_refl).
  apply return_rect_accumulate. intros q Hq. specialize (HW q Hq).
  destruct Hclip as (Hx & Hy & Hw & Hh & Hwm & Hhm).
  assert (¬ outside_clip (surface w) q.1 q.2 = true) as Hc by (by rewrite HW).
  rewrite outside_clip_spec in Hc. unfold INT_MIN. lia.
Qed.

End Contracts.

(** The line of scenario S1: the ten pixels of the row, and their rectangle. *)
Lemma returned_rect_is_tight_witness :
  let w := world_of (surface32 10 1 40 (λ _, 0)) in
  let p := Line (ColorInt 255) (Some (0, 0)) (Some (9, 0)) 1 in
  let w' := (call (@line SDL_packed (ColorInt 255) (Some (0, 0)) (Some (9, 0)) 1) w).2 in
  clip_within_surface (surface w) ∧
  stored_during w w' = (λ x, (x, 0)) <$> seqZ 0 10 ∧
  tight_bounding_rect (mkRect 0 0 10 1) (stored_during w w').
Proof.
  intros w p w'.
  assert (clip_within_surface (surface w)) as Hclip.
  { unfold clip_within_surface, INT_MAX. simpl. lia. }
  assert (@invoke SDL_packed libm_unused 0 p w = Some (Return (mkRect 0 0 10 1), w'))
    as Hinv.
  { unfold invoke, p, w'.
    destruct (call (@line SDL_packed (ColorInt 255) (Some (0, 0)) (Some (9, 0)) 1) w)
      as [res w1] eqn:Hc.
    assert (res = Return (mkRect 0 0 10 1)) as ->; [|done].
    change res with (res, w1).1. rewrite <- Hc. vm_compute. reflexivity. }
  assert (stored_during w w' = (λ x, (x, 0)) <$> seqZ 0 10) as HW.
  { vm_compute. reflexivity. }
  split; [done|]. split; [done|].
  apply (@returned_rect_is_tight SDL_packed libm_unused 0%nat p w w' _ Hclip Hinv).
  rewrite HW. done.
Defined.

(** The fuel of [Arc] is enough as soon as the angle passes the stop angle:
    here after two segments, the libm calls being read as the identity. *)
Example arc_returns_with_fuel :
  (λ '(res, w'), (res, stored w')) <$>
    @invoke SDL_packed libm_unused 8
      (Arc (ColorInt 255) (Some (mkRect 0 0 10 10)) (F64.of_int 0)
           (F64.of_int 1) 1)
      (world_of (surface32 12 12 48 (λ _, 0))) =
  Some (Return (mkRect 5 1 5 5),
        [(5, 5); (6, 4); (7, 3); (7, 3); (8, 2); (9, 1)]).
Proof. by vm_compute. Qed.

(** ** Reversing a line *)

Section LineReverse.
Context `{SDL_API}.




End LineReverse.



(** ** CircleRaster *)

Lemma while_states_run {St : Type} (cond : St → bool) (body : St → St * Draw)
    (step : St → St) (out : St → Draw) (mu : St → Z) (fuel : nat) (s : St) :
  (∀ s, body s = (step s, out (step s))) →
  (∀ s, cond s = true → 0 < mu s ∧ mu (step s) < mu s) →
  mu s ≤ Z.of_nat fuel →
  while_ fuel cond body s = Some (flat_map out (while_states fuel cond step s)).
Proof.
  intros Hbody Hmu. revert s. induction fuel as [|fuel IH]; intros s Hs.
  - simpl. destruct (cond s) eqn:Hc; [|done].
    destruct (Hmu s Hc). lia.
  - simpl. destruct (cond s) eqn:Hc; [|done].
    destruct (Hmu s Hc). rewrite Hbody, IH by lia. done.
Qed.

Lemma while_states_elem {St : Type} (cond : St → bool) (step : St → St)
    (fuel : nat) (s s' : St) :
  s' ∈ while_states fuel cond step s →
  ∃ s0, (s0 = s ∨ s0 ∈ while_states fuel cond step s) ∧
        cond s0 = true ∧ s' = step s0.
Proof.
  revert s. induction fuel as [|fuel IH]; intros s; simpl.
  - by intros ?%elem_of_nil.
  - destruct (cond s) eqn:Hc; [|by intros ?%elem_of_nil].
    intros [->|Hin]%elem_of_cons.
    + exists s. by repeat split; [left|..].
    + destruct (IH _ Hin) as (s0 & [->|H0] & Hc0 & ->).
      * exists (step s). repeat split; [right; by left|done].
      * exists s0. repeat split; [right; by right|done].
Qed.

Lemma while_states_invariant {St : Type} (cond : St → bool) (step : St → St)
    (I : St → Prop) (fuel : nat) (s s' : St) :
  (∀ s, I s → cond s = true → I (step s)) → I s →
  s' ∈ while_states fuel cond step s → I s'.
Proof.
  intros Hstep. revert s. induction fuel as [|fuel IH]; intros s Hs; simpl.
  - by intros ?%elem_of_nil.
  - destruct (cond s) eqn:Hc; [|by intros ?%elem_of_nil].
    intros [->|Hin]%elem_of_cons; [by apply Hstep|].
    eapply IH; [|done]. by apply Hstep.
Qed.

Lemma while_states_fmap {St St' : Type} (cond : St → bool) (step : St → St)
    (cond' : St' → bool) (step' : St' → St') (f : St → St') (fuel : nat)
    (s : St) :
  (∀ s, cond' (f s) = cond s) → (∀ s, f (step s) = step' (f s)) →
  f <$> while_states fuel cond step s = while_states fuel cond' step' (f s).
Proof.
  intros Hc Hs. revert s. induction fuel as [|fuel IH]; intros s; simpl; [done|].
  rewrite Hc. destruct (cond s); [|done]. by rewrite fmap_cons, IH, Hs.
Qed.

(** The measure of the circle loops: [y - x] shrinks at every iteration. *)
Lemma circle_step_measure (s : circle_state) :
  circle_cond s = true →
  0 < s.2 - s.1.2 ∧ (circle_step s).2 - (circle_step s).1.2 < s.2 - s.1.2.
Proof.
  destruct s as [[[[f ddF_x] ddF_y] x] y]. unfold circle_cond, circle_step.
  simpl. intros Hc%Z.ltb_lt. destruct (f >=? 0); simpl; lia.
Qed.


(** [draw_circle_filled] runs its loop to the end: it issues the spans of
    every driver position. *)
Lemma draw_circle_filled_trace (x0 y0 radius : Z) :
  draw_circle_filled x0 y0 radius =
  flat_map (draw_circle_filled_spans x0 y0) (circle_driver radius).
Proof.
  unfold draw_circle_filled, circle_driver.
  rewrite (while_states_run _ _ circle_step (draw_circle_filled_spans x0 y0)
             (λ s, s.2 - s.1.2)); [done|done|apply circle_step_measure|].
  simpl. lia.
Qed.

Lemma outline_step_circle (s : outline_state) :
  (outline_step s).1.1 = circle_step s.1.1.
Proof.
  destruct s as [[c [[[i_y i_f] i_ddF_x] i_ddF_y]] thickness].
  unfold outline_step. simpl.
  destruct (circle_step c) as [[[[f ddF_x] ddF_y] x] y].
  by destruct (i_f >=? 0).
Qed.

Lemma draw_circle_bresenham_trace (x0 y0 radius thickness : Z) :
  draw_circle_bresenham x0 y0 radius thickness =
  flat_map (draw_circle_bresenham_arcs x0 y0) (outline_driver radius thickness).
Proof.
  unfold draw_circle_bresenham, outline_driver.
  rewrite (while_states_run _ _ outline_step (draw_circle_bresenham_arcs x0 y0)
             (λ s, s.1.1.2 - s.1.1.1.2)); [done|done| |simpl; lia].
  intros s Hc. rewrite outline_step_circle. by apply circle_step_measure.
Qed.

(** The outer driver of the outline rasteriser is the driver of the filled
    one. *)
Lemma outline_driver_circle (radius thickness : Z) :
  (λ s : outline_state, s.1.1) <$> outline_driver radius thickness =
  circle_driver radius.
Proof.
  unfold outline_driver, circle_driver.
  rewrite (while_states_fmap outline_cond outline_step circle_cond circle_step);
    [done|done|apply outline_step_circle].
Qed.

Lemma elem_of_flat_map_xy {St : Type} (F : St → Draw) (l : list St)
    (p : Z * Z) :
  p ∈ op_xy <$> flat_map F l ↔ ∃ s, s ∈ l ∧ p ∈ op_xy <$> F s.
Proof.
  rewrite list_elem_of_fmap. split.
  - intros (o & -> & Ho%list_elem_of_In%in_flat_map).
    destruct Ho as (s & Hs & Ho). exists s.
    split; [by apply list_elem_of_In|].
    apply list_elem_of_fmap. exists o. split; [done|by apply list_elem_of_In].
  - intros (s & Hs & (o & -> & Ho)%list_elem_of_fmap). exists o. split; [done|].
    apply list_elem_of_In, in_flat_map. exists s.
    split; by apply list_elem_of_In.
Qed.

Lemma elem_of_for_Z_xy (lo hi : Z) (body : Z → Draw) (p : Z * Z) :
  p ∈ op_xy <$> for_Z lo hi body ↔ ∃ v, lo ≤ v < hi ∧ p ∈ op_xy <$> body v.
Proof.
  unfold for_Z. rewrite elem_of_flat_map_xy. split.
  - intros (v & Hv%elem_of_seqZ & Hp). exists v. split; [lia|done].
  - intros (v & Hv & Hp). exists v. split; [|done]. apply elem_of_seqZ. lia.
Qed.

(** Driver positions: [x] is at least 1 and never more than one step past
    [y]. *)
Lemma circle_driver_position (radius : Z) (s : circle_state) :
  s ∈ circle_driver radius → 1 ≤ s.1.2 ≤ s.2 + 1 ∧ s.2 ≤ radius.
Proof.
  intros Hs.
  assert (∀ s0 : circle_state,
            s0 = circle_init radius ∨ s0 ∈ circle_driver radius →
            0 ≤ s0.1.2 ∧ s0.2 ≤ radius) as Hinv.
  { intros s0 [->|H0]; [simpl; lia|].
    eapply (while_states_invariant circle_cond circle_step
              (λ s, 0 ≤ s.1.2 ∧ s.2 ≤ radius)); [| |exact H0].
    - intros [[[[f ddF_x] ddF_y] x] y]. unfold circle_step. simpl.
      destruct (f >=? 0); simpl; lia.
    - simpl. lia. }
  apply while_states_elem in Hs as (s0 & H0 & Hc & ->).
  specialize (Hinv s0 H0). destruct s0 as [[[[f ddF_x] ddF_y] x] y].
  unfold circle_cond in Hc. apply Z.ltb_lt in Hc. unfold circle_step. simpl in *.
  destruct (f >=? 0); simpl; lia.
Qed.











Section CircleAPI.
Context `{SDL_API}.



End CircleAPI.


(** ** EllipseRaster *)











(** ** Degenerate inputs *)

Section Degenerate.
Context `{SDL_API}.

Lemma check_depth_ok (w : world) :
  1 ≤ BytesPerPixel (format (surface w)) ≤ 4 →
  check_depth (surface w) w = (inl tt, w).
Proof.
  intros Hd. unfold check_depth, return_if.
  replace (BytesPerPixel (format (surface w)) <=? 0) with false by lia.
  by replace (BytesPerPixel (format (surface w)) >? 4) with false by lia.
Qed.

Lemma CHECK_LOAD_COLOR_ok (w : world) (c : PyColor) :
  c ≠ ColorInvalid → ∃ color, CHECK_LOAD_COLOR (surface w) c w = (inl color, w).
Proof. destruct c; [by eexists..|done]. Qed.

(** C8: on a surface of supported depth and with a colour that converts,
    [circle] with [radius < 1] or [width < 0] and [line] with [width < 1]
    raise nothing, leave the world (every pixel of the surface included)
    as it is, and return the zero-size rectangle at their anchor: the
    centre of the circle, the start point of the line. *)
Theorem degenerate_circle_and_line_draw_nothing (w : world) (c : PyColor) :
  valid_target w c →
  (∀ posx posy radius width tr tl bl br,
     radius < 1 ∨ width < 0 →
     call (circle c (Some (posx, posy)) (Some radius) width tr tl bl br) w =
     (Return (mkRect posx posy 0 0), w)) ∧
  (∀ startx starty end_ width,
     width < 1 →
     call (line c (Some (startx, starty)) (Some end_) width) w =
     (Return (mkRect startx starty 0 0), w)).
Proof.
  intros [Hd Hc]. split.
  - intros posx posy radius width tr tl bl br Hdeg.
    unfold call, circle, bind, from_obj, ret, get_surface. cbn beta iota.
    rewrite (check_depth_ok w Hd).
    destruct (CHECK_LOAD_COLOR_ok w c Hc) as [color ->].
    unfold return_if. by replace ((radius <? 1) || (width <? 0)) with true by lia.
  - intros startx starty [endx endy] width Hdeg.
    unfold call, line, bind, from_obj, ret, get_surface. cbn beta iota.
    rewrite (check_depth_ok w Hd).
    destruct (CHECK_LOAD_COLOR_ok w c Hc) as [color ->].
    unfold return_if. by replace (width <? 1) with true by lia.
Qed.

End Degenerate.

Lemma degenerate_circle_and_line_draw_nothing_witness :
  valid_target (world_of (surface32 20 20 80 (λ _, 7))) (ColorInt 255) ∧
  call (@circle SDL_packed (ColorInt 255) (Some (10, 10)) (Some 0) 0 0 0 0 0)
       (world_of (surface32 20 20 80 (λ _, 7))) =
  (Return (mkRect 10 10 0 0), world_of (surface32 20 20 80 (λ _, 7))) ∧
  call (@line SDL_packed (ColorInt 255) (Some (2, 3)) (Some (9, 9)) 0)
       (world_of (surface32 20 20 80 (λ _, 7))) =
  (Return (mkRect 2 3 0 0), world_of (surface32 20 20 80 (λ _, 7))).
Proof.
  assert (valid_target (world_of (surface32 20 20 80 (λ _, 7))) (ColorInt 255))
    as Hv by (split; [simpl; lia|discriminate]).
  destruct (@degenerate_circle_and_line_draw_nothing SDL_packed _ _ Hv)
    as [Hcircle Hline].
  split; [exact Hv|]. split.
  - apply Hcircle. left. lia.
  - apply Hline. lia.
Defined.

(** ** The point count of [polygon] *)

Section PolygonPoints.
Context `{SDL_API}.




End PolygonPoints.


(** ** What the colour sampler reads *)



(** C1: on a 2 x 2 surface of 4-byte pixels whose rows are 16 bytes apart,
    clipped to its full extent, the sampler asked for the pixel (1, 1),
    which is inside the clip rectangle, loads the bytes 12 to 15: they
    belong to no pixel of the clip rectangle. Two buffers that agree on
    every byte of the clip rectangle and differ in byte 12 give different
    colours, and the antialiased line from (0, 0.5) to (1, 0.5) with
    [blend] set leaves different bytes in the pixel (1, 1). *)
Theorem aa_sampler_reads_outside_clip :
  let clip := mkRect 0 0 2 2 in
  let s1 := mkSurface RGBA8888 2 2 16 (λ _, 0) clip in
  let s2 := mkSurface RGBA8888 2 2 16 (λ a, if a =? 12 then 255 else 0) clip in
  let half_line :=
    @aaline SDL_packed (ColorInt 0) (Some (F32.of_int 0, F32.half))
            (Some (F32.of_int 1, F32.half)) 1 in
  (∀ a, clip_bytes s1 a → pixels s1 a = pixels s2 a) ∧
  outside_clip s1 1 1 = false ∧
  @get_antialiased_color SDL_packed s1 1 1 0 F32.half 1 = 0 ∧
  @get_antialiased_color SDL_packed s2 1 1 0 F32.half 1 = 127 ∧
  pixels (surface (call half_line (world_of s1)).2) 20 = 0 ∧
  pixels (surface (call half_line (world_of s2)).2) 20 = 127.
Proof.
  intros clip s1 s2 half_line. split; [|by vm_compute].
  intros a (x & y & Hin & Ha). unfold outside_clip in Hin. simpl in Hin.
  apply orb_false_elim in Hin as [Hin Hy2].
  apply orb_false_elim in Hin as [Hin Hy1].
  apply orb_false_elim in Hin as [Hx1 Hx2].
  unfold pixel_bytes in Ha. simpl in Ha |- *.
  destruct (Z.eqb_spec a 12) as [->|]; [lia|done].
Qed.

(** ** The blend of the colour sampler *)









(** ** Scratch arrays on the out-of-memory path *)

(** C9: [lines], [aalines] and [polygon] request their two coordinate
    arrays one after the other and test both results together. When the
    first request is granted and the second refused, each of them reports
    the memory error and returns with the first array, block 0, still
    allocated. *)
Theorem coordinate_array_survives_memory_error :
  let w := mkWorld (surface32 4 4 16 (λ _, 0)) [] ∅ 0 [true; false]
                   true true None in
  let no_memory (what : string) (r : result * world) :=
    r.1 = Raise (MemoryError what) ∧ live r.2 = {[0%nat]} in
  live w = ∅ ∧
  no_memory "cannot allocate memory to draw lines"%string
    (call (@lines SDL_packed (ColorInt 255) (Some false)
                  (Some [Some (0, 0); Some (3, 3)]) 1) w) ∧
  no_memory "cannot allocate memory to draw aalines"%string
    (call (@aalines SDL_packed (ColorInt 255) (Some false)
                    (Some [Some (F32.of_int 0, F32.of_int 0);
                           Some (F32.of_int 3, F32.of_int 3)]) 1) w) ∧
  no_memory "cannot allocate memory to draw polygon"%string
    (call (@polygon SDL_packed (ColorInt 255)
                    (Some [Some (0, 0); Some (3, 0); Some (3, 3)]) 0) w).
Proof.
  intros w no_memory. split; [done|].
  repeat split; try (by vm_compute); apply set_eq; intros b; vm_compute;
    set_solver.
Qed.

(** ** Errors and the surface

    Every primitive validates, allocates and locks before it draws, and the
    only request that can fail once drawing has begun is the unlock. *)

Section Outcomes.
Context `{SDL_API}.



























End Outcomes.





Section HelperOutcomes.
Context `{SDL_API}.



End HelperOutcomes.


Section PrimitiveOutcomes.
Context `{SDL_API} `{Libm}.











(** A computation that cannot go on ends the primitive. *)
Lemma triple_ends (area : drawn_area) (m : API result)
    (R : result → drawn_area → Prop) (w : world) :
  triple area m (λ _ _, False) R → ∃ r, m w = (inr r, (m w).2).
Proof.
  intros Hm. destruct (Hm w) as (area' & _ & Hr).
  destruct (m w) as [[a|r] w1]; simpl in *; [done | by exists r].
Qed.



End PrimitiveOutcomes.


(** ** Scratch blocks

    Apart from the combined test of the two coordinate arrays, which reports
    the memory error, every path of every primitive releases what it
    allocated. *)


(** Inclusions between sets of blocks, from the inclusions at hand. *)
Ltac blocks :=
  try done;
  repeat match goal with
         | H : _ ⊆ _ |- _ => rewrite elem_of_subseteq in H
         end;
  try rewrite elem_of_subseteq; try intros ? ?;
  repeat match goal with
         | H : ∀ x, x ∈ ?X → _, Hb : ?b ∈ ?X |- _ => apply H in Hb
         | Hb : _ ∈ _ ∖ _ |- _ => apply elem_of_difference in Hb as [? ?]
         | Hb : _ ∈ _ ∪ _ |- _ => apply elem_of_union in Hb as [?|?]
         | Hb : _ ∈ ∅ |- _ => by apply elem_of_empty in Hb
         | Hb : ¬ _ ∈ _ ∪ _ |- _ => apply not_elem_of_union in Hb as [? ?]
         end;
  repeat first [ assumption | done
               | apply elem_of_difference; split
               | apply not_elem_of_union; split
               | apply not_elem_of_empty ].

Section Blocks.
Context `{SDL_API}.

Lemma frees_intro {A} (B : gset nat) (m : API A) :
  (∀ w, live (m w).2 ⊆ live w ∖ B) → frees B m.
Proof. intros Hm w. specialize (Hm w). by destruct (m w).1 as [?|[?|[]]]. Qed.

Lemma frees_bind {A B} (m : API A) (k : A → API B) (X : gset nat) :
  frees X m → (∀ a, frees ∅ (k a)) → frees X (bind m k).
Proof.
  intros Hm Hk w. unfold bind. specialize (Hm w).
  destruct (m w) as [[a|r] w1]; simpl in *.
  - specialize (Hk a w1).
    destruct (k a w1) as [[b|[?|[]]] w2]; simpl in *; blocks.
  - by destruct r as [?|[]].
Qed.

Lemma frees_bind_pass {A B} (m : API A) (k : A → API B) (X : gset nat) :
  goes_on m → frees ∅ m → (∀ a, frees X (k a)) → frees X (bind m k).
Proof.
  intros Hgo Hm Hk w. unfold bind. specialize (Hm w).
  destruct (Hgo w) as [a Ha].
  destruct (m w) as [[a'|r] w1]; simpl in *; [|done].
  specialize (Hk a' w1).
  destruct (k a' w1) as [[b|[?|[]]] w2]; simpl in *; blocks.
Qed.

Lemma frees_bind_Del {B} (b : nat) (k : unit → API B) (X : gset nat) :
  (∀ a, frees X (k a)) → frees ({[b]} ∪ X) (bind (PyMem_Del (Some b)) k).
Proof.
  intros Hk w. unfold bind, PyMem_Del. specialize (Hk tt).
  match goal with |- context [k tt ?w1] => specialize (Hk w1) end.
  destruct (k tt _) as [[a|[?|[]]] w2]; simpl in *; blocks.
Qed.

Lemma frees_weaken {A} (m : API A) (X : gset nat) : frees X m → frees ∅ m.
Proof.
  intros Hm w. specialize (Hm w).
  destruct (m w) as [[a|[?|[]]] w1]; simpl in *; blocks.
Qed.

Lemma frees_ret {A} (a : A) : frees ∅ (ret a).
Proof. apply frees_intro. intros w. simpl. blocks. Qed.

Lemma frees_return {A} (r : result) : frees ∅ (@return_ A r).
Proof. intros w. simpl. destruct r as [?|[]]; blocks. Qed.

Lemma frees_return_if (c : bool) (r : result) : frees ∅ (return_if c r).
Proof. destruct c; [apply frees_return | apply frees_ret]. Qed.

Lemma frees_from_obj {A} (o : option A) (e : exn) : frees ∅ (from_obj o e).
Proof. destruct o; [apply frees_ret | apply frees_return]. Qed.

Lemma frees_get_surface : frees ∅ get_surface.
Proof. apply frees_intro. intros w. simpl. blocks. Qed.

Lemma frees_pgSurface_Lock : frees ∅ pgSurface_Lock.
Proof. apply frees_intro. intros w. simpl. blocks. Qed.

Lemma frees_check_depth (surf : SDL_Surface) : frees ∅ (check_depth surf).
Proof. apply frees_return_if. Qed.

Lemma frees_CHECK_LOAD_COLOR (surf : SDL_Surface) (c : PyColor) :
  frees ∅ (CHECK_LOAD_COLOR surf c).
Proof. destruct c; first [apply frees_ret | apply frees_return]. Qed.

Lemma frees_lock_or_raise : frees ∅ lock_or_raise.
Proof.
  apply frees_bind; [apply frees_pgSurface_Lock |].
  intros ?. apply frees_return_if.
Qed.

Lemma frees_unlock_or_raise : frees ∅ unlock_or_raise.
Proof.
  apply frees_bind; [|intros ?; apply frees_return_if].
  apply frees_intro. intros w. simpl. blocks.
Qed.

Lemma frees_paint (color blend : Z) (ops : Draw) (area : drawn_area) :
  frees ∅ (paint color blend ops area).
Proof.
  apply frees_intro. intros w. unfold paint.
  destruct (run _ _ _ _). simpl. blocks.
Qed.

Lemma goes_on_paint (color blend : Z) (ops : Draw) (area : drawn_area) :
  goes_on (paint color blend ops area).
Proof. intros w. unfold paint. destruct (run _ _ _ _). by eexists. Qed.

Lemma goes_on_pgSurface_Lock : goes_on pgSurface_Lock.
Proof. intros w. by eexists. Qed.

Lemma frees_draw_fillpoly (color : Z) (px py : list Z) (n : Z)
    (area : drawn_area) :
  frees ∅ (draw_fillpoly color px py n area).
Proof.
  apply frees_intro. intros w.
  unfold draw_fillpoly, bind, PyMem_New, paint, PyMem_Del, PyErr_NoMemory, ret.
  destruct (alloc_plan w) as [|[] plan]; simpl;
    try destruct (run _ _ _ _); simpl; blocks.
Qed.

Lemma goes_on_draw_fillpoly (color : Z) (px py : list Z) (n : Z)
    (area : drawn_area) :
  goes_on (draw_fillpoly color px py n area).
Proof.
  intros w.
  unfold draw_fillpoly, bind, PyMem_New, paint, PyMem_Del, PyErr_NoMemory, ret.
  destruct (alloc_plan w) as [|[] plan]; simpl;
    try destruct (run _ _ _ _); simpl; by eexists.
Qed.

Lemma frees_draw_round_rect (color x1 y1 x2 y2 radius width : Z)
    (tl tr bl br : Z) (area : drawn_area) :
  frees ∅ (draw_round_rect color x1 y1 x2 y2 radius width tl tr bl br area).
Proof.
  unfold draw_round_rect.
  destruct (round_rect_radii _ _ _ _ _ _ _ _ _) as [[[? ?] ?] ?].
  destruct (width =? 0); [|apply frees_paint].
  apply frees_bind; [apply frees_draw_fillpoly | intros ?; apply frees_paint].
Qed.

(** The two coordinate arrays: when both requests are granted, what
    follows has to release both. *)
Lemma frees_coordinate_arrays {B} (msg : string)
    (k : option nat → option nat → API B) :
  (∀ b1 b2, frees ({[b1]} ∪ ({[b2]} ∪ ∅)) (k (Some b1) (Some b2))) →
  frees ∅ (let* xlist := PyMem_New in
           let* ylist := PyMem_New in
           do return_if (bool_decide (xlist = None) ||
                         bool_decide (ylist = None))
                        (Raise (MemoryError msg)) then
           k xlist ylist).
Proof.
  intros Hk w. unfold bind, PyMem_New.
  destruct (alloc_plan w) as [|[] [|[] plan]]; simpl; try done.
  all: match goal with
       | |- context [?f (Some ?b1) (Some ?b2) ?w1] =>
           specialize (Hk b1 b2 w1);
           destruct (f (Some b1) (Some b2) w1) as [[a|[?|[]]] w2];
           simpl in *; blocks
       end.
Qed.

End Blocks.

Ltac frees_atom :=
  first [ apply frees_ret | apply frees_return | apply frees_return_if
        | apply frees_from_obj | apply frees_get_surface
        | apply frees_pgSurface_Lock | apply frees_check_depth
        | apply frees_CHECK_LOAD_COLOR | apply frees_lock_or_raise
        | apply frees_unlock_or_raise | apply frees_paint
        | apply frees_draw_fillpoly | apply frees_draw_round_rect ].

Ltac frees_step :=
  lazymatch goal with
  | |- frees _ (bind PyMem_New _) =>
      apply frees_coordinate_arrays; intros ? ?
  | |- frees _ (bind (PyMem_Del (Some _)) _) =>
      apply frees_bind_Del; intros ?
  | |- frees _ (bind pgSurface_Lock _) =>
      apply frees_bind_pass;
      [apply goes_on_pgSurface_Lock | apply frees_pgSurface_Lock | intros ?]
  | |- frees _ (bind (paint _ _ _ _) _) =>
      apply frees_bind_pass;
      [apply goes_on_paint | apply frees_paint | intros ?]
  | |- frees _ (bind (draw_fillpoly _ _ _ _ _) _) =>
      apply frees_bind_pass;
      [apply goes_on_draw_fillpoly | apply frees_draw_fillpoly | intros ?]
  | |- frees _ (bind (if ?c then _ else _) _) => destruct c eqn:?
  | |- frees _ (bind _ _) => apply frees_bind; [frees_atom | intros ?]
  | |- frees _ (if ?c then _ else _) => destruct c eqn:?
  | |- frees _ (match ?x with _ => _ end) => destruct x eqn:?
  | |- frees _ _ => frees_atom
  end.

Section PrimitiveBlocks.
Context `{SDL_API} `{Libm}.

Lemma frees_line (c : PyColor) (start end_ : option (Z * Z)) (width : Z) :
  frees ∅ (line c start end_ width).
Proof. unfold line. repeat frees_step. Qed.

Lemma frees_aaline (c : PyColor) (start end_ : option (F32.t * F32.t))
    (blend : Z) :
  frees ∅ (aaline c start end_ blend).
Proof. unfold aaline. repeat frees_step. Qed.

Lemma frees_lines (c : PyColor) (closed : option bool)
    (points : option (list (option (Z * Z)))) (width : Z) :
  frees ∅ (lines c closed points width).
Proof. unfold lines. repeat frees_step. Qed.

Lemma frees_aalines (c : PyColor) (closed : option bool)
    (points : option (list (option (F32.t * F32.t)))) (blend : Z) :
  frees ∅ (aalines c closed points blend).
Proof. unfold aalines. repeat frees_step. Qed.

Lemma frees_polygon (c : PyColor) (points : option (list (option (Z * Z))))
    (width : Z) :
  frees ∅ (polygon c points width).
Proof.
  unfold polygon. destruct (negb (width =? 0)); [apply frees_lines|].
  repeat frees_step.
Qed.

Lemma frees_ellipse (c : PyColor) (r : option SDL_Rect) (width : Z) :
  frees ∅ (ellipse c r width).
Proof. unfold ellipse. repeat frees_step. Qed.

Lemma frees_circle (c : PyColor) (pos : option (Z * Z)) (radius : option Z)
    (width tr tl bl br : Z) :
  frees ∅ (circle c pos radius width tr tl bl br).
Proof. unfold circle. repeat frees_step. Qed.

Lemma frees_rect (c : PyColor) (r : option SDL_Rect) (width radius : Z)
    (tl tr bl br : Z) :
  frees ∅ (rect c r width radius tl tr bl br).
Proof.
  unfold rect. do 5 frees_step. frees_step; [apply frees_polygon|].
  repeat frees_step.
Qed.

Lemma frees_arc_prologue (c : PyColor) (r : option SDL_Rect) (a0 a1 : F64.t)
    (width : Z) :
  frees ∅ (arc_prologue c r a0 a1 width).
Proof. unfold arc_prologue. repeat frees_step. Qed.

Lemma frees_arc_epilogue (color : Z) (r : SDL_Rect) (ops : Draw) :
  frees ∅ (arc_epilogue color r ops).
Proof. unfold arc_epilogue. repeat frees_step. Qed.

Lemma frees_call (area : drawn_area) (m : API result)
    (R : result → drawn_area → Prop) (w w' : world) (res : result) :
  triple area m (λ _ _, False) R → frees ∅ m →
  call m w = (res, w') → (∀ msg, res ≠ Raise (MemoryError msg)) →
  live w' ⊆ live w.
Proof.
  intros Ht Hm Hc Hne. destruct (triple_ends area m R w Ht) as [r Hr].
  specialize (Hm w). unfold call in Hc. rewrite Hr in Hc, Hm.
  simpl in *. injection Hc as -> <-.
  destruct res as [?|[]]; try blocks. by destruct (Hne msg).
Qed.

(** X3: unless it reports a memory error, a primitive returns with every
    scratch block it allocated released: no block is allocated after the
    call that was not before. *)
Theorem scratch_blocks_released (fuel : nat) (p : primitive)
    (w w' : world) (res : result) :
  invoke fuel p w = Some (res, w') →
  (∀ msg, res ≠ Raise (MemoryError msg)) →
  live w' ⊆ live w.
Proof.
  intros Hinv Hne.
  destruct p; simpl in Hinv;
    try (injection Hinv as Hinv;
         first [ eapply frees_call;
                 [apply triple_aaline | apply frees_aaline | done | done]
               | eapply frees_call;
                 [apply triple_line | apply frees_line | done | done]
               | eapply frees_call;
                 [apply triple_aalines | apply frees_aalines | done | done]
               | eapply frees_call;
                 [apply triple_lines | apply frees_lines | done | done]
               | eapply frees_call;
                 [apply triple_ellipse | apply frees_ellipse | done | done]
               | eapply frees_call;
                 [apply triple_circle | apply frees_circle | done | done]
               | eapply frees_call;
                 [apply triple_polygon | apply frees_polygon | done | done]
               | eapply frees_call;
                 [apply triple_rect | apply frees_rect | done | done] ]).
  unfold arc in Hinv.
  pose proof (frees_arc_prologue color r start_angle stop_angle width w) as Hpro.
  destruct (arc_prologue _ _ _ _ _ w) as [[[[[col rc] wd] stop]|r0] w1];
    simpl in *.
  - destruct (arc_loop fuel rc wd start_angle stop) as [ops|]; [|done].
    simpl in Hinv. injection Hinv as Hinv.
    assert (live w' ⊆ live w1) as Hepi.
    { eapply frees_call;
        [apply triple_arc_epilogue | apply frees_arc_epilogue | done | done]. }
    blocks.
  - injection Hinv as -> <-. destruct res as [?|[]]; try blocks.
    by destruct (Hne msg).
Qed.

End PrimitiveBlocks.

Lemma scratch_blocks_released_witness :
  let w := mkWorld (surface32 4 4 16 (λ _, 0)) [] {[7%nat]} 8 [] true true
                   None in
  let p := Polygon (ColorInt 255)
                   (Some [Some (0, 0); Some (3, 0); Some (3, 3)]) 0 in
  ∃ r w', @invoke SDL_packed libm_unused 0 p w = Some (Return r, w') ∧
          live w' ⊆ live w.
Proof.
  intros w p.
  assert (∃ r w', @invoke SDL_packed libm_unused 0 p w = Some (Return r, w'))
    as (r & w' & Hinv) by (vm_compute; eauto).
  exists r, w'. split; [exact Hinv|].
  apply (@scratch_blocks_released SDL_packed libm_unused 0%nat p w w' _ Hinv).
  intros msg. discriminate.
Defined.

(** ** Validation comes first *)

Section Validation.
Context `{SDL_API} `{Libm}.

(** Unfolding a primitive down to its first checks. *)
Ltac unfold_checks :=
  unfold aaline, line, aalines, lines, ellipse, arc, arc_prologue, circle,
    polygon, rect, call, bind, from_obj, get_surface, check_depth,
    CHECK_LOAD_COLOR, return_if, ret, return_.

Lemma argument_error_raised (fuel : nat) (p : primitive) (w : world)
    (e : exn) :
  argument_error p = Some e → invoke fuel p w = Some (Raise e, w).
Proof.
  intros He.
  destruct p; simpl in He; try done;
    repeat match goal with
           | H : context [match ?x with _ => _ end] |- _ => destruct x
           end;
    simplify_eq;
    repeat match goal with x : (_ * _)%type |- _ => destruct x end;
    reflexivity.
Qed.

Lemma depth_error_raised (fuel : nat) (p : primitive) (w : world) :
  argument_error p = None →
  (BytesPerPixel (format (surface w)) <=? 0) ||
    (BytesPerPixel (format (surface w)) >? 4) = true →
  invoke fuel p w =
    Some (Raise (ValueError "unsupported surface bit depth for drawing"), w).
Proof.
  intros Ha Hd.
  destruct p; simpl in Ha;
    repeat match goal with
           | H : context [match ?x with _ => _ end] |- _ => destruct x
           end;
    try done;
    repeat match goal with x : (_ * _)%type |- _ => destruct x end;
    simpl; unfold_checks;
    try destruct (negb (width =? 0)); unfold_checks; by rewrite Hd.
Qed.

Lemma color_error_raised (fuel : nat) (p : primitive) (w : world) :
  argument_error p = None →
  (BytesPerPixel (format (surface w)) <=? 0) ||
    (BytesPerPixel (format (surface w)) >? 4) = false →
  color_of p = ColorInvalid →
  invoke fuel p w = Some (Raise (TypeError "invalid color argument"), w).
Proof.
  intros Ha Hd Hc.
  destruct p; simpl in Ha, Hc; subst;
    repeat match goal with
           | H : context [match ?x with _ => _ end] |- _ => destruct x
           end;
    try done;
    repeat match goal with x : (_ * _)%type |- _ => destruct x end;
    simpl; unfold_checks;
    try destruct (negb (width =? 0)); unfold_checks; by rewrite Hd.
Qed.

(** X4: a call whose rectangle, centre or radius does not convert, whose
    surface has an unsupported depth or whose colour does not convert
    raises the error of the first of these checks that fails, and nothing
    else has happened: no allocation was requested, no lock taken, no pixel
    stored. *)
Theorem validation_comes_first (fuel : nat) (p : primitive) (w : world)
    (e : exn) :
  validation_error w p = Some e → invoke fuel p w = Some (Raise e, w).
Proof.
  unfold validation_error. intros He.
  destruct (argument_error p) as [e'|] eqn:Ha.
  - injection He as ->. by apply argument_error_raised.
  - destruct (_ || _) eqn:Hd.
    + injection He as <-. by apply depth_error_raised.
    + destruct (bool_decide _) eqn:Hc; [|done]. injection He as <-.
      apply bool_decide_eq_true in Hc. by apply color_error_raised.
Qed.

End Validation.

Lemma validation_comes_first_witness :
  let w := world_of (surface32 4 4 16 (λ _, 0)) in
  let p := Ellipse ColorInvalid (Some (mkRect 0 0 4 4)) 1 in
  validation_error w p = Some (TypeError "invalid color argument") ∧
  @invoke SDL_packed libm_unused 0 p w =
    Some (Raise (TypeError "invalid color argument"), w).
Proof.
  intros w p.
  assert (validation_error w p = Some (TypeError "invalid color argument"))
    as He by reflexivity.
  split; [exact He|].
  exact (@validation_comes_first SDL_packed libm_unused 0%nat p w _ He).
Defined.

(** A filled circle of radius 3 around (2, 2) on a 4 x 4 surface clipped to
    its middle 2 x 2 pixels: the four pixels of the clip rectangle are
    stored and nothing else. *)
Lemma primitives_write_inside_clip_witness :
  let w := world_of (mkSurface RGBA8888 4 4 16 (λ _, 9) (mkRect 1 1 2 2)) in
  let m := @circle SDL_packed (ColorInt 255) (Some (2, 2)) (Some 3) 0 0 0 0 0 in
  let w' := (call m w).2 in
  stored_during w w' =
    [(2, 1); (1, 1); (2, 2); (1, 2)] ∧
  (∀ q, q ∈ stored_during w w' → outside_clip (surface w) q.1 q.2 = false) ∧
  (∀ a, ¬ clip_bytes (surface w) a →
        pixels (surface w') a = pixels (surface w) a).
Proof.
  intros w m w'.
  assert (@invoke SDL_packed libm_unused 0
            (Circle (ColorInt 255) (Some (2, 2)) (Some 3) 0 0 0 0 0) w =
          Some ((call m w).1, w')) as Hinv.
  { unfold invoke, w', m. by destruct (call _ w). }
  destruct (@primitives_write_inside_clip SDL_packed libm_unused 0%nat _ w w'
              _ Hinv) as [Hin Hout].
  split; [by vm_compute|]. split; [exact Hin|].
  apply Hout. right. right. left. reflexivity.
Defined.

(** ** How close [draw_line] stays to the segment *)





(** ** Translating and thickening lines *)









(** ** Extent and symmetry of the circles *)

Lemma circle_driver_bounds (radius : Z) (s : circle_state) :
  s ∈ circle_driver radius → 1 ≤ s.1.2 ≤ radius ∧ 0 ≤ s.2 ≤ radius.
Proof.
  intros Hs. apply while_states_elem in Hs as (s0 & H0 & Hc & ->).
  assert (0 ≤ s0.1.2 ∧ s0.2 ≤ radius) as Hinv.
  { destruct H0 as [->|H0]; [simpl; lia|].
    apply circle_driver_position in H0. lia. }
  destruct s0 as [[[[f ddF_x] ddF_y] x] y].
  unfold circle_cond in Hc. apply Z.ltb_lt in Hc. unfold circle_step.
  simpl in *. destruct (f >=? 0); simpl; lia.
Qed.

Lemma elem_of_pair_list (a b c d : Z) (q : Z * Z) :
  q ∈ [(a, b); (c, d)] ↔ q = (a, b) ∨ q = (c, d).
Proof. rewrite !elem_of_cons, elem_of_nil. tauto. Qed.

(** The pixels of the spans [draw_circle_filled] draws at a driver
    position. *)
Lemma filled_spans_elem (x0 y0 : Z) (s : circle_state) (p : Z * Z) :
  p ∈ op_xy <$> draw_circle_filled_spans x0 y0 s ↔
  (∃ y1, y0 - s.1.2 ≤ y1 < y0 + s.1.2 ∧
         (p = (x0 + s.2 - 1, y1) ∨ p = (x0 - s.2, y1))) ∨
  (∃ y1, y0 - s.2 ≤ y1 < y0 + s.2 ∧
         (p = (x0 + s.1.2 - 1, y1) ∨ p = (x0 - s.1.2, y1))).
Proof.
  destruct s as [[[[f ddF_x] ddF_y] x] y]. simpl.
  unfold draw_circle_filled_spans. rewrite fmap_app, elem_of_app.
  rewrite !elem_of_for_Z_xy. unfold set_at_. simpl.
  by setoid_rewrite elem_of_pair_list.
Qed.

(** The pixels [draw_circle_bresenham] draws at a driver position: the
    octant pixels of the radii [y], [y - 1], ..., as many as the current
    thickness, that are not below the diagonal. *)
Lemma outline_arcs_elem (x0 y0 : Z) (s : outline_state) (p : Z * Z) :
  p ∈ op_xy <$> draw_circle_bresenham_arcs x0 y0 s ↔
  ∃ i, 0 ≤ i < s.2 ∧ s.1.1.1.2 ≤ s.1.1.2 - i ∧
       p ∈ octants x0 y0 (0, 0, 0, s.1.1.1.2, s.1.1.2 - i).
Proof.
  destruct s as [[[[[[f ddF_x] ddF_y] x] y] ?] thickness]. simpl.
  unfold draw_circle_bresenham_arcs. rewrite elem_of_for_Z_xy.
  split; intros (i & Hi & Hp); exists i; (split; [done|]).
  - unfold set_at_ in Hp. rewrite !fmap_app in Hp.
    repeat (apply elem_of_app in Hp as [Hp|Hp]);
      match type of Hp with
      | context [if ?c then _ else _] => destruct c eqn:Hc
      end; simpl in Hp;
      repeat (apply elem_of_cons in Hp as [->|Hp]);
      try (by apply elem_of_nil in Hp);
      (split; [lia|]); rewrite !elem_of_cons; tauto.
  - destruct Hp as [Hxy Hp].
    replace (y0 + (y - i) - 1 >=? y0 + x - 1) with true by lia.
    replace (y0 - (y - i) <=? y0 - x) with true by lia.
    replace (x0 + (y - i) - 1 >=? x0 + x - 1) with true by lia.
    replace (x0 - (y - i) <=? x0 - x) with true by lia.
    unfold set_at_. simpl. rewrite !elem_of_cons in Hp |- *. tauto.
Qed.

(** Picking the octant pixel a pixel is equal to. *)
Ltac pick_octant :=
  rewrite ?elem_of_cons;
  repeat first [ left; apply pair_equal_spec; split; lia | right ].

Lemma octants_symmetric (x0 y0 : Z) (s : circle_state) (p : Z * Z) :
  p ∈ octants x0 y0 s →
  mirror_x x0 p ∈ octants x0 y0 s ∧ mirror_y y0 p ∈ octants x0 y0 s ∧
  transpose_at x0 y0 p ∈ octants x0 y0 s.
Proof.
  destruct s as [[[[f ddF_x] ddF_y] x] y].
  unfold octants, mirror_x, mirror_y, transpose_at. intros Hp.
  repeat (apply elem_of_cons in Hp as [->|Hp]);
    try (by apply elem_of_nil in Hp); simpl;
    (split; [|split]); pick_octant.
Qed.

Lemma octants_in_box (x0 y0 r : Z) (s : circle_state) (p : Z * Z) :
  1 ≤ s.1.2 ≤ r → 1 ≤ s.2 ≤ r →
  p ∈ octants x0 y0 s → in_circle_box x0 y0 r p.
Proof.
  destruct s as [[[[f ddF_x] ddF_y] x] y]. simpl. intros Hx Hy Hp.
  unfold octants, in_circle_box in *.
  repeat (apply elem_of_cons in Hp as [->|Hp]);
    try (by apply elem_of_nil in Hp); simpl; lia.
Qed.

Lemma mirror_x_involutive (x0 : Z) (p : Z * Z) :
  mirror_x x0 (mirror_x x0 p) = p.
Proof. destruct p. unfold mirror_x. simpl. f_equal. lia. Qed.

Lemma mirror_y_involutive (y0 : Z) (p : Z * Z) :
  mirror_y y0 (mirror_y y0 p) = p.
Proof. destruct p. unfold mirror_y. simpl. f_equal. lia. Qed.

Lemma transpose_at_involutive (x0 y0 : Z) (p : Z * Z) :
  transpose_at x0 y0 (transpose_at x0 y0 p) = p.
Proof. destruct p. unfold transpose_at. simpl. f_equal; lia. Qed.

Lemma filled_spans_mirror (x0 y0 : Z) (s : circle_state) (p : Z * Z) :
  p ∈ op_xy <$> draw_circle_filled_spans x0 y0 s →
  mirror_x x0 p ∈ op_xy <$> draw_circle_filled_spans x0 y0 s ∧
  mirror_y y0 p ∈ op_xy <$> draw_circle_filled_spans x0 y0 s.
Proof.
  rewrite !filled_spans_elem. unfold mirror_x, mirror_y.
  intros [(y1 & Hy & [-> | ->])|(y1 & Hy & [-> | ->])]; simpl; split.
  all: first
    [ left; exists y1; split; [lia|];
      first [left; f_equal; lia | right; f_equal; lia]
    | left; exists (2 * y0 - 1 - y1); split; [lia|];
      first [left; f_equal; lia | right; f_equal; lia]
    | right; exists y1; split; [lia|];
      first [left; f_equal; lia | right; f_equal; lia]
    | right; exists (2 * y0 - 1 - y1); split; [lia|];
      first [left; f_equal; lia | right; f_equal; lia] ].
Qed.

(** X8: the filled circle lies in the square of side [2 * radius] around
    its centre, and it is its own mirror image in both axes through the
    centre. *)
Theorem draw_circle_filled_extent_and_symmetry (x0 y0 radius : Z)
    (p : Z * Z) :
  let disc := op_xy <$> draw_circle_filled x0 y0 radius in
  (p ∈ disc → in_circle_box x0 y0 radius p) ∧
  (p ∈ disc ↔ mirror_x x0 p ∈ disc) ∧
  (p ∈ disc ↔ mirror_y y0 p ∈ disc).
Proof.
  intros disc. unfold disc. rewrite draw_circle_filled_trace.
  assert (∀ q, q ∈ op_xy <$> flat_map (draw_circle_filled_spans x0 y0)
                                      (circle_driver radius) →
               mirror_x x0 q ∈ op_xy <$> flat_map (draw_circle_filled_spans x0 y0)
                                                  (circle_driver radius) ∧
               mirror_y y0 q ∈ op_xy <$> flat_map (draw_circle_filled_spans x0 y0)
                                                  (circle_driver radius))
    as Hmirror.
  { intros q (s & Hs & Hq)%elem_of_flat_map_xy.
    destruct (filled_spans_mirror x0 y0 s q Hq) as [Hx Hy].
    split; apply elem_of_flat_map_xy; by exists s. }
  split; [|split].
  - intros (s & Hs & Hp)%elem_of_flat_map_xy.
    apply circle_driver_bounds in Hs. apply filled_spans_elem in Hp.
    unfold in_circle_box.
    destruct Hp as [(y1 & Hy & [-> | ->])|(y1 & Hy & [-> | ->])]; simpl; lia.
  - split; [apply Hmirror|]. intros Hq.
    rewrite <- (mirror_x_involutive x0 p). by apply Hmirror.
  - split; [apply Hmirror|]. intros Hq.
    rewrite <- (mirror_y_involutive y0 p). by apply Hmirror.
Qed.

(** X9: the outline circle of any thickness lies in the same square, and it
    is its own image under the mirrorings in both axes through the centre
    and under the exchange of the two axes. *)
Theorem draw_circle_bresenham_extent_and_symmetry (x0 y0 radius thickness : Z)
    (p : Z * Z) :
  let ring := op_xy <$> draw_circle_bresenham x0 y0 radius thickness in
  (p ∈ ring → in_circle_box x0 y0 radius p) ∧
  (p ∈ ring ↔ mirror_x x0 p ∈ ring) ∧
  (p ∈ ring ↔ mirror_y y0 p ∈ ring) ∧
  (p ∈ ring ↔ transpose_at x0 y0 p ∈ ring).
Proof.
  intros ring. unfold ring. rewrite draw_circle_bresenham_trace.
  set (plotted := op_xy <$> flat_map (draw_circle_bresenham_arcs x0 y0)
                                     (outline_driver radius thickness)).
  assert (∀ q, q ∈ plotted →
               mirror_x x0 q ∈ plotted ∧ mirror_y y0 q ∈ plotted ∧
               transpose_at x0 y0 q ∈ plotted) as Hsym.
  { intros q (s & Hs & Hq)%elem_of_flat_map_xy.
    apply outline_arcs_elem in Hq as (i & Hi & Hxy & Hq).
    destruct (octants_symmetric _ _ _ _ Hq) as (Hx & Hy & Ht).
    repeat split; apply elem_of_flat_map_xy; exists s; (split; [done|]);
      apply outline_arcs_elem; by exists i. }
  split; [|repeat split].
  - intros (s & Hs & Hp)%elem_of_flat_map_xy.
    apply outline_arcs_elem in Hp as (i & Hi & Hxy & Hp).
    assert (s.1.1 ∈ circle_driver radius) as Hc.
    { rewrite <- (outline_driver_circle radius thickness).
      apply list_elem_of_fmap. by exists s. }
    apply circle_driver_bounds in Hc.
    apply (octants_in_box x0 y0 radius) in Hp; [done|simpl; lia..].
  - apply Hsym.
  - intros Hq. rewrite <- (mirror_x_involutive x0 p). by apply Hsym.
  - apply Hsym.
  - intros Hq. rewrite <- (mirror_y_involutive y0 p). by apply Hsym.
  - apply Hsym.
  - intros Hq. rewrite <- (transpose_at_involutive x0 y0 p). by apply Hsym.
Qed.

(** ** Filling a rectangle *)

(** The pixels of a horizontal line. *)
Lemma draw_line_horizontal (x1 x2 y : Z) (p : Z * Z) :
  p ∈ op_xy <$> draw_line x1 y x2 y ↔
  p.2 = y ∧ Z.min x1 x2 ≤ p.1 ≤ Z.max x1 x2.
Proof.
  rewrite draw_line_closed_form, line_pixels_xmajor by lia.
  rewrite xmajor_elem. replace (y - y) with 0 by lia. simpl Z.abs.
  assert (∀ n, bres (Z.abs (x2 - x1)) 0 n = 0) as Hb.
  { intros n. destruct (decide (Z.abs (x2 - x1) = 0)) as [->|].
    - unfold bres. by rewrite Z.div_0_r.
    - apply bres_minor_0. lia. }
  setoid_rewrite Hb. destruct p as [px py]. simpl. split.
  - intros (n & Hn & [= -> ->]). destruct (Z.ltb_spec x1 x2); lia.
  - intros [-> Hx]. destruct (Z.ltb_spec x1 x2).
    + exists (px - x1). split; [lia|]. f_equal; lia.
    + exists (x1 - px). split; [lia|]. f_equal; lia.
Qed.





(** ** Running a fill to completion *)

Section FillRuns.
Context `{SDL_API}.

Lemma call_bind {A} (m : API A) (k : A → API result) (w w1 : world) (a : A) :
  m w = (inl a, w1) → call (bind m k) w = call (k a) w1.
Proof. intros Hm. unfold call, bind. by rewrite Hm. Qed.

Lemma PyMem_New_granted (n : nat) (w : world) :
  (∀ b, b ∈ take (S n) (alloc_plan w) → b = true) →
  ∃ w1, PyMem_New w = (inl (Some (next_block w)), w1) ∧ granted n w w1.
Proof.
  intros Hplan. unfold PyMem_New, granted.
  destruct (alloc_plan w) as [|[] plan] eqn:Hp.
  - eexists. split; [done|]. simpl. repeat split; try done.
    intros b Hb. rewrite take_nil in Hb. by apply elem_of_nil in Hb.
  - eexists. split; [done|]. simpl. repeat split; try done.
    intros b Hb. apply Hplan. simpl. by apply list_elem_of_further.
  - assert (false = true); [|done]. apply Hplan. simpl.
    apply list_elem_of_here.
Qed.

Lemma mapM_id_Some {A} (pts : list A) : mapM id (Some <$> pts) = Some pts.
Proof. by apply mapM_fmap_Some. Qed.





End FillRuns.



(** ** Widths out of range *)

Section Widths.
Context `{SDL_API} `{Libm}.

Lemma lock_or_raise_ok (w : world) :
  lock_ok w = true → lock_or_raise w = (inl tt, w).
Proof.
  intros Hl. unfold lock_or_raise, bind, pgSurface_Lock, return_if.
  by rewrite Hl.
Qed.

Lemma unlock_or_raise_ok (w : world) :
  unlock_ok w = true → unlock_or_raise w = (inl tt, w).
Proof.
  intros Hl. unfold unlock_or_raise, bind, pgSurface_Unlock, return_if.
  by rewrite Hl.
Qed.

(** What [paint] does to the world. *)
Lemma paint_runs (color blend : Z) (ops : Draw) (area : drawn_area)
    (w : world) :
  ∃ w', paint color blend ops area w =
          (inl (accumulate area (written (surface w) ops)), w') ∧
        stored w' = stored w ++ written (surface w) ops ∧
        live w' = live w ∧ unlock_ok w' = unlock_ok w.
Proof.
  unfold paint.
  pose proof (run_spec color blend ops (surface w) area) as [_ Harea].
  destruct (run color blend ops (surface w, area)) as [surf' area'].
  simpl in *. subst area'. by eexists.
Qed.

(** X12: a circle whose width is at least its radius is drawn filled: when
    nothing fails, the call is the one with width 0, and the pixels stored
    are those of [draw_circle_filled] inside the clip rectangle. *)
Theorem circle_as_wide_as_radius_is_filled (w : world) (c : PyColor)
    (x y r width : Z) :
  valid_target w c → lock_ok w = true → unlock_ok w = true →
  1 ≤ r ≤ width →
  call (circle c (Some (x, y)) (Some r) width 0 0 0 0) w =
    call (circle c (Some (x, y)) (Some r) 0 0 0 0 0) w ∧
  stored_during w (call (circle c (Some (x, y)) (Some r) width 0 0 0 0) w).2 =
    written (surface w) (draw_circle_filled x y r).
Proof.
  intros [Hd Hc] Hlock Hunlock Hr.
  destruct (CHECK_LOAD_COLOR_ok w c Hc) as [color Hcol].
  assert (∀ wd, wd = 0 ∨ r ≤ wd →
            ∃ w', call (circle c (Some (x, y)) (Some r) wd 0 0 0 0) w =
                    (Return (return_rect
                               (accumulate empty_area
                                  (written (surface w)
                                           (draw_circle_filled x y r)))
                               (x, y)), w') ∧
                  paint color 0 (draw_circle_filled x y r) empty_area w =
                    (inl (accumulate empty_area
                            (written (surface w) (draw_circle_filled x y r))),
                     w')) as Hfilled.
  { intros wd Hwd. unfold circle.
    rewrite (call_bind _ _ w w (x, y)) by done.
    rewrite (call_bind _ _ w w r) by done.
    rewrite (call_bind _ _ w w (surface w)) by done.
    rewrite (call_bind _ _ w w tt) by (by apply check_depth_ok).
    rewrite (call_bind _ _ w w color) by done.
    rewrite (call_bind _ _ w w tt)
      by (by replace (r <? 1) with false by lia;
             replace (wd <? 0) with false by lia).
    rewrite (call_bind _ _ w w tt) by (by apply lock_or_raise_ok).
    simpl andb. cbv iota.
    replace (((if wd >? r then r else wd) =? 0) ||
             ((if wd >? r then r else wd) =? r)) with true
      by (destruct (Z.gtb_spec wd r), Hwd; lia).
    destruct (paint_runs color 0 (draw_circle_filled x y r) empty_area w)
      as (w' & Hp & Hst & Hl & Hu).
    exists w'. split; [|done].
    rewrite (call_bind _ _ w w' _ Hp).
    rewrite (call_bind _ _ w' w' tt)
      by (apply unlock_or_raise_ok; congruence).
    done. }
  destruct (Hfilled width) as (w1 & E1 & P1); [lia|].
  destruct (Hfilled 0) as (w0 & E0 & P0); [lia|].
  assert (w1 = w0) as -> by congruence.
  split; [congruence|]. rewrite E1. simpl.
  destruct (paint_runs color 0 (draw_circle_filled x y r) empty_area w)
    as (w' & Hp & Hst & _). assert (w' = w0) as -> by congruence.
  by apply stored_during_app.
Qed.

(** X13: on a surface of supported depth and with a colour that converts,
    [ellipse], [arc] and [rect] with a negative width return the zero-size
    rectangle at the top left corner of their rectangle and change nothing;
    [lines] with a width below 1 on two or more points does the same at its
    first point, once its two coordinate arrays have been granted, filled
    and released. *)
Theorem negative_width_draws_nothing (w : world) (c : PyColor)
    (rc : SDL_Rect) (width : Z) :
  valid_target w c →
  (width < 0 →
     call (ellipse c (Some rc) width) w =
       (Return (mkRect (rect_x rc) (rect_y rc) 0 0), w) ∧
     (∀ fuel a0 a1,
        arc fuel c (Some rc) a0 a1 width w =
          Some (Return (mkRect (rect_x rc) (rect_y rc) 0 0), w)) ∧
     (∀ radius tl tr bl br,
        call (rect c (Some rc) width radius tl tr bl br) w =
          (Return (mkRect (rect_x rc) (rect_y rc) 0 0), w))) ∧
  (width < 1 →
     ∀ closed p q pts, cooperative 2 w →
       ∃ w', call (lines c (Some closed) (Some (Some <$> p :: q :: pts))
                         width) w =
               (Return (mkRect p.1 p.2 0 0), w') ∧
             surface w' = surface w ∧ stored w' = stored w ∧
             live w' ⊆ live w).
Proof.
  intros [Hd Hc]. destruct (CHECK_LOAD_COLOR_ok w c Hc) as [color Hcol].
  split.
  - intros Hw. split; [|split].
    + unfold ellipse.
      rewrite (call_bind _ _ w w rc) by done.
      rewrite (call_bind _ _ w w (surface w)) by done.
      rewrite (call_bind _ _ w w tt) by (by apply check_depth_ok).
      rewrite (call_bind _ _ w w color) by done.
      unfold call, bind, return_if. by replace (width <? 0) with true by lia.
    + intros fuel a0 a1. unfold arc, arc_prologue, bind, from_obj, ret,
        get_surface.
      rewrite (check_depth_ok w Hd), Hcol. unfold return_if.
      by replace (width <? 0) with true by lia.
    + intros radius tl tr bl br. unfold rect.
      rewrite (call_bind _ _ w w rc) by done.
      rewrite (call_bind _ _ w w (surface w)) by done.
      rewrite (call_bind _ _ w w tt) by (by apply check_depth_ok).
      rewrite (call_bind _ _ w w color) by done.
      unfold call, bind, return_if. by replace (width <? 0) with true by lia.
  - intros Hw closed p q pts (Hplan & _ & _). unfold lines.
    rewrite (call_bind _ _ w w (surface w)) by done.
    rewrite (call_bind _ _ w w tt) by (by apply check_depth_ok).
    rewrite (call_bind _ _ w w color) by done.
    rewrite (call_bind _ _ w w closed) by done.
    rewrite (call_bind _ _ w w (Some <$> p :: q :: pts)) by done.
    rewrite (call_bind _ _ w w tt).
    2:{ rewrite length_fmap.
        destruct (Z.ltb_spec (Z.of_nat (length (p :: q :: pts))) 2) as [Hl|];
          [simpl in Hl; lia | done]. }
    destruct (PyMem_New_granted 1 w Hplan)
      as (w1 & E1 & Hs1 & Hst1 & Hl1 & _ & _ & Hplan1).
    rewrite (call_bind _ _ w w1 _ E1).
    destruct (PyMem_New_granted 0 w1 Hplan1)
      as (w2 & E2 & Hs2 & Hst2 & Hl2 & _ & _ & _).
    rewrite (call_bind _ _ w1 w2 _ E2).
    rewrite (call_bind _ _ w2 w2 tt)
      by (by rewrite !(bool_decide_eq_false_2 (Some _ = None)) by done).
    rewrite mapM_id_Some. destruct p as [x y]. cbn [nth]. cbv beta iota.
    replace (width <? 1) with true by lia.
    rewrite (call_bind _ _ w2 _ tt) by done.
    rewrite (call_bind _ _ _ _ tt) by done.
    unfold call, return_. simpl. eexists. split; [done|]. simpl.
    rewrite Hs2, Hs1, Hst2, Hst1, Hl2, Hl1. repeat split; try done.
    intros b. rewrite !elem_of_difference, !elem_of_union, !elem_of_singleton.
    intros [[Hb ?] ?]. by destruct Hb as [Hb|[Hb|Hb]].
Qed.

End Widths.

Lemma circle_as_wide_as_radius_is_filled_witness :
  let w := world_of (surface32 12 12 48 (λ _, 0)) in
  call (@circle SDL_packed (ColorInt 255) (Some (6, 6)) (Some 4) 9 0 0 0 0) w =
    call (@circle SDL_packed (ColorInt 255) (Some (6, 6)) (Some 4) 0 0 0 0 0) w ∧
  stored_during w
    (call (@circle SDL_packed (ColorInt 255) (Some (6, 6)) (Some 4) 9 0 0 0 0)
          w).2 =
    written (surface w) (draw_circle_filled 6 6 4).
Proof.
  intros w.
  apply (@circle_as_wide_as_radius_is_filled SDL_packed w (ColorInt 255)
           6 6 4 9); try reflexivity; [|lia].
  split; [simpl; lia | discriminate].
Defined.

Lemma negative_width_draws_nothing_witness :
  let w := world_of (surface32 12 12 48 (λ _, 0)) in
  call (@ellipse SDL_packed (ColorInt 255) (Some (mkRect 2 3 6 4)) (-1)) w =
    (Return (mkRect 2 3 0 0), w) ∧
  ∃ w', call (@lines SDL_packed (ColorInt 255) (Some true)
                     (Some (Some <$> [(5, 7); (9, 9); (1, 2)])) 0) w =
          (Return (mkRect 5 7 0 0), w') ∧
        stored w' = stored w.
Proof.
  intros w.
  assert (valid_target w (ColorInt 255)) as Hv
    by (split; [simpl; lia | discriminate]).
  assert (cooperative 2 w) as Hco.
  { split; [|split; reflexivity]. intros b Hb. simpl in Hb.
    by apply elem_of_nil in Hb. }
  destruct (@negative_width_draws_nothing SDL_packed libm_unused w
              (ColorInt 255) (mkRect 2 3 6 4) (-1) Hv) as [Hneg _].
  destruct (@negative_width_draws_nothing SDL_packed libm_unused w
              (ColorInt 255) (mkRect 2 3 6 4) 0 Hv) as [_ Hlines].
  destruct (Hneg ltac:(lia)) as (Hellipse & _ & _).
  destruct (Hlines ltac:(lia) true (5, 7) (9, 9) [(1, 2)] Hco)
    as (w' & Hcall & _ & Hst & _).
  split; [exact Hellipse|]. by exists w'.
Defined.

(** ** Reading back what [set_at] stored *)

Lemma load32_store32 (m : Z → Z) (a v : Z) :
  load32 (store32 m a v) a = Uint32 v.
Proof.
  unfold load32, store32, store8.
  replace (a =? a + 3) with false by lia.
  replace (a =? a + 2) with false by lia.
  replace (a =? a + 1) with false by lia.
  replace (a + 1 =? a + 3) with false by lia.
  replace (a + 1 =? a + 2) with false by lia.
  replace (a + 2 =? a + 3) with false by lia.
  rewrite !Z.eqb_refl. unfold Uint8, Uint32.
  rewrite !Z.shiftr_div_pow2 by lia.
  change (2 ^ 32) with (2 ^ 8 * (2 ^ 8 * (2 ^ 8 * 2 ^ 8))).
  rewrite (Z.rem_mul_r v (2 ^ 8)) by lia.
  rewrite (Z.rem_mul_r (v / 2 ^ 8) (2 ^ 8)) by lia.
  rewrite (Z.rem_mul_r (v / 2 ^ 8 / 2 ^ 8) (2 ^ 8)) by lia.
  rewrite !Z.div_div by lia.
  change (2 ^ 8 * 2 ^ 8) with (2 ^ 16).
  change (2 ^ 16 * 2 ^ 8) with (2 ^ 24).
  lia.
Qed.

Lemma load32_store32_other (m : Z → Z) (a a' v : Z) :
  a' + 4 ≤ a ∨ a + 4 ≤ a' → load32 (store32 m a v) a' = load32 m a'.
Proof.
  intros Hd. unfold load32, store32.
  by rewrite !store8_other by lia.
Qed.

Section ReadBack.
Context `{SDL_API}.

(** X14: on a surface of 4-byte pixels, a pixel inside the clip rectangle
    that [set_at] has stored reads back as the colour, reduced to 32 bits;
    [set_at] returns 1 and has fed the pixel to the accumulator.  When the
    rows of the surface do not overlap, every other pixel of the surface
    reads as before. *)
Theorem set_at_stores_the_color (surf : SDL_Surface) (x y color : Z)
    (area : drawn_area) :
  BytesPerPixel (format surf) = 4 → outside_clip surf x y = false →
  let '(drawn, surf', area') := set_at surf x y color area in
  drawn = 1 ∧ pixel32 surf' x y = Uint32 color ∧
  area' = add_pixel_to_drawn_list x y area ∧
  (4 * surf_w surf ≤ pitch surf → 0 ≤ x < surf_w surf →
   ∀ x' y', 0 ≤ x' < surf_w surf → (x', y') ≠ (x, y) →
            pixel32 surf' x' y' = pixel32 surf x' y').
Proof.
  intros Hbpp Hin. unfold set_at. rewrite Hin, Hbpp.
  split; [done|]. unfold pixel32. simpl. split; [apply load32_store32|].
  split; [done|]. intros Hpitch Hx x' y' Hx' Hne.
  apply load32_store32_other.
  destruct (Z.lt_trichotomy y' y) as [Hlt|[->|Hgt]].
  - left. nia.
  - assert (x' ≠ x) by congruence. lia.
  - right. nia.
Qed.

End ReadBack.

Lemma set_at_stores_the_color_witness :
  let surf := surface32 4 4 16 (λ _, 7) in
  (@set_at SDL_packed surf 2 1 305419896 empty_area).1.1 = 1 ∧
  pixel32 (@set_at SDL_packed surf 2 1 305419896 empty_area).1.2 2 1 =
    305419896 ∧
  pixel32 (@set_at SDL_packed surf 2 1 305419896 empty_area).1.2 3 1 =
    pixel32 surf 3 1.
Proof.
  intros surf.
  pose proof (@set_at_stores_the_color SDL_packed surf 2 1 305419896
                empty_area eq_refl eq_refl) as Hset.
  destruct (@set_at SDL_packed surf 2 1 305419896 empty_area)
    as [[drawn surf'] area'].
  destruct Hset as (Hd & Hp & _ & Hother). simpl.
  split; [exact Hd|]. split; [exact Hp|].
  apply Hother; [simpl; lia..|discriminate].
Defined.

(** ** Degenerate ellipses *)

(** The pixels of a vertical line. *)
Lemma draw_line_vertical (x y1 y2 : Z) (p : Z * Z) :
  p ∈ op_xy <$> draw_line x y1 x y2 ↔
  p.1 = x ∧ Z.min y1 y2 ≤ p.2 ≤ Z.max y1 y2.
Proof.
  rewrite draw_line_closed_form, line_pixels_ymajor by lia.
  destruct p as [px py]. rewrite elem_of_swap, xmajor_elem.
  replace (x - x) with 0 by lia. simpl Z.abs.
  assert (∀ n, bres (Z.abs (y2 - y1)) 0 n = 0) as Hb.
  { intros n. destruct (decide (Z.abs (y2 - y1) = 0)) as [->|].
    - unfold bres. by rewrite Z.div_0_r.
    - apply bres_minor_0. lia. }
  setoid_rewrite Hb. simpl. split.
  - intros (n & Hn & [= -> ->]). destruct (Z.ltb_spec y1 y2); lia.
  - intros [-> Hy]. destruct (Z.ltb_spec y1 y2).
    + exists (py - y1). split; [lia|]. f_equal; lia.
    + exists (y1 - py). split; [lia|]. f_equal; lia.
Qed.

Lemma Sint16_small (z : Z) : - 2 ^ 15 ≤ z < 2 ^ 15 → Sint16 z = z.
Proof. intros Hz. unfold Sint16. rewrite Z.mod_small; lia. Qed.

Lemma shiftr_1_half (z : Z) : Z.shiftr z 1 = z / 2.
Proof. by rewrite Z.shiftr_div_pow2 by lia. Qed.

Lemma land_1_parity (z : Z) : Z.land z 1 = z mod 2.
Proof. change 1 with (Z.ones 1). by rewrite Z.land_ones by lia. Qed.

(** X15: an ellipse too narrow or too flat for a radius degenerates.  With
    width and height both 0 or 1 it is the single pixel at its centre.
    With width 0 or 1 and a height of 2 or more it is the vertical line
    through the centre from [y - height / 2] to
    [y + height / 2 + height mod 2], and with height 0 or 1 and a width of
    2 or more the horizontal line likewise, as long as the ends fit the
    16 bits they are converted to. *)
Theorem draw_ellipse_degenerate (x y width height solid : Z) (p : Z * Z) :
  let dots := op_xy <$> draw_ellipse x y width height solid in
  (0 ≤ width ≤ 1 → 0 ≤ height ≤ 1 → dots = [(x, y)]) ∧
  (0 ≤ width ≤ 1 → 2 ≤ height →
   - 2 ^ 15 ≤ y - height / 2 → y + height / 2 + height mod 2 < 2 ^ 15 →
   (p ∈ dots ↔
    p.1 = x ∧ y - height / 2 ≤ p.2 ≤ y + height / 2 + height mod 2)) ∧
  (2 ≤ width → 0 ≤ height ≤ 1 →
   - 2 ^ 15 ≤ x - width / 2 → x + width / 2 + width mod 2 < 2 ^ 15 →
   (p ∈ dots ↔
    p.2 = y ∧ x - width / 2 ≤ p.1 ≤ x + width / 2 + width mod 2)).
Proof.
  intros dots. unfold dots, draw_ellipse.
  rewrite !shiftr_1_half, !land_1_parity.
  pose proof (Z.div_mod width 2 ltac:(lia)) as Hw.
  pose proof (Z.mod_pos_bound width 2 ltac:(lia)) as Hwr.
  pose proof (Z.div_mod height 2 ltac:(lia)) as Hh.
  pose proof (Z.mod_pos_bound height 2 ltac:(lia)) as Hhr.
  split; [|split].
  - intros Hw01 Hh01.
    replace (width / 2 =? 0) with true by lia.
    by replace (height / 2 =? 0) with true by lia.
  - intros Hw01 Hh2 Hlo Hhi.
    replace (width / 2 =? 0) with true by lia.
    replace (height / 2 =? 0) with false by lia. simpl andb. cbv iota.
    rewrite !Sint16_small by lia. rewrite draw_line_vertical. lia.
  - intros Hw2 Hh01 Hlo Hhi.
    replace (width / 2 =? 0) with false by lia.
    replace (height / 2 =? 0) with true by lia. simpl andb. cbv iota.
    rewrite !Sint16_small by lia. rewrite draw_line_horizontal. lia.
Qed.

Lemma draw_ellipse_degenerate_witness :
  op_xy <$> draw_ellipse 5 5 1 1 1 = [(5, 5)] ∧
  ((5, 7) ∈ op_xy <$> draw_ellipse 5 5 1 4 1 ↔ 5 = 5 ∧ 3 ≤ 7 ≤ 7) ∧
  ((8, 5) ∈ op_xy <$> draw_ellipse 5 5 5 0 0 ↔ 5 = 5 ∧ 3 ≤ 8 ≤ 8).
Proof.
  destruct (draw_ellipse_degenerate 5 5 1 1 1 (5, 5)) as (Hdot & _ & _).
  destruct (draw_ellipse_degenerate 5 5 1 4 1 (5, 7)) as (_ & Hvert & _).
  destruct (draw_ellipse_degenerate 5 5 5 0 0 (8, 5)) as (_ & _ & Hhor).
  split; [apply Hdot; lia|]. split.
  - apply Hvert; [lia | lia | vm_compute; discriminate | reflexivity].
  - apply Hhor; [lia | lia | vm_compute; discriminate | reflexivity].
Defined.

(** ** The shape of an antialiased line *)

Lemma draw_aaline_pixel_elem (steep : bool) (x : Z) (intersect_y to_y : F32.t)
    (last : bool) (from_y : F32.t) (p : Z * Z) :
  p ∈ op_xy <$> draw_aaline_pixel steep x intersect_y to_y last from_y →
  major_of steep p = x ∧
  (minor_of steep p = int_of_float intersect_y ∨
   minor_of steep p = int_of_float intersect_y + 1).
Proof.
  unfold draw_aaline_pixel, major_of, minor_of. rewrite fmap_app, elem_of_app.
  intros [Hp|Hp].
  - destruct steep; simpl in Hp; apply list_elem_of_singleton in Hp as ->;
      simpl; auto.
  - destruct (_ || _); [|by apply elem_of_nil in Hp].
    destruct steep; simpl in Hp; apply list_elem_of_singleton in Hp as ->;
      simpl; auto.
Qed.

(** Along the loop of [draw_aaline] every major coordinate of [xs] gets
    one pixel or two neighbours, and no other coordinate gets any. *)
Lemma draw_aaline_loop_shape (steep : bool) (xs : list Z) (x_pixel_end : Z)
    (intersect_y gradient from_y to_y : F32.t) (p : Z * Z) :
  NoDup xs →
  p ∈ op_xy <$> draw_aaline_loop steep xs x_pixel_end intersect_y gradient
                                 from_y to_y →
  major_of steep p ∈ xs ∧
  ∃ v, ∀ q, q ∈ op_xy <$> draw_aaline_loop steep xs x_pixel_end intersect_y
                                           gradient from_y to_y →
            major_of steep q = major_of steep p →
            minor_of steep q = v ∨ minor_of steep q = v + 1.
Proof.
  revert intersect_y p.
  induction xs as [|x xs IH]; intros intersect_y p Hnd Hp.
  { by apply elem_of_nil in Hp. }
  apply NoDup_cons in Hnd as [Hx Hnd]. simpl in Hp |- *.
  rewrite fmap_app, elem_of_app in Hp. destruct Hp as [Hp|Hp].
  - apply draw_aaline_pixel_elem in Hp as [Hmaj Hmin].
    split; [rewrite Hmaj; apply list_elem_of_here|].
    exists (int_of_float intersect_y). intros q Hq Hsame.
    rewrite fmap_app, elem_of_app in Hq. destruct Hq as [Hq|Hq].
    + by apply draw_aaline_pixel_elem in Hq as [_ ?].
    + apply IH in Hq as [Hin _]; [|done]. congruence.
  - destruct (IH _ _ Hnd Hp) as [Hin [v Hv]].
    split; [by apply list_elem_of_further|].
    exists v. intros q Hq Hsame.
    rewrite fmap_app, elem_of_app in Hq. destruct Hq as [Hq|Hq].
    + apply draw_aaline_pixel_elem in Hq as [Hmaj _]. congruence.
    + by apply Hv.
Qed.

(** X16: an antialiased line advances along x, or along y when it is
    steep.  It stays between the integer parts of the major coordinates of
    its endpoints, and at each step along the major axis it touches one
    pixel or two neighbouring ones. *)
Theorem draw_aaline_shape (from_x from_y to_x to_y : F32.t) (p : Z * Z) :
  let steep := aaline_steep from_x from_y to_x to_y in
  let a := int_of_float (if steep then from_y else from_x) in
  let b := int_of_float (if steep then to_y else to_x) in
  let dots := op_xy <$> draw_aaline from_x from_y to_x to_y in
  p ∈ dots →
  Z.min a b ≤ major_of steep p ≤ Z.max a b ∧
  ∀ q, q ∈ dots → major_of steep q = major_of steep p →
       Z.abs (minor_of steep q - minor_of steep p) ≤ 1.
Proof.
  intros steep a b dots. unfold dots, a, b, steep, draw_aaline, aaline_steep.
  cbv zeta.
  destruct (F32.ltb (if F32.ltb (F32.sub to_x from_x) (F32.of_int 0)
                     then F32.neg (F32.sub to_x from_x)
                     else F32.sub to_x from_x)
                    (if F32.ltb (F32.sub to_y from_y) (F32.of_int 0)
                     then F32.neg (F32.sub to_y from_y)
                     else F32.sub to_y from_y)) eqn:Hsteep.
  all: match goal with
       | |- context [if F32.ltb ?u ?v then (?u, _, ?v, _) else _] =>
           destruct (F32.ltb u v)
       end.
  all: intros Hp;
    destruct (draw_aaline_loop_shape _ _ _ _ _ _ _ p (NoDup_seqZ _ _) Hp)
      as [Hin [v Hv]];
    apply elem_of_seqZ in Hin;
    (split; [lia|]);
    intros q Hq Hsame;
    pose proof (Hv q Hq Hsame); pose proof (Hv p Hp eq_refl); lia.
Qed.

Lemma draw_aaline_shape_witness :
  let dots := op_xy <$> draw_aaline (F32.of_int 0) (F32.of_int 0)
                                    (F32.of_int 4) (F32.of_int 2) in
  (2, 1) ∈ dots ∧ (2, 2) ∈ dots ∧ 0 ≤ 2 ≤ 4 ∧ Z.abs (2 - 1) ≤ 1.
Proof.
  intros dots.
  assert ((2, 1) ∈ dots) as Hp.
  { vm_compute. do 4 apply list_elem_of_further. apply list_elem_of_here. }
  assert ((2, 2) ∈ dots) as Hq.
  { vm_compute. do 5 apply list_elem_of_further. apply list_elem_of_here. }
  destruct (draw_aaline_shape (F32.of_int 0) (F32.of_int 0) (F32.of_int 4)
              (F32.of_int 2) (2, 1) Hp) as [Hband Hnear].
  split; [exact Hp|]. split; [exact Hq|]. split; [exact Hband|].
  exact (Hnear (2, 2) Hq eq_refl).
Defined.

(** ** The returned rectangle and the clip rectangle *)

Section ReturnedRect.
Context `{SDL_API} `{Libm}.

(** X17: a rectangle returned by a primitive that has stored a pixel lies
    inside the clip rectangle of the surface. *)
Theorem returned_rect_inside_clip (fuel : nat) (p : primitive) (w w' : world)
    (r : SDL_Rect) :
  clip_within_surface (surface w) →
  invoke fuel p w = Some (Return r, w') →
  stored_during w w' ≠ [] →
  let c := clip_rect (surface w) in
  rect_x c ≤ rect_x r ∧ rect_x r + rect_w r ≤ rect_x c + rect_w c ∧
  rect_y c ≤ rect_y r ∧ rect_y r + rect_h r ≤ rect_y c + rect_h c.
Proof.
  intros Hclip Hinv Hne c. subst c.
  set (c := clip_rect (surface w)) in *.
  destruct (invoke_contract fuel p w w' (Return r) Hinv)
    as (area' & (_ & _ & _ & _ & W & Hs & -> & HW) & Hr).
  rewrite (stored_during_app w w' W Hs) in Hne.
  assert (∀ q, q ∈ W →
            rect_x c ≤ q.1 < rect_x c + rect_w c ∧
            rect_y c ≤ q.2 < rect_y c + rect_h c) as Hin.
  { intros q Hq. specialize (HW q Hq).
    destruct (decide (rect_x c ≤ q.1 < rect_x c + rect_w c ∧
                      rect_y c ≤ q.2 < rect_y c + rect_h c)) as [|Hout];
      [done|].
    apply outside_clip_spec in Hout. congruence. }
  destruct (return_rect_accumulate W (anchor p)) as [_ Htight].
  { intros q Hq. specialize (Hin q Hq).
    destruct Hclip as (Hx & Hy & Hw & Hh & Hwm & Hhm).
    unfold INT_MIN, c in *. lia. }
  rewrite (Hr r eq_refl).
  destruct (Htight Hne)
    as (x0 & y0 & x1 & y1 & -> & _ & (p0 & Hp0 & <-) & (p1 & Hp1 & <-) &
        (p2 & Hp2 & <-) & (p3 & Hp3 & <-)).
  simpl. pose proof (Hin p0 Hp0). pose proof (Hin p1 Hp1).
  pose proof (Hin p2 Hp2). pose proof (Hin p3 Hp3). lia.
Qed.

End ReturnedRect.

Lemma returned_rect_inside_clip_witness :
  let w := world_of (mkSurface RGBA8888 4 4 16 (λ _, 9) (mkRect 1 1 2 2)) in
  let p := Circle (ColorInt 255) (Some (2, 2)) (Some 3) 0 0 0 0 0 in
  ∃ w', @invoke SDL_packed libm_unused 0 p w =
          Some (Return (mkRect 1 1 2 2), w') ∧
        1 ≤ 1 ∧ 1 + 2 ≤ 1 + 2 ∧ 1 ≤ 1 ∧ 1 + 2 ≤ 1 + 2.
Proof.
  intros w p.
  set (m := @circle SDL_packed (ColorInt 255) (Some (2, 2)) (Some 3) 0 0 0 0 0).
  assert (@invoke SDL_packed libm_unused 0 p w =
          Some (Return (mkRect 1 1 2 2), (call m w).2)) as Hinv.
  { unfold invoke, p. fold m. destruct (call m w) as [res w1] eqn:Hc.
    assert (res = Return (mkRect 1 1 2 2)) as ->; [|done].
    change res with (res, w1).1. rewrite <- Hc. vm_compute. reflexivity. }
  exists (call m w).2. split; [exact Hinv|].
  apply (@returned_rect_inside_clip SDL_packed libm_unused 0%nat p w _ _
           ltac:(unfold clip_within_surface, INT_MAX; simpl; lia) Hinv).
  vm_compute. discriminate.
Defined.

(** ** Outlines without room *)

Lemma quot_2_nonpos (v : Z) : v < 2 → Z.quot v 2 ≤ 0.
Proof.
  intros Hv. destruct (Z.le_gt_cases 0 v).
  - rewrite Z.quot_small; lia.
  - replace v with (- - v) by lia. rewrite Z.quot_opp_l by lia.
    pose proof (Z.quot_pos (- v) 2 ltac:(lia) ltac:(lia)). lia.
Qed.

Lemma quot_2_pos (v : Z) : 2 ≤ v → 1 ≤ Z.quot v 2.
Proof.
  intros Hv. rewrite Z.quot_div_nonneg by lia.
  apply Z.div_le_lower_bound; lia.
Qed.

Section NoRoom.
Context `{SDL_API} `{Libm}.

Lemma paint_nothing (color blend : Z) (area : drawn_area) (w : world) :
  paint color blend [] area w = (inl area, w).
Proof. destruct w. unfold paint. simpl. by rewrite app_nil_r. Qed.

(** X18: the stroke of [ellipse] and [arc] is limited to half the shorter
    side of the rectangle.  On a rectangle with one side of at least 2 and
    the other below 2 that limit is not positive, and an outline of any
    positive width stores no pixel; so does an arc of width 0 on any
    rectangle.  The call returns the zero-size rectangle at the top left
    corner of the rectangle. *)
Theorem outline_without_room_draws_nothing (w : world) (c : PyColor)
    (rc : SDL_Rect) (width : Z) :
  valid_target w c → lock_ok w = true → unlock_ok w = true →
  let nothing := (Return (mkRect (rect_x rc) (rect_y rc) 0 0), w) in
  (0 < width →
   MIN (rect_w rc) (rect_h rc) < 2 ≤ MAX (rect_w rc) (rect_h rc) →
   call (ellipse c (Some rc) width) w = nothing ∧
   ∀ fuel a0 a1, arc fuel c (Some rc) a0 a1 width w = Some nothing) ∧
  (width = 0 →
   ∀ fuel a0 a1, arc fuel c (Some rc) a0 a1 width w = Some nothing).
Proof.
  intros [Hd Hc] Hlock Hunlock nothing.
  destruct (CHECK_LOAD_COLOR_ok w c Hc) as [color Hcol].
  assert (∀ wd a0 a1 fuel,
            0 ≤ wd → MIN (clamp_width wd rc)
                         (Z.quot (MIN (rect_w rc) (rect_h rc)) 2) ≤ 0 →
            arc fuel c (Some rc) a0 a1 wd w = Some nothing) as Harc.
  { intros wd a0 a1 fuel Hwd Hlim.
    unfold arc, arc_prologue, bind, from_obj, ret, get_surface.
    rewrite (check_depth_ok w Hd), Hcol. unfold return_if.
    replace (wd <? 0) with false by lia. unfold ret. cbv beta iota.
    rewrite (lock_or_raise_ok w Hlock). cbv beta iota.
    unfold arc_loop. rewrite seqZ_nil by done. simpl.
    unfold call, arc_epilogue, bind. rewrite paint_nothing.
    by rewrite (unlock_or_raise_ok w Hunlock). }
  split.
  - intros Hwd [Hmin Hmax].
    assert (1 ≤ clamp_width width rc ∧
            MIN (clamp_width width rc)
                (Z.quot (MIN (rect_w rc) (rect_h rc)) 2) ≤ 0) as [Hcl Hlim].
    { pose proof (quot_2_nonpos _ Hmin) as Hq.
      pose proof (quot_2_pos _ Hmax) as Hq'.
      revert Hq Hq'. unfold clamp_width, MIN, MAX.
      repeat match goal with
             | |- context [?a <? ?b] => destruct (Z.ltb_spec a b)
             | |- context [?a >? ?b] => destruct (Z.gtb_spec a b)
             end; simpl in *; lia. }
    split; [|intros fuel a0 a1; apply Harc; [lia|done]].
    unfold ellipse.
    rewrite (call_bind _ _ w w rc) by done.
    rewrite (call_bind _ _ w w (surface w)) by done.
    rewrite (call_bind _ _ w w tt) by (by apply check_depth_ok).
    rewrite (call_bind _ _ w w color) by done.
    rewrite (call_bind _ _ w w tt)
      by (by unfold return_if; replace (width <? 0) with false by lia).
    rewrite (call_bind _ _ w w tt) by (by apply lock_or_raise_ok).
    replace (clamp_width width rc =? 0) with false by lia.
    unfold for_Z. rewrite seqZ_nil by lia. simpl flat_map.
    rewrite (call_bind _ _ w w _ (paint_nothing _ _ _ _)).
    rewrite (call_bind _ _ w w tt) by (by apply unlock_or_raise_ok).
    done.
  - intros -> fuel a0 a1. apply Harc; [done|].
    pose proof (quot_2_nonpos (rect_w rc)) as Hw.
    pose proof (quot_2_nonpos (rect_h rc)) as Hh.
    pose proof (Z.quot_pos (rect_w rc) 2) as Hw'.
    pose proof (Z.quot_pos (rect_h rc) 2) as Hh'.
    revert Hw Hh Hw' Hh'. unfold clamp_width, MIN, MAX.
    repeat match goal with
           | |- context [?a <? ?b] => destruct (Z.ltb_spec a b)
           | |- context [?a >? ?b] => destruct (Z.gtb_spec a b)
           | H : context [?a <? ?b] |- _ => destruct (Z.ltb_spec a b)
           | H : context [?a >? ?b] |- _ => destruct (Z.gtb_spec a b)
           end; simpl in *; lia.
Qed.

End NoRoom.

Lemma outline_without_room_draws_nothing_witness :
  let w := world_of (surface32 8 8 32 (λ _, 0)) in
  call (@ellipse SDL_packed (ColorInt 255) (Some (mkRect 1 1 1 6)) 1) w =
    (Return (mkRect 1 1 0 0), w) ∧
  @arc SDL_packed libm_unused 0 (ColorInt 255) (Some (mkRect 1 1 6 6))
       (F64.of_int 0) (F64.of_int 3) 0 w =
    Some (Return (mkRect 1 1 0 0), w).
Proof.
  intros w.
  assert (valid_target w (ColorInt 255)) as Hv
    by (split; [simpl; lia | discriminate]).
  destruct (@outline_without_room_draws_nothing SDL_packed libm_unused w
              (ColorInt 255) (mkRect 1 1 1 6) 1 Hv eq_refl eq_refl)
    as [Hthin _].
  destruct (@outline_without_room_draws_nothing SDL_packed libm_unused w
              (ColorInt 255) (mkRect 1 1 6 6) 0 Hv eq_refl eq_refl)
    as [_ Hzero].
  split.
  - apply Hthin; [lia|]. vm_compute. split; [done | discriminate].
  - by apply Hzero.
Defined.

(** ** The quadrants of a circle *)













(** ** The loops of [draw_ellipse] *)


